(** * callbackless.js: the Promise monad and its combinators

    A shallow embedding of [src/callbackless.js].  A promise is a closure
    over six private variables; here every promise is a [cell] of a heap
    and a promise value is a reference to its cell.  The closures that the
    module registers as listeners are defunctionalised into [callback];
    the functions handed to the combinators are defunctionalised into [fn].
    JavaScript exceptions keep the heap as it was when they were thrown. *)

From Stdlib Require Import ZArith String Lia.
From stdpp Require Import base option list.

Open Scope string_scope.
Open Scope list_scope.

(** ** Values *)

(** [_state :: enum('PENDING', 'SUCCEEDED', 'FAILED')] *)
Inductive State := PENDING | SUCCEEDED | FAILED.

#[global] Instance State_eq_dec : EqDecision State.
Proof. solve_decision. Defined.

Definition State_eqb (a b : State) : bool :=
  match a, b with
  | PENDING, PENDING | SUCCEEDED, SUCCEEDED | FAILED, FAILED => true
  | _, _ => false
  end.

Definition state_name (s : State) : string :=
  match s with
  | PENDING => "PENDING"
  | SUCCEEDED => "SUCCEEDED"
  | FAILED => "FAILED"
  end.

Abbreviation ref := nat.

Inductive value :=
| VUndefined
| VNull
| VBool (b : bool)
| VNum (z : Z)
| VStr (s : string)
| VPromise (r : ref).

(** [x != null] of JavaScript: false exactly on [null] and [undefined]. *)
Definition not_null (v : value) : bool :=
  match v with
  | VUndefined | VNull => false
  | _ => true
  end.

(** ** Functions and closures *)

(** Functions that are passed to the combinators, or stored in the options
    of a promise.  [FUser] is a function of the caller, given by a table;
    the others are functions of the module itself. *)
Inductive fn :=
| FUser (id : nat)
| F__errorToData__            (* function __errorToData__(error) { return null; } *)
| FUnit                       (* unit *)
| FFlatMapAfter (g f : fn).   (* function (x) { return flatMap(g)(f(x)); } *)

(** What a function of the caller does with its arguments. *)
Inductive action :=
| AReturn (v : value)         (* return v *)
| AThrow (e : value)          (* throw e *)
| AUnit (v : value)           (* return unit(v) *)
| AFailed (e : value)         (* var p = promise(); p.__notifyFailure__(e); return p *)
| APending.                   (* return promise() *)

(** The listeners: one constructor per closure of the source, with the
    variables it captures. *)
Inductive callback :=
| CbUser (id : nat)                    (* a listener of the caller: it is recorded in the trace *)
| CbSuccessConst (p : ref) (v : value) (* function (_) { p.__notifySuccess__(v); }   isSuccess, isFailure *)
| CbFailureConst (p : ref) (v : value) (* function (_) { p.__notifyFailure__(v); }   getError *)
| CbSuccess (p : ref)                  (* function (data) { p.__notifySuccess__(data); } *)
| CbFailure (p : ref)                  (* function (error) { p.__notifyFailure__(error); } *)
| CbFmap (f : fn) (r : ref)            (* function (data) { r.__notifySuccess__(f(data)); } *)
| CbJoin (t : ref)                     (* the outer success listener of join *)
| CbLiftA (f : fn) (numArgs : nat) (env : nat) (r : ref)  (* the finish listener of liftA *)
| CbContinue (p1 : value) (f : fn) (r2 : ref).            (* the finish listener of continue *)

(** ** The heap *)

(** [options :: Options { errorToData :: Error -> Data }]: the property may
    be missing from the object the caller passes. *)
Record Options := { opt__errorToData__ : option fn }.

Record cell := {
  _state : State;
  _data : value;
  _error : value;
  _successListeners : list callback;
  _failureListeners : list callback;
  _finishListeners : list callback;
  _options : Options
}.

(** The variables shared by the finish listeners of one call of a lifted
    function: [finishedCount] and the array [t$s]. *)
Record frame := { finishedCount : nat; ts : list value }.

Inductive event :=
| EvListener (id : nat) (args : list value)   (* a listener of the caller ran *)
| EvCall (id : nat) (args : list value).      (* a function of the caller ran *)

Record heap := {
  cells : list cell;
  frames : list frame;
  trace : list event
}.

Definition empty_heap : heap := {| cells := []; frames := []; trace := [] |}.

(** ** Computations *)

Inductive outcome (A : Type) :=
| Ret (a : A) (h : heap)
| Throw (e : value) (h : heap)
| OutOfFuel.
Arguments Ret {A} a h.
Arguments Throw {A} e h.
Arguments OutOfFuel {A}.

Definition M (A : Type) := heap -> outcome A.

Definition ret {A} (a : A) : M A := fun h => Ret a h.
Definition throw {A} (e : value) : M A := fun h => Throw e h.
Definition bind {A B} (m : M A) (k : A -> M B) : M B :=
  fun h => match m h with
           | Ret a h' => k a h'
           | Throw e h' => Throw e h'
           | OutOfFuel => OutOfFuel
           end.

Notation "x <- m ;; k" := (bind m (fun x => k))
  (at level 100, m at next level, right associativity).
Notation "m ;;; k" := (bind m (fun _ => k))
  (at level 100, right associativity).

Fixpoint for_each {A} (f : A -> M unit) (l : list A) : M unit :=
  match l with
  | [] => ret tt
  | x :: l' => f x ;;; for_each f l'
  end.

Fixpoint map_m {A B} (f : A -> M B) (l : list A) : M (list B) :=
  match l with
  | [] => ret []
  | x :: l' => y <- f x ;; ys <- map_m f l' ;; ret (y :: ys)
  end.

Definition TypeError : value := VStr "TypeError".

Definition get_cell (r : ref) : M cell :=
  fun h => match cells h !! r with
           | Some c => Ret c h
           | None => Throw TypeError h
           end.

Definition set_cell (r : ref) (c : cell) : M unit :=
  fun h => Ret tt {| cells := <[r := c]> (cells h); frames := frames h; trace := trace h |}.

Definition new_cell (c : cell) : M ref :=
  fun h => Ret (length (cells h))
               {| cells := cells h ++ [c]; frames := frames h; trace := trace h |}.

Definition get_frame (e : nat) : M frame :=
  fun h => match frames h !! e with
           | Some f => Ret f h
           | None => Throw TypeError h
           end.

Definition set_frame (e : nat) (f : frame) : M unit :=
  fun h => Ret tt {| cells := cells h; frames := <[e := f]> (frames h); trace := trace h |}.

Definition new_frame (f : frame) : M nat :=
  fun h => Ret (length (frames h))
               {| cells := cells h; frames := frames h ++ [f]; trace := trace h |}.

Definition log (ev : event) : M unit :=
  fun h => Ret tt {| cells := cells h; frames := frames h; trace := trace h ++ [ev] |}.

(** A method call on a value that is not a promise is a TypeError. *)
Definition as_promise (v : value) : M ref :=
  match v with
  | VPromise r => ret r
  | _ => throw TypeError
  end.

Definition first_arg (args : list value) : value := default VUndefined (head args).

(** ** The module *)

Inductive task :=
| Invoke (cb : callback) (args : list value)   (* cb(args...) *)
| Call (f : fn) (args : list value).           (* f(args...) *)

Definition set_state (c : cell) (s : State) (d e : value) : cell :=
  {| _state := s; _data := d; _error := e;
     _successListeners := _successListeners c;
     _failureListeners := _failureListeners c;
     _finishListeners := _finishListeners c;
     _options := _options c |}.

Definition push_success (c : cell) (cb : callback) : cell :=
  {| _state := _state c; _data := _data c; _error := _error c;
     _successListeners := _successListeners c ++ [cb];
     _failureListeners := _failureListeners c;
     _finishListeners := _finishListeners c;
     _options := _options c |}.

Definition push_failure (c : cell) (cb : callback) : cell :=
  {| _state := _state c; _data := _data c; _error := _error c;
     _successListeners := _successListeners c;
     _failureListeners := _failureListeners c ++ [cb];
     _finishListeners := _finishListeners c;
     _options := _options c |}.

Definition push_finish (c : cell) (cb : callback) : cell :=
  {| _state := _state c; _data := _data c; _error := _error c;
     _successListeners := _successListeners c;
     _failureListeners := _failureListeners c;
     _finishListeners := _finishListeners c ++ [cb];
     _options := _options c |}.

Definition default_options : Options :=
  {| opt__errorToData__ := Some F__errorToData__ |}.

Definition not_pending_msg : value := VStr "The promise is not in PENDING state".
Definition pending_msg : value := VStr "The promise is in PENDING state".

Section Module.

(** The functions of the caller. *)
Variable fenv : nat -> list value -> action.

Section Body.

(** Calls of closures and functions go through [rec]: the interpreter
    below ties the knot. *)
Variable rec : task -> M value.

Definition invoke (cb : callback) (args : list value) : M unit :=
  rec (Invoke cb args) ;;; ret tt.

Definition call (f : fn) (args : list value) : M value :=
  rec (Call f args).

(** [promise(options)]: the variables of the closure. *)
Definition promise (options : option Options) : M ref :=
  new_cell {| _state := PENDING; _data := VUndefined; _error := VUndefined;
              _successListeners := []; _failureListeners := [];
              _finishListeners := [];
              _options := default default_options options |}.

(** The two loops run over arrays that cannot grow while they run: the
    state is no longer PENDING, and listeners are pushed only on a
    PENDING promise.  So the listeners are read once. *)
Definition __notifySuccess__ (r : ref) (data : value) : M value :=
  c <- get_cell r ;;
  if State_eqb (_state c) PENDING then
    set_cell r (set_state c SUCCEEDED data (_error c)) ;;;
    for_each (fun cb => invoke cb [data]) (_successListeners c) ;;;
    for_each (fun cb => invoke cb [VStr (state_name SUCCEEDED); data; _error c])
             (_finishListeners c) ;;;
    ret VUndefined
  else throw not_pending_msg.

Definition __notifyFailure__ (r : ref) (error : value) : M value :=
  c <- get_cell r ;;
  if State_eqb (_state c) PENDING then
    set_cell r (set_state c FAILED (_data c) error) ;;;
    for_each (fun cb => invoke cb [error]) (_failureListeners c) ;;;
    for_each (fun cb => invoke cb [VStr (state_name FAILED); _data c; error])
             (_finishListeners c) ;;;
    ret VUndefined
  else throw not_pending_msg.

Definition registerSuccessListener (r : ref) (cb : callback) : M value :=
  c <- get_cell r ;;
  match _state c with
  | PENDING => set_cell r (push_success c cb) ;;; ret (VPromise r)
  | SUCCEEDED => invoke cb [_data c] ;;; ret (VPromise r)
  | FAILED => ret (VPromise r)
  end.

Definition registerFailureListener (r : ref) (cb : callback) : M value :=
  c <- get_cell r ;;
  match _state c with
  | PENDING => set_cell r (push_failure c cb) ;;; ret (VPromise r)
  | FAILED => invoke cb [_error c] ;;; ret (VPromise r)
  | SUCCEEDED => ret (VPromise r)
  end.

Definition registerFinishListener (r : ref) (cb : callback) : M value :=
  c <- get_cell r ;;
  match _state c with
  | PENDING => set_cell r (push_finish c cb) ;;; ret (VPromise r)
  | s => invoke cb [VStr (state_name s); _data c; _error c] ;;; ret (VPromise r)
  end.

Definition getState (r : ref) : M State :=
  c <- get_cell r ;; ret (_state c).

Definition getData (r : ref) : M value :=
  c <- get_cell r ;;
  match _state c with
  | PENDING => throw pending_msg
  | SUCCEEDED => ret (_data c)
  | FAILED =>
      match opt__errorToData__ (_options c) with
      | Some f => call f [_error c]
      | None => throw TypeError
      end
  end.

(** [unit(data)]; the name [unit] is the type of Rocq. *)
Definition cbl_unit (data : value) : M ref :=
  p <- promise None ;;
  __notifySuccess__ p data ;;;
  ret p.

Definition isSuccess_ (promise_ : value) : M ref :=
  p <- promise None ;;
  a <- as_promise promise_ ;;
  registerSuccessListener a (CbSuccessConst p (VBool true)) ;;;
  registerFailureListener a (CbSuccessConst p (VBool false)) ;;;
  ret p.

Definition isFailure_ (promise_ : value) : M ref :=
  p <- promise None ;;
  a <- as_promise promise_ ;;
  registerSuccessListener a (CbSuccessConst p (VBool false)) ;;;
  registerFailureListener a (CbSuccessConst p (VBool true)) ;;;
  ret p.

Definition getError_ (promise_ : value) : M ref :=
  e <- promise None ;;
  a <- as_promise promise_ ;;
  registerSuccessListener a (CbFailureConst e VNull) ;;;
  registerFailureListener a (CbSuccess e) ;;;
  ret e.

(** [fmap(f)(t$)] *)
Definition fmap (f : fn) (t_ : value) : M ref :=
  r <- promise None ;;
  a <- as_promise t_ ;;
  registerSuccessListener a (CbFmap f r) ;;;
  registerFailureListener a (CbFailure r) ;;;
  ret r.

Definition join (t__ : value) : M ref :=
  t <- promise None ;;
  a <- as_promise t__ ;;
  registerSuccessListener a (CbJoin t) ;;;
  registerFailureListener a (CbFailure t) ;;;
  ret t.

(** [flatMap(f)(t$)] *)
Definition flatMap (f : fn) (t_ : value) : M ref :=
  r__ <- fmap f t_ ;;
  join (VPromise r__).

(** [liftA(f)(arguments...)] *)
Definition liftA (f : fn) (arguments : list value) : M ref :=
  let numArgs := length arguments in
  r <- promise None ;;
  env <- new_frame {| finishedCount := 0; ts := [] |} ;;
  for_each (fun arg =>
              fr <- get_frame env ;;
              set_frame env {| finishedCount := finishedCount fr;
                               ts := ts fr ++ [arg] |} ;;;
              a <- as_promise arg ;;
              registerFinishListener a (CbLiftA f numArgs env r) ;;;
              ret tt)
           arguments ;;;
  ret r.

Definition chain_ (p1 : value) (p2 : ref) : M unit :=
  a <- as_promise p1 ;;
  registerSuccessListener a (CbSuccess p2) ;;;
  registerFailureListener a (CbFailure p2) ;;;
  ret tt.

Definition continue_ (p1 : value) (f : fn) : M ref :=
  r2 <- promise None ;;
  a <- as_promise p1 ;;
  registerFinishListener a (CbContinue p1 f r2) ;;;
  ret r2.

(** The bodies of the closures. *)
Definition run_callback (cb : callback) (args : list value) : M value :=
  match cb with
  | CbUser id => log (EvListener id args) ;;; ret VUndefined
  | CbSuccessConst p v => __notifySuccess__ p v
  | CbFailureConst p v => __notifyFailure__ p v
  | CbSuccess p => __notifySuccess__ p (first_arg args)
  | CbFailure p => __notifyFailure__ p (first_arg args)
  | CbFmap f r => v <- call f [first_arg args] ;; __notifySuccess__ r v
  | CbJoin t =>
      a <- as_promise (first_arg args) ;;
      registerSuccessListener a (CbSuccess t) ;;;
      registerFailureListener a (CbFailure t) ;;;
      ret VUndefined
  | CbLiftA f numArgs env r =>
      fr <- get_frame env ;;
      set_frame env {| finishedCount := S (finishedCount fr); ts := ts fr |} ;;;
      if Nat.eqb (S (finishedCount fr)) numArgs then
        vs <- map_m (fun t => a <- as_promise t ;; getData a) (ts fr) ;;
        v <- call f vs ;;
        __notifySuccess__ r v
      else ret VUndefined
  | CbContinue p1 f r2 =>
      r1 <- call f [p1] ;;
      if not_null r1 then chain_ r1 r2 ;;; ret VUndefined
      else __notifySuccess__ r2 VNull
  end.

(** The bodies of the functions. *)
Definition run_fn (f : fn) (args : list value) : M value :=
  match f with
  | FUser id =>
      log (EvCall id args) ;;;
      match fenv id args with
      | AReturn v => ret v
      | AThrow e => throw e
      | AUnit v => p <- cbl_unit v ;; ret (VPromise p)
      | AFailed e => p <- promise None ;; __notifyFailure__ p e ;;; ret (VPromise p)
      | APending => p <- promise None ;; ret (VPromise p)
      end
  | F__errorToData__ => ret VNull
  | FUnit => p <- cbl_unit (first_arg args) ;; ret (VPromise p)
  | FFlatMapAfter g f' =>
      q <- call f' [first_arg args] ;;
      r <- flatMap g q ;;
      ret (VPromise r)
  end.

Definition step (t : task) : M value :=
  match t with
  | Invoke cb args => run_callback cb args
  | Call f args => run_fn f args
  end.

End Body.

(** [run n t]: the task [t] with at most [n] nested calls. *)
Fixpoint run (fuel : nat) (t : task) : M value :=
  match fuel with
  | O => fun _ => OutOfFuel
  | S n => step (run n) t
  end.

End Module.

(** ** Reasoning about computations *)

(** [wp m h Q E]: from [h], [m] ends in a heap that satisfies [Q] with the
    value it returns, or throws in a heap that satisfies [E]; nothing is
    said when the fuel runs out. *)
Definition wp {A} (m : M A) (h : heap) (Q : A -> heap -> Prop) (E : heap -> Prop) : Prop :=
  match m h with
  | Ret a h' => Q a h'
  | Throw _ h' => E h'
  | OutOfFuel => True
  end.

(** The heap an outcome ends in. *)
Definition final_heap {A} (o : outcome A) : option heap :=
  match o with
  | Ret _ h | Throw _ h => Some h
  | OutOfFuel => None
  end.

Definition returned {A} (o : outcome A) : option (A * heap) :=
  match o with
  | Ret a h => Some (a, h)
  | _ => None
  end.

Lemma wp_ret {A} (a : A) h Q E : Q a h -> wp (ret a) h Q E.
Proof. done. Qed.

Lemma wp_throw {A} e h (Q : A -> heap -> Prop) E : E h -> wp (throw e) h Q E.
Proof. done. Qed.

Lemma wp_bind {A B} (m : M A) (k : A -> M B) h Q E :
  wp m h (fun a h' => wp (k a) h' Q E) E -> wp (bind m k) h Q E.
Proof. unfold wp, bind. by destruct (m h). Qed.

Lemma wp_mono {A} (m : M A) h (Q Q' : A -> heap -> Prop) (E E' : heap -> Prop) :
  wp m h Q E -> (forall a h', Q a h' -> Q' a h') -> (forall h', E h' -> E' h') ->
  wp m h Q' E'.
Proof. unfold wp. destruct (m h); auto. Qed.

Lemma wp_get_cell r h Q E :
  (forall c, cells h !! r = Some c -> Q c h) -> E h -> wp (get_cell r) h Q E.
Proof. unfold wp, get_cell. destruct (cells h !! r); auto. Qed.

Lemma wp_get_frame e h Q E :
  (forall f, frames h !! e = Some f -> Q f h) -> E h -> wp (get_frame e) h Q E.
Proof. unfold wp, get_frame. destruct (frames h !! e); auto. Qed.

Lemma wp_as_promise v h Q E :
  (forall r, v = VPromise r -> Q r h) -> E h -> wp (as_promise v) h Q E.
Proof. destruct v; cbn; auto. Qed.

Lemma wp_final {A} (m : M A) h Q E h' :
  wp m h Q E -> final_heap (m h) = Some h' ->
  (exists a, m h = Ret a h' /\ Q a h') \/ (exists e, m h = Throw e h' /\ E h').
Proof.
  unfold wp. destruct (m h); cbn; intros H [= <-]; eauto.
Qed.

(** An invariant of the loops: [I] holds along the way. *)
Lemma wp_for_each {A} (f : A -> M unit) (l : list A) (I E : heap -> Prop) h :
  I h ->
  (forall x h', x ∈ l -> I h' -> wp (f x) h' (fun _ => I) E) ->
  wp (for_each f l) h (fun _ => I) E.
Proof.
  revert h. induction l as [|x l IH]; intros h Hh Hf; cbn; [done|].
  apply wp_bind. eapply wp_mono; [apply Hf; [left|done] | | done].
  cbn. intros ? h' Hh'. apply IH; [done|].
  intros y h'' Hy. apply Hf. by right.
Qed.

Lemma wp_map_m {A B} (f : A -> M B) (l : list A) (I E : heap -> Prop) h :
  I h ->
  (forall x h', x ∈ l -> I h' -> wp (f x) h' (fun _ => I) E) ->
  wp (map_m f l) h (fun _ => I) E.
Proof.
  revert h. induction l as [|x l IH]; intros h Hh Hf; cbn; [done|].
  apply wp_bind. eapply wp_mono; [apply Hf; [left|done] | | done].
  cbn. intros ? h' Hh'. apply wp_bind.
  eapply wp_mono; [apply IH; [done|] | | done].
  - intros y h'' Hy. apply Hf. by right.
  - cbn. intros. done.
Qed.

(** ** How a heap evolves *)

(** What may happen to a promise: nothing once it is finished; while it is
    PENDING its listeners are only appended to, and its data and error stay
    as they are until it is resolved. *)
Definition cell_evolves (c c' : cell) : Prop :=
  _options c' = _options c /\
  (_state c <> PENDING -> c' = c) /\
  (_state c' = PENDING ->
   _state c = PENDING /\ _data c' = _data c /\ _error c' = _error c) /\
  _successListeners c `prefix_of` _successListeners c' /\
  _failureListeners c `prefix_of` _failureListeners c' /\
  _finishListeners c `prefix_of` _finishListeners c'.

Definition heap_evolves (h h' : heap) : Prop :=
  (forall r c, cells h !! r = Some c ->
               exists c', cells h' !! r = Some c' /\ cell_evolves c c') /\
  length (frames h) <= length (frames h') /\
  trace h `prefix_of` trace h'.

Lemma cell_evolves_refl c : cell_evolves c c.
Proof. repeat split; done. Qed.

Lemma cell_evolves_trans c1 c2 c3 :
  cell_evolves c1 c2 -> cell_evolves c2 c3 -> cell_evolves c1 c3.
Proof.
  intros (Ho & Ht & Hp & H1 & H2 & H3) (Ho' & Ht' & Hp' & H1' & H2' & H3').
  repeat split.
  - congruence.
  - intros Hs. specialize (Ht Hs). subst c2. auto.
  - apply Hp' in H as (Hs & _). by apply Hp in Hs as (? & _).
  - apply Hp' in H as (Hs & Hd & _). apply Hp in Hs as (_ & ? & _). congruence.
  - apply Hp' in H as (Hs & _ & He). apply Hp in Hs as (_ & _ & ?). congruence.
  - by etrans.
  - by etrans.
  - by etrans.
Qed.

Lemma heap_evolves_refl h : heap_evolves h h.
Proof.
  split; [|done]. intros r c Hc. exists c. auto using cell_evolves_refl.
Qed.

Lemma heap_evolves_trans h1 h2 h3 :
  heap_evolves h1 h2 -> heap_evolves h2 h3 -> heap_evolves h1 h3.
Proof.
  intros (Hc & Hf & Ht) (Hc' & Hf' & Ht'). split; [|split; [lia | by etrans]].
  intros r c1 H1. destruct (Hc _ _ H1) as (c2 & H2 & E12).
  destruct (Hc' _ _ H2) as (c3 & H3 & E23).
  exists c3. eauto using cell_evolves_trans.
Qed.

Lemma evolves_set_cell h r c c' :
  cells h !! r = Some c -> cell_evolves c c' ->
  heap_evolves h {| cells := <[r := c']> (cells h); frames := frames h; trace := trace h |}.
Proof.
  intros Hr Hc. split; [|done]. cbn. intros r' c0 H0.
  destruct (decide (r' = r)) as [->|Hne].
  - exists c'. rewrite list_lookup_insert_eq by (by eapply lookup_lt_Some).
    split; [done|]. congruence.
  - exists c0. rewrite list_lookup_insert_ne by done. auto using cell_evolves_refl.
Qed.

Lemma evolves_new_cell h c :
  heap_evolves h {| cells := cells h ++ [c]; frames := frames h; trace := trace h |}.
Proof.
  split; [|done]. cbn. intros r c0 H0. exists c0.
  rewrite lookup_app_l by (by eapply lookup_lt_Some). auto using cell_evolves_refl.
Qed.

Lemma evolves_set_frame h e f :
  heap_evolves h {| cells := cells h; frames := <[e := f]> (frames h); trace := trace h |}.
Proof.
  split; [|split]; cbn; [|by rewrite length_insert|done].
  intros r c Hc. exists c. auto using cell_evolves_refl.
Qed.

Lemma evolves_new_frame h f :
  heap_evolves h {| cells := cells h; frames := frames h ++ [f]; trace := trace h |}.
Proof.
  split; [|split]; cbn; [|rewrite length_app; lia|done].
  intros r c Hc. exists c. auto using cell_evolves_refl.
Qed.

Lemma evolves_log h ev :
  heap_evolves h {| cells := cells h; frames := frames h; trace := trace h ++ [ev] |}.
Proof.
  split; [|split]; cbn; [|done|by apply prefix_app_r].
  intros r c Hc. exists c. auto using cell_evolves_refl.
Qed.

Lemma cell_evolves_set_state c s d e :
  _state c = PENDING -> s <> PENDING -> cell_evolves c (set_state c s d e).
Proof. intros Hc Hs. repeat split; cbn; try done; congruence. Qed.

Lemma cell_evolves_push_success c cb :
  _state c = PENDING -> cell_evolves c (push_success c cb).
Proof. intros Hc. repeat split; cbn; try done; try congruence. by apply prefix_app_r. Qed.

Lemma cell_evolves_push_failure c cb :
  _state c = PENDING -> cell_evolves c (push_failure c cb).
Proof. intros Hc. repeat split; cbn; try done; try congruence. by apply prefix_app_r. Qed.

Lemma cell_evolves_push_finish c cb :
  _state c = PENDING -> cell_evolves c (push_finish c cb).
Proof. intros Hc. repeat split; cbn; try done; try congruence. by apply prefix_app_r. Qed.

Lemma State_eqb_PENDING s : State_eqb s PENDING = true <-> s = PENDING.
Proof. by destruct s. Qed.

(** [evolving P m]: from a heap that satisfies [P], [m] only lets the heap
    evolve, also when it throws. *)
Definition evolving {A} (P : heap -> Prop) (m : M A) : Prop :=
  forall h0 h, P h -> heap_evolves h0 h ->
               wp m h (fun _ => heap_evolves h0) (heap_evolves h0).

Definition any_heap : heap -> Prop := fun _ => True.

Lemma evolving_weaken {A} (P P' : heap -> Prop) (m : M A) :
  evolving P' m -> (forall h, P h -> P' h) -> evolving P m.
Proof. intros Hm HP h0 h Hh. apply Hm. auto. Qed.

Lemma evolving_ret {A} P (a : A) : evolving P (ret a).
Proof. by intros h0 h _ Hh. Qed.

Lemma evolving_throw {A} P e : evolving P (throw (A := A) e).
Proof. by intros h0 h _ Hh. Qed.

Lemma evolving_bind {A B} P (m : M A) (k : A -> M B) :
  evolving P m -> (forall a, evolving any_heap (k a)) -> evolving P (bind m k).
Proof.
  intros Hm Hk h0 h HP Hh. apply wp_bind.
  eapply wp_mono; [by apply Hm | | done].
  cbn. intros a h' Hh'. by apply Hk.
Qed.

Lemma evolving_get_cell {B} P r (k : cell -> M B) :
  (forall c, evolving (fun h => cells h !! r = Some c) (k c)) ->
  evolving P (bind (get_cell r) k).
Proof.
  intros Hk h0 h _ Hh. apply wp_bind, wp_get_cell; [|done].
  intros c Hc. by apply Hk.
Qed.

Lemma evolving_get_frame {B} P e (k : frame -> M B) :
  (forall f, evolving any_heap (k f)) -> evolving P (bind (get_frame e) k).
Proof.
  intros Hk h0 h _ Hh. apply wp_bind, wp_get_frame; [|done].
  intros f Hf. by apply Hk.
Qed.

Lemma evolving_as_promise P v : evolving P (as_promise v).
Proof. intros h0 h _ Hh. by destruct v. Qed.

Lemma evolving_set_cell r c c' :
  cell_evolves c c' -> evolving (fun h => cells h !! r = Some c) (set_cell r c').
Proof.
  intros Hc h0 h Hr Hh. unfold wp, set_cell.
  eapply heap_evolves_trans; [done|]. by eapply evolves_set_cell.
Qed.

Lemma evolving_new_cell P c : evolving P (new_cell c).
Proof.
  intros h0 h _ Hh. unfold wp, new_cell.
  eapply heap_evolves_trans; [done|]. apply evolves_new_cell.
Qed.

Lemma evolving_set_frame P e f : evolving P (set_frame e f).
Proof.
  intros h0 h _ Hh. unfold wp, set_frame.
  eapply heap_evolves_trans; [done|]. apply evolves_set_frame.
Qed.

Lemma evolving_new_frame P f : evolving P (new_frame f).
Proof.
  intros h0 h _ Hh. unfold wp, new_frame.
  eapply heap_evolves_trans; [done|]. apply evolves_new_frame.
Qed.

Lemma evolving_log P ev : evolving P (log ev).
Proof.
  intros h0 h _ Hh. unfold wp, log.
  eapply heap_evolves_trans; [done|]. apply evolves_log.
Qed.

Lemma evolving_for_each {A} P (f : A -> M unit) l :
  (forall x, evolving any_heap (f x)) -> evolving P (for_each f l).
Proof.
  intros Hf h0 h _ Hh. apply wp_for_each; [done|].
  intros x h' _ Hh'. by apply Hf.
Qed.

Lemma evolving_map_m {A B} P (f : A -> M B) l :
  (forall x, evolving any_heap (f x)) -> evolving P (map_m f l).
Proof.
  intros Hf h0 h _ Hh. apply wp_map_m; [done|].
  intros x h' _ Hh'. by apply Hf.
Qed.

Create HintDb evolving.
#[global] Hint Resolve evolving_ret evolving_throw evolving_as_promise
  evolving_new_cell evolving_set_frame evolving_new_frame evolving_log : evolving.

(** One step of a proof that a computation is [evolving]. *)
Ltac evolving_step :=
  lazymatch goal with
  | |- evolving _ (bind (get_cell _) _) => apply evolving_get_cell; intros ?
  | |- evolving _ (bind (get_frame _) _) => apply evolving_get_frame; intros ?
  | |- evolving _ (bind _ _) => apply evolving_bind; [|intros ?]
  | |- evolving _ (for_each _ _) => apply evolving_for_each; intros ?
  | |- evolving _ (map_m _ _) => apply evolving_map_m; intros ?
  | |- evolving _ (if ?b then _ else _) => destruct b eqn:?
  | |- evolving _ (match ?x with _ => _ end) => destruct x eqn:?
  | |- evolving _ (set_cell _ _) =>
      repeat match goal with
             | H : State_eqb _ PENDING = true |- _ => apply State_eqb_PENDING in H
             end;
      apply evolving_set_cell;
      first [ apply cell_evolves_set_state; [assumption|discriminate]
            | apply cell_evolves_push_success; assumption
            | apply cell_evolves_push_failure; assumption
            | apply cell_evolves_push_finish; assumption ]
  | |- _ => solve [auto with evolving]
  end.

Section Evolving.

Variable fenv : nat -> list value -> action.
Variable rec : task -> M value.
Hypothesis Hrec : forall t, evolving any_heap (rec t).

Lemma evolving_invoke P cb args : evolving P (invoke rec cb args).
Proof.
  unfold invoke. evolving_step; [|evolving_step].
  eapply evolving_weaken; [apply Hrec|done].
Qed.

Lemma evolving_call P f args : evolving P (call rec f args).
Proof. eapply evolving_weaken; [apply Hrec|done]. Qed.

Hint Resolve evolving_invoke evolving_call : evolving.

Lemma evolving_promise P o : evolving P (promise o).
Proof. unfold promise. evolving_step. Qed.

Lemma evolving__notifySuccess__ P r d : evolving P (__notifySuccess__ rec r d).
Proof.
  unfold __notifySuccess__. repeat evolving_step.
Qed.

Lemma evolving__notifyFailure__ P r e : evolving P (__notifyFailure__ rec r e).
Proof.
  unfold __notifyFailure__. repeat evolving_step.
Qed.

Lemma evolving_registerSuccessListener P r cb :
  evolving P (registerSuccessListener rec r cb).
Proof. unfold registerSuccessListener. repeat evolving_step. Qed.

Lemma evolving_registerFailureListener P r cb :
  evolving P (registerFailureListener rec r cb).
Proof. unfold registerFailureListener. repeat evolving_step. Qed.

Lemma evolving_registerFinishListener P r cb :
  evolving P (registerFinishListener rec r cb).
Proof. unfold registerFinishListener. repeat evolving_step. Qed.

Lemma evolving_getState P r : evolving P (getState r).
Proof. unfold getState. repeat evolving_step. Qed.

Lemma evolving_getData P r : evolving P (getData rec r).
Proof. unfold getData. repeat evolving_step. Qed.

Hint Resolve evolving_promise evolving__notifySuccess__ evolving__notifyFailure__
  evolving_registerSuccessListener evolving_registerFailureListener
  evolving_registerFinishListener evolving_getState evolving_getData : evolving.

Lemma evolving_unit P d : evolving P (cbl_unit rec d).
Proof. unfold cbl_unit. repeat evolving_step. Qed.

Lemma evolving_isSuccess_ P p : evolving P (isSuccess_ rec p).
Proof. unfold isSuccess_. repeat evolving_step. Qed.

Lemma evolving_isFailure_ P p : evolving P (isFailure_ rec p).
Proof. unfold isFailure_. repeat evolving_step. Qed.

Lemma evolving_getError_ P p : evolving P (getError_ rec p).
Proof. unfold getError_. repeat evolving_step. Qed.

Lemma evolving_fmap P f t : evolving P (fmap rec f t).
Proof. unfold fmap. repeat evolving_step. Qed.

Lemma evolving_join P t : evolving P (join rec t).
Proof. unfold join. repeat evolving_step. Qed.

Hint Resolve evolving_unit evolving_fmap evolving_join : evolving.

Lemma evolving_flatMap P f t : evolving P (flatMap rec f t).
Proof. unfold flatMap. repeat evolving_step. Qed.

Lemma evolving_liftA P f args : evolving P (liftA rec f args).
Proof. unfold liftA. repeat evolving_step. Qed.

Lemma evolving_chain_ P p1 p2 : evolving P (chain_ rec p1 p2).
Proof. unfold chain_. repeat evolving_step. Qed.

Lemma evolving_continue_ P p1 f : evolving P (continue_ rec p1 f).
Proof. unfold continue_. repeat evolving_step. Qed.

Hint Resolve evolving_flatMap evolving_liftA evolving_chain_ evolving_continue_
  : evolving.

Lemma evolving_step_task P t : evolving P (step fenv rec t).
Proof.
  destruct t as [cb args|f args]; cbn.
  - destruct cb; cbn; repeat evolving_step.
  - destruct f; cbn; repeat evolving_step.
Qed.

End Evolving.

Lemma evolving_run fenv n t : evolving any_heap (run fenv n t).
Proof.
  revert t. induction n as [|n IH]; intros t.
  - by intros h0 h _ _.
  - cbn. by apply evolving_step_task.
Qed.

(** ** Programs over the module *)

(** What a caller can do with the module and with the promises it holds. *)
Inductive op :=
| OpPromise (o : option Options)
| OpNotifySuccess (r : ref) (d : value)
| OpNotifyFailure (r : ref) (e : value)
| OpSucceed (r : ref) (cb : callback)
| OpFail (r : ref) (cb : callback)
| OpFinish (r : ref) (cb : callback)
| OpState (r : ref)
| OpData (r : ref)
| OpUnit (d : value)
| OpIsSuccess (p : value)
| OpIsFailure (p : value)
| OpGetError (p : value)
| OpFmap (f : fn) (t : value)
| OpJoin (t : value)
| OpFlatMap (f : fn) (t : value)
| OpLiftA (f : fn) (args : list value)
| OpContinue (p : value) (f : fn).

Definition as_value (m : M ref) : M value := r <- m ;; ret (VPromise r).

Definition do_op (fenv : nat -> list value -> action) (fuel : nat) (o : op) : M value :=
  let rec := run fenv fuel in
  match o with
  | OpPromise o => as_value (promise o)
  | OpNotifySuccess r d => __notifySuccess__ rec r d
  | OpNotifyFailure r e => __notifyFailure__ rec r e
  | OpSucceed r cb => registerSuccessListener rec r cb
  | OpFail r cb => registerFailureListener rec r cb
  | OpFinish r cb => registerFinishListener rec r cb
  | OpState r => s <- getState r ;; ret (VStr (state_name s))
  | OpData r => getData rec r
  | OpUnit d => as_value (cbl_unit rec d)
  | OpIsSuccess p => as_value (isSuccess_ rec p)
  | OpIsFailure p => as_value (isFailure_ rec p)
  | OpGetError p => as_value (getError_ rec p)
  | OpFmap f t => as_value (fmap rec f t)
  | OpJoin t => as_value (join rec t)
  | OpFlatMap f t => as_value (flatMap rec f t)
  | OpLiftA f args => as_value (liftA rec f args)
  | OpContinue p f => as_value (continue_ rec p f)
  end.

(** A program: one operation after the other; an exception is caught by
    the caller and the program goes on in the heap the exception left. *)
Fixpoint do_ops (fenv : nat -> list value -> action) (fuel : nat)
         (os : list op) (h : heap) : option heap :=
  match os with
  | [] => Some h
  | o :: os' =>
      match final_heap (do_op fenv fuel o h) with
      | Some h' => do_ops fenv fuel os' h'
      | None => None
      end
  end.

Definition update_cell (h : heap) (r : ref) (c : cell) : heap :=
  {| cells := <[r := c]> (cells h); frames := frames h; trace := trace h |}.

Lemma evolving_do_op fenv fuel o : evolving any_heap (do_op fenv fuel o).
Proof.
  pose proof (evolving_run fenv fuel) as Hrec.
  destruct o; cbn; unfold as_value; repeat evolving_step;
    auto using evolving_promise, evolving__notifySuccess__, evolving__notifyFailure__,
      evolving_registerSuccessListener, evolving_registerFailureListener,
      evolving_registerFinishListener, evolving_getState, evolving_getData,
      evolving_unit, evolving_isSuccess_, evolving_isFailure_, evolving_getError_,
      evolving_fmap, evolving_join, evolving_flatMap, evolving_liftA,
      evolving_continue_.
Qed.

Lemma evolving_final {A} (m : M A) h h' :
  evolving any_heap m -> final_heap (m h) = Some h' -> heap_evolves h h'.
Proof.
  intros Hm Hf. specialize (Hm h h I (heap_evolves_refl h)).
  destruct (wp_final _ _ _ _ _ Hm Hf) as [(? & _ & ?)|(? & _ & ?)]; done.
Qed.

Lemma do_ops_evolves fenv fuel os h h' :
  do_ops fenv fuel os h = Some h' -> heap_evolves h h'.
Proof.
  revert h. induction os as [|o os IH]; intros h; cbn.
  - intros [= <-]. apply heap_evolves_refl.
  - destruct (final_heap (do_op fenv fuel o h)) as [h1|] eqn:E; [|done].
    intros H. eapply heap_evolves_trans; [|by apply IH].
    eapply evolving_final; [apply evolving_do_op|done].
Qed.

Lemma evolves_frozen h h' r c :
  heap_evolves h h' -> cells h !! r = Some c -> _state c <> PENDING ->
  cells h' !! r = Some c.
Proof.
  intros (Hc & _) Hr Hs. destruct (Hc _ _ Hr) as (c' & Hr' & _ & Hfr & _).
  by rewrite (Hfr Hs) in Hr'.
Qed.

(** The resolve entry points, unfolded on a PENDING promise and on a
    finished one. *)
Lemma __notifySuccess__pending rec r d h c :
  cells h !! r = Some c -> _state c = PENDING ->
  __notifySuccess__ rec r d h =
  (for_each (fun cb => invoke rec cb [d]) (_successListeners c) ;;;
   for_each (fun cb => invoke rec cb [VStr (state_name SUCCEEDED); d; _error c])
            (_finishListeners c) ;;;
   ret VUndefined) (update_cell h r (set_state c SUCCEEDED d (_error c))).
Proof.
  intros Hr Hs. unfold __notifySuccess__ at 1, bind at 1, get_cell.
  rewrite Hr, Hs. reflexivity.
Qed.

Lemma __notifyFailure__pending rec r e h c :
  cells h !! r = Some c -> _state c = PENDING ->
  __notifyFailure__ rec r e h =
  (for_each (fun cb => invoke rec cb [e]) (_failureListeners c) ;;;
   for_each (fun cb => invoke rec cb [VStr (state_name FAILED); _data c; e])
            (_finishListeners c) ;;;
   ret VUndefined) (update_cell h r (set_state c FAILED (_data c) e)).
Proof.
  intros Hr Hs. unfold __notifyFailure__ at 1, bind at 1, get_cell.
  rewrite Hr, Hs. reflexivity.
Qed.

Lemma __notifySuccess__finished rec r d h c :
  cells h !! r = Some c -> _state c <> PENDING ->
  __notifySuccess__ rec r d h = Throw not_pending_msg h.
Proof.
  intros Hr Hs. unfold __notifySuccess__, bind, get_cell. rewrite Hr.
  by destruct (_state c).
Qed.

Lemma __notifyFailure__finished rec r e h c :
  cells h !! r = Some c -> _state c <> PENDING ->
  __notifyFailure__ rec r e h = Throw not_pending_msg h.
Proof.
  intros Hr Hs. unfold __notifyFailure__, bind, get_cell. rewrite Hr.
  by destruct (_state c).
Qed.

Lemma lookup_update_cell h r c c0 :
  cells h !! r = Some c0 -> cells (update_cell h r c) !! r = Some c.
Proof. intros H. cbn. apply list_lookup_insert_eq. by eapply lookup_lt_Some. Qed.

(** ** The claims *)

(** C1.  A promise is resolved at most once.  On a promise that is not
    PENDING both entry points throw and leave the heap as it is.  On a
    PENDING promise [__notifySuccess__] leaves it SUCCEEDED with the data
    and [__notifyFailure__] leaves it FAILED with the error, whether the
    listeners return or throw.  A finished promise stays as it is under
    every program over the module, so both entry points throw on it ever
    after. *)
Theorem C1_single_transition fenv fuel r c h :
  cells h !! r = Some c ->
  (_state c <> PENDING ->
   forall rec v,
     __notifySuccess__ rec r v h = Throw not_pending_msg h /\
     __notifyFailure__ rec r v h = Throw not_pending_msg h) /\
  (_state c = PENDING ->
   forall v h',
     (final_heap (__notifySuccess__ (run fenv fuel) r v h) = Some h' ->
      exists c', cells h' !! r = Some c' /\ _state c' = SUCCEEDED /\ _data c' = v) /\
     (final_heap (__notifyFailure__ (run fenv fuel) r v h) = Some h' ->
      exists c', cells h' !! r = Some c' /\ _state c' = FAILED /\ _error c' = v)) /\
  (_state c <> PENDING ->
   forall os h',
     do_ops fenv fuel os h = Some h' ->
     cells h' !! r = Some c /\
     forall rec v,
       __notifySuccess__ rec r v h' = Throw not_pending_msg h' /\
       __notifyFailure__ rec r v h' = Throw not_pending_msg h').
Proof.
  intros Hr. split; [|split].
  - intros Hs rec v.
    eauto using __notifySuccess__finished, __notifyFailure__finished.
  - intros Hs v h'. pose proof (evolving_run fenv fuel) as Hrec. split.
    + rewrite (__notifySuccess__pending _ _ _ _ _ Hr Hs). intros Hf.
      exists (set_state c SUCCEEDED v (_error c)). split; [|done].
      eapply evolves_frozen; [|by eapply lookup_update_cell|done].
      eapply evolving_final; [|exact Hf].
      repeat evolving_step; auto using evolving_invoke.
    + rewrite (__notifyFailure__pending _ _ _ _ _ Hr Hs). intros Hf.
      exists (set_state c FAILED (_data c) v). split; [|done].
      eapply evolves_frozen; [|by eapply lookup_update_cell|done].
      eapply evolving_final; [|exact Hf].
      repeat evolving_step; auto using evolving_invoke.
  - intros Hs os h' Hos.
    assert (cells h' !! r = Some c) as Hr'
        by eauto using evolves_frozen, do_ops_evolves.
    split; [done|]. intros rec v.
    eauto using __notifySuccess__finished, __notifyFailure__finished.
Qed.

(** The promise that [promise(options)] creates, and the heap with it. *)
Definition fresh_cell (options : option Options) : cell :=
  {| _state := PENDING; _data := VUndefined; _error := VUndefined;
     _successListeners := []; _failureListeners := []; _finishListeners := [];
     _options := default default_options options |}.

Definition alloc (h : heap) (c : cell) : heap :=
  {| cells := cells h ++ [c]; frames := frames h; trace := trace h |}.

Lemma promise_eq o h : promise o h = Ret (length (cells h)) (alloc h (fresh_cell o)).
Proof. reflexivity. Qed.

Lemma lookup_alloc_new h c : cells (alloc h c) !! length (cells h) = Some c.
Proof. cbn. by rewrite lookup_app_r, Nat.sub_diag. Qed.

Lemma lookup_alloc_old h c r c0 :
  cells h !! r = Some c0 -> cells (alloc h c) !! r = Some c0.
Proof. intros H. cbn. rewrite lookup_app_l; [done|]. by eapply lookup_lt_Some. Qed.

Lemma update_alloc_new h c c' :
  update_cell (alloc h c) (length (cells h)) c' = alloc h c'.
Proof.
  unfold update_cell, alloc. cbn. f_equal.
  rewrite insert_app_r_alt, Nat.sub_diag by done. reflexivity.
Qed.

(** C7.  [data()] throws on a PENDING promise, returns the stored data of
    a SUCCEEDED one, and on a FAILED one returns what the [__errorToData__]
    of its options returns for the stored error.  A promise created without
    options has the function that returns null, so that a promise failed
    with "boom" has data null. *)
Theorem C7_getData fenv fuel r c h :
  cells h !! r = Some c ->
  (_state c = PENDING -> forall rec, getData rec r h = Throw pending_msg h) /\
  (_state c = SUCCEEDED -> forall rec, getData rec r h = Ret (_data c) h) /\
  (_state c = FAILED ->
   forall f, opt__errorToData__ (_options c) = Some f ->
             getData (run fenv fuel) r h = run fenv fuel (Call f [_error c]) h) /\
  (_state c = FAILED -> _options c = default_options ->
   getData (run fenv (S fuel)) r h = Ret VNull h) /\
  (_options (fresh_cell None) = default_options /\
   forall args h0, run fenv (S fuel) (Call F__errorToData__ args) h0 = Ret VNull h0) /\
  (let rec := run fenv (S fuel) in
   (p <- promise None ;; __notifyFailure__ rec p (VStr "boom") ;;; getData rec p) h
   = Ret VNull (alloc h (set_state (fresh_cell None) FAILED VUndefined (VStr "boom")))).
Proof.
  intros Hr. repeat split.
  - intros Hs rec. unfold getData, bind, get_cell. by rewrite Hr, Hs.
  - intros Hs rec. unfold getData, bind, get_cell. by rewrite Hr, Hs.
  - intros Hs f Hf. unfold getData, bind, get_cell. by rewrite Hr, Hs, Hf.
  - intros Hs Ho. unfold getData, bind, get_cell. by rewrite Hr, Hs, Ho.
  - intros rec. unfold bind at 1. rewrite promise_eq.
    unfold bind at 1.
    rewrite (__notifyFailure__pending _ _ _ _ (fresh_cell None)
               (lookup_alloc_new _ _) eq_refl).
    rewrite update_alloc_new. cbn -[alloc].
    unfold getData, bind, get_cell. by rewrite lookup_alloc_new.
Qed.

(** Registration on a PENDING promise appends the listener; on a finished
    promise it calls the listener or does nothing. *)
Lemma registerSuccessListener_pending rec r cb h c :
  cells h !! r = Some c -> _state c = PENDING ->
  registerSuccessListener rec r cb h = Ret (VPromise r) (update_cell h r (push_success c cb)).
Proof. intros Hr Hs. unfold registerSuccessListener, bind, get_cell. by rewrite Hr, Hs. Qed.

Lemma registerFailureListener_pending rec r cb h c :
  cells h !! r = Some c -> _state c = PENDING ->
  registerFailureListener rec r cb h = Ret (VPromise r) (update_cell h r (push_failure c cb)).
Proof. intros Hr Hs. unfold registerFailureListener, bind, get_cell. by rewrite Hr, Hs. Qed.

Lemma registerFinishListener_pending rec r cb h c :
  cells h !! r = Some c -> _state c = PENDING ->
  registerFinishListener rec r cb h = Ret (VPromise r) (update_cell h r (push_finish c cb)).
Proof. intros Hr Hs. unfold registerFinishListener, bind, get_cell. by rewrite Hr, Hs. Qed.

Lemma registerSuccessListener_succeeded rec r cb h c :
  cells h !! r = Some c -> _state c = SUCCEEDED ->
  registerSuccessListener rec r cb h = (invoke rec cb [_data c] ;;; ret (VPromise r)) h.
Proof. intros Hr Hs. unfold registerSuccessListener, bind at 1, get_cell. by rewrite Hr, Hs. Qed.

Lemma registerSuccessListener_failed rec r cb h c :
  cells h !! r = Some c -> _state c = FAILED ->
  registerSuccessListener rec r cb h = Ret (VPromise r) h.
Proof. intros Hr Hs. unfold registerSuccessListener, bind, get_cell. by rewrite Hr, Hs. Qed.

Lemma registerFailureListener_failed rec r cb h c :
  cells h !! r = Some c -> _state c = FAILED ->
  registerFailureListener rec r cb h = (invoke rec cb [_error c] ;;; ret (VPromise r)) h.
Proof. intros Hr Hs. unfold registerFailureListener, bind at 1, get_cell. by rewrite Hr, Hs. Qed.

Lemma registerFailureListener_succeeded rec r cb h c :
  cells h !! r = Some c -> _state c = SUCCEEDED ->
  registerFailureListener rec r cb h = Ret (VPromise r) h.
Proof. intros Hr Hs. unfold registerFailureListener, bind, get_cell. by rewrite Hr, Hs. Qed.

Lemma registerFinishListener_finished rec r cb h c :
  cells h !! r = Some c -> _state c <> PENDING ->
  registerFinishListener rec r cb h =
  (invoke rec cb [VStr (state_name (_state c)); _data c; _error c] ;;; ret (VPromise r)) h.
Proof.
  intros Hr Hs. unfold registerFinishListener, bind at 1, get_cell. rewrite Hr.
  by destruct (_state c).
Qed.

Lemma update_cell_twice h r c c' :
  update_cell (update_cell h r c) r c' = update_cell h r c'.
Proof. unfold update_cell. cbn. f_equal. apply list_insert_insert_eq. Qed.

(** The listener is the last one of its queue when the promise is resolved:
    it is called with the data, the error, or the final triple. *)
Lemma early_succeed rec r cb d h c :
  cells h !! r = Some c -> _state c = PENDING ->
  (registerSuccessListener rec r cb ;;; __notifySuccess__ rec r d) h =
  (for_each (fun cb' => invoke rec cb' [d]) (_successListeners c ++ [cb]) ;;;
   for_each (fun cb' => invoke rec cb' [VStr (state_name SUCCEEDED); d; _error c])
            (_finishListeners c) ;;;
   ret VUndefined) (update_cell h r (set_state (push_success c cb) SUCCEEDED d (_error c))).
Proof.
  intros Hr Hs. unfold bind at 1.
  rewrite (registerSuccessListener_pending _ _ _ _ _ Hr Hs).
  rewrite (__notifySuccess__pending _ _ _ _ (push_success c cb)
             (lookup_update_cell _ _ _ _ Hr) Hs).
  by rewrite update_cell_twice.
Qed.

Lemma early_fail rec r cb e h c :
  cells h !! r = Some c -> _state c = PENDING ->
  (registerFailureListener rec r cb ;;; __notifyFailure__ rec r e) h =
  (for_each (fun cb' => invoke rec cb' [e]) (_failureListeners c ++ [cb]) ;;;
   for_each (fun cb' => invoke rec cb' [VStr (state_name FAILED); _data c; e])
            (_finishListeners c) ;;;
   ret VUndefined) (update_cell h r (set_state (push_failure c cb) FAILED (_data c) e)).
Proof.
  intros Hr Hs. unfold bind at 1.
  rewrite (registerFailureListener_pending _ _ _ _ _ Hr Hs).
  rewrite (__notifyFailure__pending _ _ _ _ (push_failure c cb)
             (lookup_update_cell _ _ _ _ Hr) Hs).
  by rewrite update_cell_twice.
Qed.

Lemma early_finish_success rec r cb d h c :
  cells h !! r = Some c -> _state c = PENDING ->
  (registerFinishListener rec r cb ;;; __notifySuccess__ rec r d) h =
  (for_each (fun cb' => invoke rec cb' [d]) (_successListeners c) ;;;
   for_each (fun cb' => invoke rec cb' [VStr (state_name SUCCEEDED); d; _error c])
            (_finishListeners c ++ [cb]) ;;;
   ret VUndefined) (update_cell h r (set_state (push_finish c cb) SUCCEEDED d (_error c))).
Proof.
  intros Hr Hs. unfold bind at 1.
  rewrite (registerFinishListener_pending _ _ _ _ _ Hr Hs).
  rewrite (__notifySuccess__pending _ _ _ _ (push_finish c cb)
             (lookup_update_cell _ _ _ _ Hr) Hs).
  by rewrite update_cell_twice.
Qed.

Lemma early_finish_failure rec r cb e h c :
  cells h !! r = Some c -> _state c = PENDING ->
  (registerFinishListener rec r cb ;;; __notifyFailure__ rec r e) h =
  (for_each (fun cb' => invoke rec cb' [e]) (_failureListeners c) ;;;
   for_each (fun cb' => invoke rec cb' [VStr (state_name FAILED); _data c; e])
            (_finishListeners c ++ [cb]) ;;;
   ret VUndefined) (update_cell h r (set_state (push_finish c cb) FAILED (_data c) e)).
Proof.
  intros Hr Hs. unfold bind at 1.
  rewrite (registerFinishListener_pending _ _ _ _ _ Hr Hs).
  rewrite (__notifyFailure__pending _ _ _ _ (push_finish c cb)
             (lookup_update_cell _ _ _ _ Hr) Hs).
  by rewrite update_cell_twice.
Qed.

(** Once resolved, a promise is exactly what the entry point made of it, in
    the heap the entry point ends in and after every program. *)
Lemma resolved_success fenv fuel r d h c h1 os h2 :
  cells h !! r = Some c -> _state c = PENDING ->
  final_heap (__notifySuccess__ (run fenv fuel) r d h) = Some h1 ->
  do_ops fenv fuel os h1 = Some h2 ->
  cells h2 !! r = Some (set_state c SUCCEEDED d (_error c)).
Proof.
  intros Hr Hs Hf Hos. pose proof (evolving_run fenv fuel) as Hrec.
  rewrite (__notifySuccess__pending _ _ _ _ _ Hr Hs) in Hf.
  eapply evolves_frozen; [by eapply do_ops_evolves| |done].
  eapply evolves_frozen; [|by eapply lookup_update_cell|done].
  eapply evolving_final; [|exact Hf].
  repeat evolving_step; auto using evolving_invoke.
Qed.

Lemma resolved_failure fenv fuel r e h c h1 os h2 :
  cells h !! r = Some c -> _state c = PENDING ->
  final_heap (__notifyFailure__ (run fenv fuel) r e h) = Some h1 ->
  do_ops fenv fuel os h1 = Some h2 ->
  cells h2 !! r = Some (set_state c FAILED (_data c) e).
Proof.
  intros Hr Hs Hf Hos. pose proof (evolving_run fenv fuel) as Hrec.
  rewrite (__notifyFailure__pending _ _ _ _ _ Hr Hs) in Hf.
  eapply evolves_frozen; [by eapply do_ops_evolves| |done].
  eapply evolves_frozen; [|by eapply lookup_update_cell|done].
  eapply evolving_final; [|exact Hf].
  repeat evolving_step; auto using evolving_invoke.
Qed.

(** C3.  A listener registered on a promise after it was resolved, at any
    later time, is called at once with the values that the listeners
    registered before the resolution were called with: the data for
    [succeed] on a SUCCEEDED promise, the error for [fail] on a FAILED one,
    the final triple for [finish].  [succeed] on a FAILED promise and
    [fail] on a SUCCEEDED one return without calling or storing the
    listener. *)
Theorem C3_late_subscription fenv fuel r c h cb :
  cells h !! r = Some c -> _state c = PENDING ->
  (* registered before the resolution *)
  (forall rec v,
     let on_success :=
       fun ls fs c' =>
         (for_each (fun cb' => invoke rec cb' [v]) ls ;;;
          for_each (fun cb' => invoke rec cb' [VStr "SUCCEEDED"; v; _error c]) fs ;;;
          ret VUndefined) (update_cell h r (set_state c' SUCCEEDED v (_error c))) in
     let on_failure :=
       fun ls fs c' =>
         (for_each (fun cb' => invoke rec cb' [v]) ls ;;;
          for_each (fun cb' => invoke rec cb' [VStr "FAILED"; _data c; v]) fs ;;;
          ret VUndefined) (update_cell h r (set_state c' FAILED (_data c) v)) in
     (registerSuccessListener rec r cb ;;; __notifySuccess__ rec r v) h =
       on_success (_successListeners c ++ [cb]) (_finishListeners c) (push_success c cb) /\
     (registerFinishListener rec r cb ;;; __notifySuccess__ rec r v) h =
       on_success (_successListeners c) (_finishListeners c ++ [cb]) (push_finish c cb) /\
     (registerFailureListener rec r cb ;;; __notifyFailure__ rec r v) h =
       on_failure (_failureListeners c ++ [cb]) (_finishListeners c) (push_failure c cb) /\
     (registerFinishListener rec r cb ;;; __notifyFailure__ rec r v) h =
       on_failure (_failureListeners c) (_finishListeners c ++ [cb]) (push_finish c cb)) /\
  (* registered after the resolution *)
  (forall v h1 os h2 rec,
     final_heap (__notifySuccess__ (run fenv fuel) r v h) = Some h1 ->
     do_ops fenv fuel os h1 = Some h2 ->
     registerSuccessListener rec r cb h2 = (invoke rec cb [v] ;;; ret (VPromise r)) h2 /\
     registerFinishListener rec r cb h2 =
       (invoke rec cb [VStr "SUCCEEDED"; v; _error c] ;;; ret (VPromise r)) h2 /\
     registerFailureListener rec r cb h2 = Ret (VPromise r) h2) /\
  (forall v h1 os h2 rec,
     final_heap (__notifyFailure__ (run fenv fuel) r v h) = Some h1 ->
     do_ops fenv fuel os h1 = Some h2 ->
     registerFailureListener rec r cb h2 = (invoke rec cb [v] ;;; ret (VPromise r)) h2 /\
     registerFinishListener rec r cb h2 =
       (invoke rec cb [VStr "FAILED"; _data c; v] ;;; ret (VPromise r)) h2 /\
     registerSuccessListener rec r cb h2 = Ret (VPromise r) h2).
Proof.
  intros Hr Hs. split; [|split].
  - intros rec v. cbv zeta.
    rewrite (early_succeed _ _ _ _ _ _ Hr Hs), (early_fail _ _ _ _ _ _ Hr Hs),
      (early_finish_success _ _ _ _ _ _ Hr Hs),
      (early_finish_failure _ _ _ _ _ _ Hr Hs).
    done.
  - intros v h1 os h2 rec Hf Hos.
    pose proof (resolved_success _ _ _ _ _ _ _ _ _ Hr Hs Hf Hos) as Hr2.
    rewrite (registerSuccessListener_succeeded _ _ _ _ _ Hr2 eq_refl).
    rewrite (registerFinishListener_finished _ _ _ _ _ Hr2) by done.
    by rewrite (registerFailureListener_succeeded _ _ _ _ _ Hr2 eq_refl).
  - intros v h1 os h2 rec Hf Hos.
    pose proof (resolved_failure _ _ _ _ _ _ _ _ _ Hr Hs Hf Hos) as Hr2.
    rewrite (registerFailureListener_failed _ _ _ _ _ Hr2 eq_refl).
    rewrite (registerFinishListener_finished _ _ _ _ _ Hr2) by done.
    by rewrite (registerSuccessListener_failed _ _ _ _ _ Hr2 eq_refl).
Qed.

(** The heap with more events in its trace. *)
Definition logged (h : heap) (evs : list event) : heap :=
  {| cells := cells h; frames := frames h; trace := trace h ++ evs |}.

Lemma logged_nil h : logged h [] = h.
Proof. destruct h. unfold logged. cbn. by rewrite app_nil_r. Qed.

Lemma logged_app h evs evs' : logged (logged h evs) evs' = logged h (evs ++ evs').
Proof. unfold logged. cbn. by rewrite app_assoc. Qed.

Lemma invoke_user fenv n id args h :
  invoke (run fenv (S n)) (CbUser id) args h = Ret tt (logged h [EvListener id args]).
Proof. reflexivity. Qed.

(** Listeners of the caller run one after the other, in the order of the
    queue. *)
Lemma for_each_user fenv n args ids h :
  for_each (fun cb => invoke (run fenv (S n)) cb args) (map CbUser ids) h =
  Ret tt (logged h (map (fun id => EvListener id args) ids)).
Proof.
  revert h. induction ids as [|id ids IH]; intros h.
  - cbn. unfold ret. by rewrite logged_nil.
  - cbn [map for_each]. unfold bind. rewrite invoke_user, IH.
    by rewrite logged_app.
Qed.

(** C9.  Registration appends to the queue of its channel.  Resolution
    calls the listeners of the matching channel in the order of the queue,
    then the finish listeners in the order of their queue; the listeners of
    the other channel are not called.  For listeners that record their
    call, the trace shows that order. *)
Theorem C9_listener_order fenv fuel r c h :
  cells h !! r = Some c -> _state c = PENDING ->
  (forall rec cb,
     registerSuccessListener rec r cb h
       = Ret (VPromise r) (update_cell h r (push_success c cb)) /\
     registerFailureListener rec r cb h
       = Ret (VPromise r) (update_cell h r (push_failure c cb)) /\
     registerFinishListener rec r cb h
       = Ret (VPromise r) (update_cell h r (push_finish c cb))) /\
  (forall rec v,
     __notifySuccess__ rec r v h =
       (for_each (fun cb => invoke rec cb [v]) (_successListeners c) ;;;
        for_each (fun cb => invoke rec cb [VStr "SUCCEEDED"; v; _error c])
                 (_finishListeners c) ;;;
        ret VUndefined) (update_cell h r (set_state c SUCCEEDED v (_error c))) /\
     __notifyFailure__ rec r v h =
       (for_each (fun cb => invoke rec cb [v]) (_failureListeners c) ;;;
        for_each (fun cb => invoke rec cb [VStr "FAILED"; _data c; v])
                 (_finishListeners c) ;;;
        ret VUndefined) (update_cell h r (set_state c FAILED (_data c) v))) /\
  (forall ss fs v,
     _finishListeners c = map CbUser fs ->
     (_successListeners c = map CbUser ss ->
      __notifySuccess__ (run fenv (S fuel)) r v h =
        Ret VUndefined
            (logged (update_cell h r (set_state c SUCCEEDED v (_error c)))
                    (map (fun id => EvListener id [v]) ss ++
                     map (fun id => EvListener id [VStr "SUCCEEDED"; v; _error c]) fs))) /\
     (_failureListeners c = map CbUser ss ->
      __notifyFailure__ (run fenv (S fuel)) r v h =
        Ret VUndefined
            (logged (update_cell h r (set_state c FAILED (_data c) v))
                    (map (fun id => EvListener id [v]) ss ++
                     map (fun id => EvListener id [VStr "FAILED"; _data c; v]) fs)))).
Proof.
  intros Hr Hs. split; [|split].
  - intros rec cb.
    by rewrite (registerSuccessListener_pending _ _ _ _ _ Hr Hs),
      (registerFailureListener_pending _ _ _ _ _ Hr Hs),
      (registerFinishListener_pending _ _ _ _ _ Hr Hs).
  - intros rec v.
    by rewrite (__notifySuccess__pending _ _ _ _ _ Hr Hs),
      (__notifyFailure__pending _ _ _ _ _ Hr Hs).
  - intros ss fs v Hfs. split; intros Hss.
    + rewrite (__notifySuccess__pending _ _ _ _ _ Hr Hs), Hss, Hfs.
      unfold bind. rewrite for_each_user, for_each_user. by rewrite logged_app.
    + rewrite (__notifyFailure__pending _ _ _ _ _ Hr Hs), Hss, Hfs.
      unfold bind. rewrite for_each_user, for_each_user. by rewrite logged_app.
Qed.

(** ** Functions of a caller, for the examples *)

(** [a + b] of JavaScript on the values that the examples use: numbers are
    added, strings are concatenated, and null becomes "null" next to a
    string and 0 next to a number. *)
Definition js_plus (a b : value) : value :=
  match a, b with
  | VNum x, VNum y => VNum (x + y)
  | VStr s, VStr t => VStr (String.append s t)
  | VNull, VStr t => VStr (String.append "null" t)
  | VStr s, VNull => VStr (String.append s "null")
  | VNull, VNum y => VNum y
  | VNum x, VNull => VNum x
  | VNull, VNull => VNum 0
  | _, _ => VUndefined
  end.

Definition demo_fenv (id : nat) (args : list value) : action :=
  match id, args with
  | 0, [VNum z] => AReturn (VNum (z * 2))      (* function (x) { return x * 2; } *)
  | 1, [a; b] => AReturn (js_plus a b)         (* function (a, b) { return a + b; } *)
  | 2, [a] => AUnit (js_plus a (VNum 1))       (* function (x) { return unit(x + 1); } *)
  | 3, _ => AThrow (VStr "no data")            (* function () { throw 'no data'; } *)
  | 4, _ => APending                           (* function () { return promise(); } *)
  | 5, [a] => AFailed a                        (* returns a promise failed with x *)
  | _, _ => AReturn VUndefined
  end.

(** A program for the registries: two listeners, then the resolution. *)
Definition registry_program : list op :=
  [OpPromise None; OpSucceed 0 (CbUser 7); OpFinish 0 (CbUser 8);
   OpNotifySuccess 0 (VNum 5)].



(** ** Invariants of the module

    A family of heap invariants [I k] is kept by every closure and function
    that does not resolve a protected promise, does not call a protected
    function and does not use a protected frame, as soon as the basic
    updates of the heap keep it and the two resolve entry points keep it.
    The entry points are the only place where listeners stored in the heap
    are called, so each use of this section does its own analysis there. *)

Section Invariant.

Variable fenv : nat -> list value -> action.

(** The promises, functions of the caller and frames that are not
    protected. *)
Variable tgt_ok : ref -> Prop.
Variable id_ok : nat -> Prop.
Variable env_ok : nat -> Prop.

Fixpoint quiet_fn (f : fn) : Prop :=
  match f with
  | FUser id => id_ok id
  | F__errorToData__ | FUnit => True
  | FFlatMapAfter g f' => quiet_fn g /\ quiet_fn f'
  end.

Definition quiet_cb (cb : callback) : Prop :=
  match cb with
  | CbUser _ => True
  | CbSuccessConst p _ | CbFailureConst p _ | CbSuccess p | CbFailure p | CbJoin p =>
      tgt_ok p
  | CbFmap f r => quiet_fn f /\ tgt_ok r
  | CbLiftA f _ env r => quiet_fn f /\ env_ok env /\ tgt_ok r
  | CbContinue _ f r2 => quiet_fn f /\ tgt_ok r2
  end.

Definition quiet_task (t : task) : Prop :=
  match t with
  | Invoke cb _ => quiet_cb cb
  | Call f _ => quiet_fn f
  end.

Definition quiet_options (o : option Options) : Prop :=
  match o with
  | Some {| opt__errorToData__ := Some f |} => quiet_fn f
  | _ => True
  end.

Definition quiet_op (o : op) : Prop :=
  match o with
  | OpPromise o => quiet_options o
  | OpNotifySuccess r _ | OpNotifyFailure r _ => tgt_ok r
  | OpSucceed _ cb | OpFail _ cb | OpFinish _ cb => quiet_cb cb
  | OpState _ | OpData _ | OpUnit _ | OpIsSuccess _ | OpIsFailure _
  | OpGetError _ | OpJoin _ => True
  | OpFmap f _ | OpFlatMap f _ | OpLiftA f _ | OpContinue _ f => quiet_fn f
  end.

Variable K : Type.
Variable I : K -> heap -> Prop.
Variable E : heap -> Prop.

Definition with_frames (h : heap) (fs : list frame) : heap :=
  {| cells := cells h; frames := fs; trace := trace h |}.

(** [keeps k P m Qv]: from a heap that satisfies [P] and [I k], [m] returns
    in a heap that satisfies [I k], with a value that satisfies [Qv], or
    throws in a heap that satisfies [E]. *)
Definition keeps {A} (k : K) (P : heap -> Prop) (m : M A) (Qv : A -> Prop) : Prop :=
  forall h, P h -> I k h -> wp m h (fun a h' => I k h' /\ Qv a) E.

Definition anything {A} : A -> Prop := fun _ => True.

Hypothesis I_E : forall k h, I k h -> E h.

Lemma keeps_weaken {A} k (P P' : heap -> Prop) (m : M A) (Qv Qv' : A -> Prop) :
  keeps k P' m Qv' -> (forall h, P h -> P' h) -> (forall a, Qv' a -> Qv a) ->
  keeps k P m Qv.
Proof.
  intros Hm HP HQ h Hh Hi. eapply wp_mono; [apply Hm; auto| |done].
  cbn. intros a h' (? & ?). auto.
Qed.

Lemma keeps_ret {A} k P (a : A) (Qv : A -> Prop) : Qv a -> keeps k P (ret a) Qv.
Proof. by intros Ha h _ Hi. Qed.

Lemma keeps_throw {A} k P e (Qv : A -> Prop) : keeps k P (throw e) Qv.
Proof. intros h _ Hi. cbn. eauto. Qed.

Lemma keeps_bind {A B} k P (m : M A) (f : A -> M B) (Qa : A -> Prop) (Qv : B -> Prop) :
  keeps k P m Qa -> (forall a, Qa a -> keeps k any_heap (f a) Qv) ->
  keeps k P (bind m f) Qv.
Proof.
  intros Hm Hf h Hh Hi. apply wp_bind.
  eapply wp_mono; [by apply Hm| |done].
  cbn. intros a h' (Hi' & Ha). by apply Hf.
Qed.

Lemma keeps_get_cell {B} k P r (f : cell -> M B) (Qv : B -> Prop) :
  (forall c, keeps k (fun h => cells h !! r = Some c) (f c) Qv) ->
  keeps k P (bind (get_cell r) f) Qv.
Proof.
  intros Hf h _ Hi. apply wp_bind, wp_get_cell; [|eauto].
  intros c Hc. by apply Hf.
Qed.

Lemma keeps_get_frame {B} k P e (f : frame -> M B) (Qv : B -> Prop) :
  (forall fr, keeps k any_heap (f fr) Qv) ->
  keeps k P (bind (get_frame e) f) Qv.
Proof.
  intros Hf h _ Hi. apply wp_bind, wp_get_frame; [|eauto].
  intros fr Hfr. by apply Hf.
Qed.

Lemma keeps_as_promise k P v : keeps k P (as_promise v) anything.
Proof. intros h _ Hi. destruct v; cbn; unfold anything; eauto. Qed.

Lemma keeps_for_each {A} k P (f : A -> M unit) l :
  (forall x, x ∈ l -> keeps k any_heap (f x) anything) ->
  keeps k P (for_each f l) anything.
Proof.
  intros Hf h _ Hi.
  eapply wp_mono; [apply (wp_for_each f l (I k) E h); [done|]| |done].
  - intros x h' Hx Hi'.
    eapply wp_mono; [by apply Hf| |done]. cbn. by intros ? ? (? & _).
  - cbn. by intros.
Qed.

Lemma keeps_map_m {A B} k P (f : A -> M B) l :
  (forall x, x ∈ l -> keeps k any_heap (f x) anything) ->
  keeps k P (map_m f l) anything.
Proof.
  intros Hf h _ Hi.
  eapply wp_mono; [apply (wp_map_m f l (I k) E h); [done|]| |done].
  - intros x h' Hx Hi'.
    eapply wp_mono; [by apply Hf| |done]. cbn. by intros ? ? (? & _).
  - cbn. by intros.
Qed.

(** What the basic updates of the heap must keep. *)
Hypothesis I_alloc :
  forall k h o, quiet_options o -> I k h -> I k (alloc h (fresh_cell o)).
Hypothesis I_fresh : forall k h, I k h -> tgt_ok (length (cells h)).
Hypothesis I_push_success :
  forall k h r c cb, I k h -> cells h !! r = Some c -> _state c = PENDING ->
                     quiet_cb cb -> I k (update_cell h r (push_success c cb)).
Hypothesis I_push_failure :
  forall k h r c cb, I k h -> cells h !! r = Some c -> _state c = PENDING ->
                     quiet_cb cb -> I k (update_cell h r (push_failure c cb)).
Hypothesis I_push_finish :
  forall k h r c cb, I k h -> cells h !! r = Some c -> _state c = PENDING ->
                     quiet_cb cb -> I k (update_cell h r (push_finish c cb)).
Hypothesis I_new_frame :
  forall k h f, I k h -> I k (with_frames h (frames h ++ [f])).
Hypothesis I_fresh_env : forall k h, I k h -> env_ok (length (frames h)).
Hypothesis I_set_frame :
  forall k h e f, env_ok e -> I k h -> I k (with_frames h (<[e := f]> (frames h))).
Hypothesis I_log_listener :
  forall k h id args, I k h -> I k (logged h [EvListener id args]).
Hypothesis I_log_call :
  forall k h id args, id_ok id -> I k h -> I k (logged h [EvCall id args]).
Hypothesis I_options :
  forall k h r c f, I k h -> cells h !! r = Some c ->
                    opt__errorToData__ (_options c) = Some f -> quiet_fn f.

Lemma keeps_promise k P o : quiet_options o -> keeps k P (promise o) tgt_ok.
Proof. intros Ho h _ Hi. unfold wp. rewrite promise_eq. eauto. Qed.

Lemma keeps_new_frame k P f : keeps k P (new_frame f) env_ok.
Proof. intros h _ Hi. unfold wp, new_frame. split; [by apply I_new_frame|eauto]. Qed.

Lemma keeps_set_frame k P e f : env_ok e -> keeps k P (set_frame e f) anything.
Proof. intros He h _ Hi. unfold wp, set_frame. split; [by apply I_set_frame|done]. Qed.

Lemma keeps_log_listener k P id args : keeps k P (log (EvListener id args)) anything.
Proof. intros h _ Hi. unfold wp, log. split; [by apply I_log_listener|done]. Qed.

Lemma keeps_log_call k P id args :
  id_ok id -> keeps k P (log (EvCall id args)) anything.
Proof. intros Hid h _ Hi. unfold wp, log. split; [by apply I_log_call|done]. Qed.

Lemma keeps_push_success k r c cb :
  quiet_cb cb -> _state c = PENDING ->
  keeps k (fun h => cells h !! r = Some c) (set_cell r (push_success c cb)) anything.
Proof. intros Hcb Hs h Hr Hi. unfold wp, set_cell. split; [by eapply I_push_success|done]. Qed.

Lemma keeps_push_failure k r c cb :
  quiet_cb cb -> _state c = PENDING ->
  keeps k (fun h => cells h !! r = Some c) (set_cell r (push_failure c cb)) anything.
Proof. intros Hcb Hs h Hr Hi. unfold wp, set_cell. split; [by eapply I_push_failure|done]. Qed.

Lemma keeps_push_finish k r c cb :
  quiet_cb cb -> _state c = PENDING ->
  keeps k (fun h => cells h !! r = Some c) (set_cell r (push_finish c cb)) anything.
Proof. intros Hcb Hs h Hr Hi. unfold wp, set_cell. split; [by eapply I_push_finish|done]. Qed.

Section Kept.

Variable rec : task -> M value.
Hypothesis Hrec : forall k t, quiet_task t -> keeps k any_heap (rec t) anything.
Hypothesis hook_success :
  forall k p d, tgt_ok p -> keeps k any_heap (__notifySuccess__ rec p d) anything.
Hypothesis hook_failure :
  forall k p e, tgt_ok p -> keeps k any_heap (__notifyFailure__ rec p e) anything.

Lemma keeps_any {A} k P (m : M A) Qv : keeps k any_heap m Qv -> keeps k P m Qv.
Proof. intros Hm. eapply keeps_weaken; [exact Hm|done|done]. Qed.

Lemma keeps_anything {A} k P (m : M A) Qv : keeps k P m Qv -> keeps k P m anything.
Proof. intros Hm. eapply keeps_weaken; [exact Hm|done|done]. Qed.

Lemma keeps_invoke k P cb args : quiet_cb cb -> keeps k P (invoke rec cb args) anything.
Proof.
  intros Hcb. unfold invoke. eapply keeps_bind.
  - apply keeps_any. by apply Hrec.
  - intros ? _. by apply keeps_ret.
Qed.

Lemma keeps_call k P f args : quiet_fn f -> keeps k P (call rec f args) anything.
Proof. intros Hf. apply keeps_any. by apply Hrec. Qed.

Lemma keeps__notifySuccess__ k P p d :
  tgt_ok p -> keeps k P (__notifySuccess__ rec p d) anything.
Proof. intros Hp. apply keeps_any. by apply hook_success. Qed.

Lemma keeps__notifyFailure__ k P p e :
  tgt_ok p -> keeps k P (__notifyFailure__ rec p e) anything.
Proof. intros Hp. apply keeps_any. by apply hook_failure. Qed.

(** One step of a proof that a computation keeps the invariants. *)
Ltac keeps_step :=
  lazymatch goal with
  | |- keeps _ _ (bind (get_cell _) _) _ => apply keeps_get_cell; intros ?
  | |- keeps _ _ (bind (get_frame _) _) _ => apply keeps_get_frame; intros ?
  | |- keeps _ _ (bind (promise _) _) _ =>
      eapply keeps_bind; [by apply keeps_promise|intros ? ?]
  | |- keeps _ _ (bind (new_frame _) _) _ =>
      eapply keeps_bind; [by apply keeps_new_frame|intros ? ?]
  | |- keeps _ _ (bind _ _) _ => eapply keeps_bind; [|intros ? ?]
  | |- keeps _ _ (for_each _ _) _ => apply keeps_for_each; intros ? ?
  | |- keeps _ _ (map_m _ _) _ => apply keeps_map_m; intros ? ?
  | |- keeps _ _ (if ?b then _ else _) _ => destruct b eqn:?
  | |- keeps _ _ (match ?x with _ => _ end) _ => destruct x eqn:?
  | |- keeps _ _ (ret _) _ => apply keeps_ret; first [assumption|exact Logic.I]
  | |- keeps _ _ (throw _) _ => apply keeps_throw
  | |- keeps _ _ (as_promise _) _ => apply keeps_as_promise
  | |- keeps _ _ (invoke _ _ _) _ => apply keeps_invoke
  | |- keeps _ _ (call _ _ _) _ => apply keeps_call
  | |- keeps _ _ (__notifySuccess__ _ _ _) _ => apply keeps__notifySuccess__
  | |- keeps _ _ (__notifyFailure__ _ _ _) _ => apply keeps__notifyFailure__
  | |- keeps _ _ (set_cell _ (push_success _ _)) _ => apply keeps_push_success
  | |- keeps _ _ (set_cell _ (push_failure _ _)) _ => apply keeps_push_failure
  | |- keeps _ _ (set_cell _ (push_finish _ _)) _ => apply keeps_push_finish
  | |- keeps _ _ (set_frame _ _) _ => apply keeps_set_frame
  | |- keeps _ _ (log (EvListener _ _)) _ => apply keeps_log_listener
  | |- keeps _ _ (log (EvCall _ _)) _ => apply keeps_log_call
  end.

Ltac keeps_side :=
  repeat match goal with
         | H : _ /\ _ |- _ => destruct H
         end;
  cbn; try done; auto.

Lemma keeps_registerSuccessListener k P r cb :
  quiet_cb cb -> keeps k P (registerSuccessListener rec r cb) anything.
Proof. intros Hcb. unfold registerSuccessListener. repeat keeps_step; keeps_side. Qed.

Lemma keeps_registerFailureListener k P r cb :
  quiet_cb cb -> keeps k P (registerFailureListener rec r cb) anything.
Proof. intros Hcb. unfold registerFailureListener. repeat keeps_step; keeps_side. Qed.

Lemma keeps_registerFinishListener k P r cb :
  quiet_cb cb -> keeps k P (registerFinishListener rec r cb) anything.
Proof. intros Hcb. unfold registerFinishListener. repeat keeps_step; keeps_side. Qed.

(** The two loops of an entry point, over listeners that are quiet. *)
Lemma keeps_drain k P ls fs args args' :
  Forall quiet_cb ls -> Forall quiet_cb fs ->
  keeps k P (for_each (fun cb => invoke rec cb args) ls ;;;
             for_each (fun cb => invoke rec cb args') fs ;;;
             ret VUndefined) anything.
Proof.
  intros Hls Hfs. rewrite Forall_forall in Hls. rewrite Forall_forall in Hfs.
  repeat keeps_step; auto.
Qed.

Lemma keeps_getState k P r : keeps k P (getState r) anything.
Proof. unfold getState. repeat keeps_step. Qed.

Lemma keeps_getData k P r : keeps k P (getData rec r) anything.
Proof.
  unfold getData. apply keeps_get_cell. intros c h Hr Hi.
  destruct (_state c).
  - by apply (keeps_throw k any_heap pending_msg anything h).
  - by apply (keeps_ret k any_heap (_data c) anything).
  - destruct (opt__errorToData__ (_options c)) as [f|] eqn:Hf.
    + apply (keeps_call k any_heap f [_error c]); [|done|done]. eauto.
    + by apply (keeps_throw k any_heap TypeError anything h).
Qed.

Lemma keeps_unit k P d : keeps k P (cbl_unit rec d) tgt_ok.
Proof. unfold cbl_unit. repeat keeps_step; keeps_side. Qed.

Lemma keeps_isSuccess_ k P p : keeps k P (isSuccess_ rec p) tgt_ok.
Proof.
  unfold isSuccess_. repeat keeps_step;
    auto using keeps_registerSuccessListener, keeps_registerFailureListener.
Qed.

Lemma keeps_isFailure_ k P p : keeps k P (isFailure_ rec p) tgt_ok.
Proof.
  unfold isFailure_. repeat keeps_step;
    auto using keeps_registerSuccessListener, keeps_registerFailureListener.
Qed.

Lemma keeps_getError_ k P p : keeps k P (getError_ rec p) tgt_ok.
Proof.
  unfold getError_. repeat keeps_step;
    auto using keeps_registerSuccessListener, keeps_registerFailureListener.
Qed.

Lemma keeps_fmap k P f t : quiet_fn f -> keeps k P (fmap rec f t) tgt_ok.
Proof.
  intros Hf. unfold fmap. repeat keeps_step;
    first [ apply keeps_registerSuccessListener | apply keeps_registerFailureListener ];
    keeps_side.
Qed.

Lemma keeps_join k P t : keeps k P (join rec t) tgt_ok.
Proof.
  unfold join. repeat keeps_step;
    first [ apply keeps_registerSuccessListener | apply keeps_registerFailureListener ];
    keeps_side.
Qed.

Lemma keeps_flatMap k P f t : quiet_fn f -> keeps k P (flatMap rec f t) tgt_ok.
Proof.
  intros Hf. unfold flatMap. eapply keeps_bind; [by apply keeps_fmap|].
  intros r _. apply keeps_join.
Qed.

Lemma keeps_liftA k P f args : quiet_fn f -> keeps k P (liftA rec f args) tgt_ok.
Proof.
  intros Hf. unfold liftA. repeat keeps_step;
    first [ apply keeps_registerFinishListener | idtac ]; keeps_side.
Qed.

Lemma keeps_chain_ k P p1 p2 : tgt_ok p2 -> keeps k P (chain_ rec p1 p2) anything.
Proof.
  intros Hp. unfold chain_. repeat keeps_step;
    first [ apply keeps_registerSuccessListener | apply keeps_registerFailureListener ];
    keeps_side.
Qed.

Lemma keeps_continue_ k P p1 f : quiet_fn f -> keeps k P (continue_ rec p1 f) tgt_ok.
Proof.
  intros Hf. unfold continue_. repeat keeps_step;
    first [ apply keeps_registerFinishListener | idtac ]; keeps_side.
Qed.

Lemma keeps_run_callback k P cb args :
  quiet_cb cb -> keeps k P (run_callback rec cb args) anything.
Proof.
  intros Hcb. destruct cb; cbn in Hcb; cbn [run_callback];
    repeat keeps_step;
    first [ apply keeps_registerSuccessListener | apply keeps_registerFailureListener
          | apply keeps_getData | apply keeps_chain_ | idtac ];
    keeps_side.
Qed.

Lemma keeps_run_fn k P f args :
  quiet_fn f -> keeps k P (run_fn fenv rec f args) anything.
Proof.
  intros Hf. destruct f; cbn in Hf; cbn [run_fn];
    repeat keeps_step;
    first [ eapply keeps_anything, keeps_unit | eapply keeps_anything, keeps_flatMap
          | idtac ];
    keeps_side.
Qed.

Lemma keeps_step_task k P t : quiet_task t -> keeps k P (step fenv rec t) anything.
Proof.
  destruct t; cbn; auto using keeps_run_callback, keeps_run_fn.
Qed.

End Kept.

(** Closures that are not quiet may have a specification of their own:
    [special k t h] is what it needs and [spost k t h] what it gives. *)
Variable special : K -> task -> heap -> Prop.
Variable spost : K -> task -> heap -> value -> heap -> Prop.

Definition rec_ok (rec : task -> M value) : Prop :=
  (forall t, evolving any_heap (rec t)) /\
  (forall k t, quiet_task t -> keeps k any_heap (rec t) anything) /\
  (forall k t h, special k t h -> wp (rec t) h (spost k t h) E).

(** The analysis of the entry points and of the special closures, given
    that the calls they make are as specified. *)
Hypothesis hooks :
  forall rec, rec_ok rec ->
    (forall k p d, tgt_ok p -> keeps k any_heap (__notifySuccess__ rec p d) anything) /\
    (forall k p e, tgt_ok p -> keeps k any_heap (__notifyFailure__ rec p e) anything).

Hypothesis special_step :
  forall rec, rec_ok rec ->
    forall k t h, special k t h -> wp (step fenv rec t) h (spost k t h) E.

Theorem keeps_run n : rec_ok (run fenv n).
Proof.
  induction n as [|n IH].
  - split; [apply evolving_run|]. split; [by intros k t Ht h _ _|done].
  - split; [apply evolving_run|]. split.
    + intros k t Ht. cbn [run]. destruct (hooks _ IH) as [Hs Hf].
      apply keeps_step_task; [apply IH|done|done|done].
    + intros k t h Ht. cbn [run]. by apply special_step.
Qed.

Theorem keeps_do_op fuel k o :
  quiet_op o -> keeps k any_heap (do_op fenv fuel o) anything.
Proof.
  intros Ho. pose proof (keeps_run fuel) as Hok.
  destruct (hooks _ Hok) as [Hs Hf]. destruct Hok as (_ & Hrec & _).
  destruct o; cbn in Ho; cbn [do_op]; unfold as_value;
    first [ by apply keeps__notifySuccess__ | by apply keeps__notifyFailure__
          | by apply keeps_registerSuccessListener
          | by apply keeps_registerFailureListener
          | by apply keeps_registerFinishListener
          | by apply keeps_getData
          | eapply keeps_bind; [|intros ? ?; by apply keeps_ret] ];
    first [ by apply keeps_promise | apply keeps_getState | by apply keeps_unit
          | by apply keeps_isSuccess_ | by apply keeps_isFailure_
          | by apply keeps_getError_ | by apply keeps_fmap | by apply keeps_join
          | by apply keeps_flatMap | by apply keeps_liftA | by apply keeps_continue_ ].
Qed.

End Invariant.

(** A program all of whose operations return. *)
Fixpoint do_ops_returning (fenv : nat -> list value -> action) (fuel : nat)
         (os : list op) (h : heap) : option heap :=
  match os with
  | [] => Some h
  | o :: os' =>
      match do_op fenv fuel o h with
      | Ret _ h' => do_ops_returning fenv fuel os' h'
      | _ => None
      end
  end.

Lemma do_ops_returning_do_ops fenv fuel os h h' :
  do_ops_returning fenv fuel os h = Some h' -> do_ops fenv fuel os h = Some h'.
Proof.
  revert h. induction os as [|o os IH]; intros h; cbn; [done|].
  destruct (do_op fenv fuel o h); cbn; auto; done.
Qed.

(** ** The frame: what quiet code leaves alone *)

Section Frame.

Variable fenv : nat -> list value -> action.
Variable tgt_ok : ref -> Prop.
Variable id_ok : nat -> Prop.
Variable env_ok : nat -> Prop.

Local Abbreviation quiet_cb' := (quiet_cb tgt_ok id_ok env_ok).
Local Abbreviation quiet_fn' := (quiet_fn id_ok).

Definition listeners (c : cell) : list callback :=
  _successListeners c ++ _failureListeners c ++ _finishListeners c.

(** The listeners of a finished promise are never called again, so only
    those of a PENDING promise count. *)
Definition quiet_cell (c : cell) : Prop :=
  (_state c = PENDING -> Forall quiet_cb' (listeners c)) /\
  (forall f, opt__errorToData__ (_options c) = Some f -> quiet_fn' f).

(** No listener that may still be called resolves a protected promise,
    calls a protected function or uses a protected frame; the protected
    promises and frames exist. *)
Definition quiet_heap (h : heap) : Prop :=
  (forall r c, cells h !! r = Some c -> quiet_cell c) /\
  (forall r, length (cells h) <= r -> tgt_ok r) /\
  (forall e, length (frames h) <= e -> env_ok e).

Definition ev_ok (ev : event) : Prop :=
  match ev with
  | EvCall id _ => id_ok id
  | EvListener _ _ => True
  end.

Definition same_result (c c' : cell) : Prop :=
  _state c' = _state c /\ _data c' = _data c /\ _error c' = _error c.

(** The protected promises are in the state they were in, the protected
    frames are as they were, and no protected function was called. *)
Definition untouched (h0 h : heap) : Prop :=
  (forall r c, ~ tgt_ok r -> cells h0 !! r = Some c ->
               exists c', cells h !! r = Some c' /\ same_result c c') /\
  (forall e, ~ env_ok e -> frames h !! e = frames h0 !! e) /\
  (exists evs, trace h = trace h0 ++ evs /\ Forall ev_ok evs).

Definition framed (h0 : heap) (_ : unit) (h : heap) : Prop :=
  quiet_heap h /\ untouched h0 h.

Lemma untouched_refl h : untouched h h.
Proof.
  split; [|split; [done|]].
  - intros r c _ Hc. by exists c.
  - exists []. by rewrite app_nil_r.
Qed.

Lemma quiet_fresh_cell o : quiet_options id_ok o -> quiet_cell (fresh_cell o).
Proof.
  intros Ho. split; [by intros _; apply Forall_nil|].
  destruct o as [[[g|]]|]; cbn; intros f [= <-]; done.
Qed.

Lemma framed_alloc h0 k h c :
  quiet_cell c -> framed h0 k h -> framed h0 k (alloc h c).
Proof.
  intros Hc ((Hq & Hn & He) & (Hu & Hf & Ht)). split; split.
  - intros r c' Hr. cbn in Hr. apply lookup_app_Some in Hr as [Hr|[_ Hr]]; [eauto|].
    destruct (r - length (cells h)); [|done]. by injection Hr as <-.
  - cbn. rewrite length_app. cbn. split; [|done]. intros r Hr. apply Hn. lia.
  - intros r c' Hp Hr. destruct (Hu _ _ Hp Hr) as (c'' & Hr' & Hs).
    exists c''. split; [|done]. by apply lookup_alloc_old.
  - done.
Qed.

Lemma framed_update h0 k h r c c' :
  cells h !! r = Some c -> same_result c c' -> quiet_cell c' ->
  framed h0 k h -> framed h0 k (update_cell h r c').
Proof.
  intros Hr Hs Hc ((Hq & Hn & He) & (Hu & Hf & Ht)). split; split.
  - intros r' c'' Hr'. cbn in Hr'.
    destruct (decide (r' = r)) as [->|Hne].
    + rewrite list_lookup_insert_eq in Hr' by (by eapply lookup_lt_Some).
      by injection Hr' as <-.
    + rewrite list_lookup_insert_ne in Hr' by done. eauto.
  - cbn. by rewrite length_insert.
  - intros r' c0 Hp Hr0. destruct (Hu _ _ Hp Hr0) as (c1 & Hr1 & Hs1).
    destruct (decide (r' = r)) as [->|Hne].
    + exists c'. split; [by eapply lookup_update_cell|].
      assert (c1 = c) as -> by congruence.
      destruct Hs as (? & ? & ?), Hs1 as (? & ? & ?). repeat split; congruence.
    + exists c1. split; [|done]. cbn. by rewrite list_lookup_insert_ne.
  - done.
Qed.

(** Resolution changes a promise that is not protected. *)
Lemma framed_resolve h0 k h r c s d e :
  cells h !! r = Some c -> tgt_ok r -> s <> PENDING -> quiet_cell c ->
  framed h0 k h -> framed h0 k (update_cell h r (set_state c s d e)).
Proof.
  intros Hr Hok Hs Hc ((Hq & Hn & He) & (Hu & Hf & Ht)). split; split.
  - intros r' c'' Hr'. cbn in Hr'.
    destruct (decide (r' = r)) as [->|Hne].
    + rewrite list_lookup_insert_eq in Hr' by (by eapply lookup_lt_Some).
      injection Hr' as <-. split; [done|]. apply Hc.
    + rewrite list_lookup_insert_ne in Hr' by done. eauto.
  - cbn. by rewrite length_insert.
  - intros r' c0 Hp Hr0. destruct (Hu _ _ Hp Hr0) as (c1 & Hr1 & Hs1).
    exists c1. split; [|done]. cbn. rewrite list_lookup_insert_ne; [done|].
    by intros <-.
  - done.
Qed.

Lemma quiet_cell_push c cb c' :
  quiet_cell c -> quiet_cb' cb ->
  _state c' = _state c -> _options c' = _options c ->
  listeners c' ≡ₚ cb :: listeners c ->
  quiet_cell c'.
Proof.
  intros (Hl & Ho) Hcb Hs Hopt Hp. split.
  - intros Hs'. rewrite Hp. apply Forall_cons. split; [done|]. apply Hl. congruence.
  - rewrite Hopt. apply Ho.
Qed.

Lemma framed_push_success h0 k h r c cb :
  framed h0 k h -> cells h !! r = Some c -> _state c = PENDING -> quiet_cb' cb ->
  framed h0 k (update_cell h r (push_success c cb)).
Proof.
  intros Hi Hr Hs Hcb. eapply framed_update; [done|done| |done].
  eapply quiet_cell_push; [by eapply Hi|done|done|done|].
  unfold listeners. cbn. rewrite <- app_assoc. cbn. by rewrite <- Permutation_middle.
Qed.

Lemma framed_push_failure h0 k h r c cb :
  framed h0 k h -> cells h !! r = Some c -> _state c = PENDING -> quiet_cb' cb ->
  framed h0 k (update_cell h r (push_failure c cb)).
Proof.
  intros Hi Hr Hs Hcb. eapply framed_update; [done|done| |done].
  eapply quiet_cell_push; [by eapply Hi|done|done|done|].
  unfold listeners. cbn. rewrite <- app_assoc. cbn.
  by rewrite <- !Permutation_middle.
Qed.

Lemma framed_push_finish h0 k h r c cb :
  framed h0 k h -> cells h !! r = Some c -> _state c = PENDING -> quiet_cb' cb ->
  framed h0 k (update_cell h r (push_finish c cb)).
Proof.
  intros Hi Hr Hs Hcb. eapply framed_update; [done|done| |done].
  eapply quiet_cell_push; [by eapply Hi|done|done|done|].
  unfold listeners. cbn. rewrite !app_assoc. by rewrite <- Permutation_cons_append.
Qed.

Lemma framed_new_frame h0 k h f :
  framed h0 k h -> framed h0 k (with_frames h (frames h ++ [f])).
Proof.
  intros ((Hq & Hn & He) & (Hu & Hf & Ht)). split; split; try done.
  - split; [done|]. cbn. rewrite length_app. cbn. intros e Hle. apply He. lia.
  - split; [|done]. cbn. intros e Hp. rewrite <- Hf by done.
    apply lookup_app_l. destruct (decide (e < length (frames h))); [done|].
    exfalso. apply Hp, He. lia.
Qed.

Lemma framed_set_frame h0 k h e f :
  env_ok e -> framed h0 k h -> framed h0 k (with_frames h (<[e := f]> (frames h))).
Proof.
  intros Hok ((Hq & Hn & He) & (Hu & Hf & Ht)). split; split; try done.
  - split; [done|]. cbn. by rewrite length_insert.
  - split; [|done]. cbn. intros e' Hp. rewrite <- Hf by done.
    apply list_lookup_insert_ne. by intros ->.
Qed.

Lemma framed_log h0 k h ev :
  ev_ok ev -> framed h0 k h -> framed h0 k (logged h [ev]).
Proof.
  intros Hev ((Hq & Hn & He) & (Hu & Hf & (evs & Ht & Hevs))). split; split; try done.
  split; [done|]. exists (evs ++ [ev]). cbn. rewrite Ht, app_assoc. split; [done|].
  apply Forall_app. split; [done|]. by apply Forall_singleton.
Qed.

Lemma quiet_cell_listeners c :
  quiet_cell c -> _state c = PENDING ->
  Forall quiet_cb' (_successListeners c) /\
  Forall quiet_cb' (_failureListeners c) /\
  Forall quiet_cb' (_finishListeners c).
Proof.
  intros (Hl & _) Hs. specialize (Hl Hs). unfold listeners in Hl.
  by rewrite !Forall_app in Hl.
Qed.

Lemma framed_E h0 k h : framed h0 k h -> framed h0 tt h.
Proof. by destruct k. Qed.

Definition no_special : unit -> task -> heap -> Prop := fun _ _ _ => False.
Definition no_spost : unit -> task -> heap -> value -> heap -> Prop :=
  fun _ _ _ _ _ => True.

Lemma framed_hooks h0 rec :
  rec_ok tgt_ok id_ok env_ok unit (framed h0) (framed h0 tt) no_special no_spost rec ->
  (forall k p d, tgt_ok p ->
     keeps unit (framed h0) (framed h0 tt) k any_heap (__notifySuccess__ rec p d) anything) /\
  (forall k p e, tgt_ok p ->
     keeps unit (framed h0) (framed h0 tt) k any_heap (__notifyFailure__ rec p e) anything).
Proof.
  intros (_ & Hrec & _). split; intros k p d Hp h _ Hi.
  - unfold __notifySuccess__. apply wp_bind, wp_get_cell; [|by destruct k].
    intros c Hc. destruct (State_eqb (_state c) PENDING) eqn:Hs; [|by destruct k].
    apply State_eqb_PENDING in Hs. apply wp_bind. unfold set_cell at 1, wp at 1.
    assert (quiet_cell c) as Hq by (by eapply Hi).
    destruct (quiet_cell_listeners _ Hq Hs) as (Hl1 & Hl2 & Hl3).
    eapply (keeps_drain tgt_ok id_ok env_ok unit (framed h0) (framed h0 tt)
              rec Hrec k any_heap); [done|done|done|].
    by apply framed_resolve.
  - unfold __notifyFailure__. apply wp_bind, wp_get_cell; [|by destruct k].
    intros c Hc. destruct (State_eqb (_state c) PENDING) eqn:Hs; [|by destruct k].
    apply State_eqb_PENDING in Hs. apply wp_bind. unfold set_cell at 1, wp at 1.
    assert (quiet_cell c) as Hq by (by eapply Hi).
    destruct (quiet_cell_listeners _ Hq Hs) as (Hl1 & Hl2 & Hl3).
    eapply (keeps_drain tgt_ok id_ok env_ok unit (framed h0) (framed h0 tt)
              rec Hrec k any_heap); [done|done|done|].
    by apply framed_resolve.
Qed.

Lemma framed_fresh h0 k h : framed h0 k h -> tgt_ok (length (cells h)).
Proof. intros ((_ & Hn & _) & _). by apply Hn. Qed.

Lemma framed_fresh_env h0 k h : framed h0 k h -> env_ok (length (frames h)).
Proof. intros ((_ & _ & He) & _). by apply He. Qed.

Lemma framed_options h0 k h r c f :
  framed h0 k h -> cells h !! r = Some c ->
  opt__errorToData__ (_options c) = Some f -> quiet_fn' f.
Proof. intros ((Hq & _) & _) Hr Hf. by eapply Hq. Qed.

(** A quiet closure or function, and a quiet operation, keep the heap
    quiet and leave what is protected untouched, also when they throw. *)
Theorem frame_run h0 n t h :
  quiet_task tgt_ok id_ok env_ok t -> framed h0 tt h ->
  wp (run fenv n t) h (fun _ => framed h0 tt) (framed h0 tt).
Proof.
  intros Ht Hi.
  eapply (wp_mono _ _ (fun _ h' => framed h0 tt h' /\ True) _ (framed h0 tt));
    [|by intros ? ? (? & _)|done].
  destruct (keeps_run fenv tgt_ok id_ok env_ok unit (framed h0) (framed h0 tt)
           (framed_E h0)
           (fun k h o Ho => framed_alloc h0 k h _ (quiet_fresh_cell o Ho))
           (framed_fresh h0) (framed_push_success h0) (framed_push_failure h0)
           (framed_set_frame h0)
           (fun k h id args => framed_log h0 k h (EvListener id args) Logic.I)
           (fun k h id args Hid => framed_log h0 k h (EvCall id args) Hid)
           (framed_options h0) no_special no_spost (framed_hooks h0)
           (fun rec _ k t h (Hf : no_special k t h) => match Hf with end) n)
    as (_ & Hq & _).
  exact (Hq tt t Ht h Logic.I Hi).
Qed.

Theorem frame_do_op h0 fuel o h :
  quiet_op tgt_ok id_ok env_ok o -> framed h0 tt h ->
  wp (do_op fenv fuel o) h (fun _ => framed h0 tt) (framed h0 tt).
Proof.
  intros Ho Hi.
  eapply (wp_mono _ _ (fun _ h' => framed h0 tt h' /\ True) _ (framed h0 tt));
    [|by intros ? ? (? & _)|done].
  exact (keeps_do_op fenv tgt_ok id_ok env_ok unit (framed h0) (framed h0 tt)
           (framed_E h0)
           (fun k h o Ho => framed_alloc h0 k h _ (quiet_fresh_cell o Ho))
           (framed_fresh h0) (framed_push_success h0) (framed_push_failure h0)
           (framed_push_finish h0) (framed_new_frame h0) (framed_fresh_env h0)
           (framed_set_frame h0)
           (fun k h id args => framed_log h0 k h (EvListener id args) Logic.I)
           (fun k h id args Hid => framed_log h0 k h (EvCall id args) Hid)
           (framed_options h0) no_special no_spost (framed_hooks h0)
           (fun rec _ k t h (Hf : no_special k t h) => match Hf with end)
           fuel tt o Ho h Logic.I Hi).
Qed.

Theorem frame_do_ops h0 fuel os h h' :
  Forall (quiet_op tgt_ok id_ok env_ok) os -> framed h0 tt h ->
  do_ops fenv fuel os h = Some h' -> framed h0 tt h'.
Proof.
  revert h. induction os as [|o os IH]; intros h Hos Hi; cbn.
  - by intros [= <-].
  - apply Forall_cons in Hos as [Ho Hos].
    pose proof (frame_do_op h0 fuel o h Ho Hi) as Hw. unfold wp in Hw.
    destruct (do_op fenv fuel o h); cbn; [by apply IH|by apply IH|done].
Qed.

End Frame.

Definition always {A} : A -> Prop := fun _ => True.

(** Every listener that may still be called resolves a promise that
    exists: a closure cannot hold a promise that is yet to be created. *)
Definition well_formed (h : heap) : Prop :=
  forall r c, cells h !! r = Some c ->
              quiet_cell (fun p => p < length (cells h)) always always c.

Lemma quiet_fn_always f : quiet_fn always f.
Proof. induction f; cbn; unfold always; auto. Qed.

Lemma quiet_cb_mono (ok ok' : ref -> Prop) cb :
  (forall p, ok p -> ok' p) -> quiet_cb ok always always cb -> quiet_cb ok' always always cb.
Proof. intros H. destruct cb; cbn; unfold always; intuition auto. Qed.

Lemma quiet_cell_mono (ok ok' : ref -> Prop) c :
  (forall p, ok p -> ok' p) ->
  quiet_cell ok always always c -> quiet_cell ok' always always c.
Proof.
  intros H (Hl & Ho). split; [|done]. intros Hs.
  eapply Forall_impl; [by apply Hl|]. intros cb. by apply quiet_cb_mono.
Qed.

(** In a well-formed heap nothing can resolve the promise that is created
    next. *)
Lemma well_formed_alloc h o :
  well_formed h ->
  quiet_heap (fun p => p <> length (cells h)) always always (alloc h (fresh_cell o)).
Proof.
  intros Hwf. split; [|split; [|done]].
  - intros r c Hr. cbn in Hr. apply lookup_app_Some in Hr as [Hr|[_ Hr]].
    + eapply quiet_cell_mono; [|by eapply Hwf]. cbn. lia.
    + destruct (r - length (cells h)); [|done]. injection Hr as <-.
      apply quiet_fresh_cell. destruct o as [[[g|]]|]; cbn; auto using quiet_fn_always.
  - cbn. rewrite length_app. cbn. lia.
Qed.

Lemma quiet_heap_with_frames ok h fs :
  quiet_heap ok always always h -> quiet_heap ok always always (with_frames h fs).
Proof. intros (Hq & Hn & _). by split. Qed.

Lemma getState_eq r h c : cells h !! r = Some c -> getState r h = Ret (_state c) h.
Proof. intros Hr. unfold getState, bind, get_cell. by rewrite Hr. Qed.

Lemma getData_pending rec r h c :
  cells h !! r = Some c -> _state c = PENDING -> getData rec r h = Throw pending_msg h.
Proof. intros Hr Hs. unfold getData, bind, get_cell. by rewrite Hr, Hs. Qed.

(** C10.  A lifted function called with no promise returns a new PENDING
    promise.  No listener can resolve it, and the module does not resolve
    it: after every program that does not itself call an entry point of
    that promise, or register a listener that does, its state is PENDING
    and its data accessor throws. *)
Theorem C10_liftA_no_arguments fenv fuel f h :
  well_formed h ->
  let r := length (cells h) in
  let h1 := with_frames (alloc h (fresh_cell None))
                        (frames h ++ [{| finishedCount := 0; ts := [] |}]) in
  liftA (run fenv fuel) f [] h = Ret r h1 /\
  forall os h2,
    Forall (quiet_op (fun p => p <> r) always always) os ->
    do_ops fenv fuel os h1 = Some h2 ->
    getState r h2 = Ret PENDING h2 /\
    forall rec, getData rec r h2 = Throw pending_msg h2.
Proof.
  intros Hwf r h1. split; [reflexivity|]. intros os h2 Hos Hrun.
  assert (framed (fun p => p <> r) always always h1 tt h1) as Hi.
  { split; [|apply untouched_refl].
    by apply quiet_heap_with_frames, well_formed_alloc. }
  pose proof (frame_do_ops fenv _ _ _ h1 fuel os h1 h2 Hos Hi Hrun) as (_ & Hu & _).
  destruct (Hu r (fresh_cell None)) as (c' & Hr' & Hs & _).
  - by intros Hne.
  - apply lookup_alloc_new.
  - split; [by rewrite (getState_eq _ _ _ Hr'), Hs|].
    intros rec. by eapply getData_pending.
Qed.

(** ** What the closures achieve

    Facts about a heap that stay true when the heap evolves: a promise is
    finished with some result, a listener is in a queue.  From them, what
    holds once a closure or a function has returned. *)

Definition succeeded (h : heap) (r : ref) (d : value) : Prop :=
  exists c, cells h !! r = Some c /\ _state c = SUCCEEDED /\ _data c = d.

Definition failed (h : heap) (r : ref) (e : value) : Prop :=
  exists c, cells h !! r = Some c /\ _state c = FAILED /\ _error c = e.

Definition pending (h : heap) (r : ref) : Prop :=
  exists c, cells h !! r = Some c /\ _state c = PENDING.

Definition has_success_listener (h : heap) (r : ref) (cb : callback) : Prop :=
  exists c, cells h !! r = Some c /\ cb ∈ _successListeners c.

Definition has_failure_listener (h : heap) (r : ref) (cb : callback) : Prop :=
  exists c, cells h !! r = Some c /\ cb ∈ _failureListeners c.

Definition stable (F : heap -> Prop) : Prop :=
  forall h h', heap_evolves h h' -> F h -> F h'.

Lemma succeeded_stable r d : stable (fun h => succeeded h r d).
Proof.
  intros h h' He (c & Hr & Hs & Hd). exists c. split; [|done].
  eapply evolves_frozen; [done|done|]. by rewrite Hs.
Qed.

Lemma failed_stable r e : stable (fun h => failed h r e).
Proof.
  intros h h' He (c & Hr & Hs & Hd). exists c. split; [|done].
  eapply evolves_frozen; [done|done|]. by rewrite Hs.
Qed.

Lemma has_success_listener_stable r cb : stable (fun h => has_success_listener h r cb).
Proof.
  intros h h' (Hc & _) (c & Hr & Hin). destruct (Hc _ _ Hr) as (c' & Hr' & Hev).
  exists c'. split; [done|]. destruct Hev as (_ & _ & _ & Hp & _).
  by eapply elem_of_prefix.
Qed.

Lemma has_failure_listener_stable r cb : stable (fun h => has_failure_listener h r cb).
Proof.
  intros h h' (Hc & _) (c & Hr & Hin). destruct (Hc _ _ Hr) as (c' & Hr' & Hev).
  exists c'. split; [done|]. destruct Hev as (_ & _ & _ & _ & Hp & _).
  by eapply elem_of_prefix.
Qed.

Lemma stable_and F G : stable F -> stable G -> stable (fun h => F h /\ G h).
Proof. intros HF HG h h' He (? & ?). split; eauto. Qed.

Lemma stable_or F G : stable F -> stable G -> stable (fun h => F h \/ G h).
Proof. intros HF HG h h' He [?|?]; [left|right]; eauto. Qed.

Lemma stable_ex {A} (F : A -> heap -> Prop) :
  (forall a, stable (F a)) -> stable (fun h => exists a, F a h).
Proof. intros HF h h' He (a & ?). exists a. by eapply HF. Qed.

Lemma stable_const (P : Prop) : stable (fun _ => P).
Proof. by intros h h' _. Qed.

Ltac stable_tac :=
  repeat first
    [ apply succeeded_stable | apply failed_stable
    | apply has_success_listener_stable | apply has_failure_listener_stable
    | apply stable_const | apply stable_or | apply stable_and
    | apply stable_ex; intros ? ].

(** [t] follows [q]: the two listeners that [join] and [chain$] put on
    [q] are in its queues, or [q] was finished and [t] has its result. *)
Definition mirrored (h : heap) (q t : ref) : Prop :=
  (has_success_listener h q (CbSuccess t) /\ has_failure_listener h q (CbFailure t)) \/
  (exists d, succeeded h q d /\ succeeded h t d) \/
  (exists e, failed h q e /\ failed h t e).

Lemma mirrored_stable q t : stable (fun h => mirrored h q t).
Proof. unfold mirrored. stable_tac. Qed.

Definition allocated (h : heap) (r : ref) : Prop := is_Some (cells h !! r).

Lemma allocated_stable r : stable (fun h => allocated h r).
Proof.
  intros h h' (Hc & _) (c & Hr). destruct (Hc _ _ Hr) as (c' & Hr' & _). by exists c'.
Qed.

(** The queue that a finished promise has iterated, or is iterating, on a
    channel, and the arguments it calls the listeners with. *)
Inductive chan := Matching | Finish.

#[global] Instance chan_eq_dec : EqDecision chan.
Proof. solve_decision. Defined.

Definition queue (c : cell) (ch : chan) : option (list callback * list value) :=
  match _state c, ch with
  | PENDING, _ => None
  | SUCCEEDED, Matching => Some (_successListeners c, [_data c])
  | FAILED, Matching => Some (_failureListeners c, [_error c])
  | s, Finish => Some (_finishListeners c, [VStr (state_name s); _data c; _error c])
  end.

Section Achieved.

Variable fenv : nat -> list value -> action.

(** [x] is the promise that [fmap(f)] returned for the promise [sv]: its
    two listeners are in the queues of [sv], or [sv] was finished and [x]
    was resolved at once. *)
Definition fmapped_by (P : value -> value -> heap -> Prop)
           (h : heap) (sv : value) (f : fn) (x : ref) : Prop :=
  exists s, sv = VPromise s /\
    ((has_success_listener h s (CbFmap f x) /\ has_failure_listener h s (CbFailure x)) \/
     (exists d v, succeeded h s d /\ succeeded h x v /\ P d v h) \/
     (exists e, failed h s e /\ failed h x e)).

(** [t] is the promise that [join] returned for the promise [sv]. *)
Definition joined (h : heap) (sv : value) (t : ref) : Prop :=
  exists s, sv = VPromise s /\
    ((has_success_listener h s (CbJoin t) /\ has_failure_listener h s (CbFailure t)) \/
     (exists q, succeeded h s (VPromise q) /\ mirrored h q t) \/
     (exists e, failed h s e /\ failed h t e)).

(** What a function of the caller has returned. *)
Definition action_post (a : action) (v : value) (h : heap) : Prop :=
  match a with
  | AReturn v' => v = v'
  | AThrow _ => False
  | AUnit v' => exists q, v = VPromise q /\ succeeded h q v'
  | AFailed e => exists q, v = VPromise q /\ failed h q e
  | APending => exists q, v = VPromise q /\ allocated h q
  end.

(** [fpost f args v h]: [f(args...)] has returned [v]. *)
Fixpoint fpost (f : fn) (args : list value) (v : value) (h : heap) : Prop :=
  match f with
  | FUser id => action_post (fenv id args) v h
  | F__errorToData__ => v = VNull
  | FUnit => exists q, v = VPromise q /\ succeeded h q (first_arg args)
  | FFlatMapAfter g f' =>
      exists v1 x r,
        fpost f' [first_arg args] v1 h /\ v = VPromise r /\
        fmapped_by (fun d v' => fpost g [d] v') h v1 g x /\
        joined h (VPromise x) r
  end.

Definition fmapped (h : heap) (sv : value) (f : fn) (x : ref) : Prop :=
  fmapped_by (fun d v => fpost f [d] v) h sv f x.

(** [r] is the promise that [flatMap(f)] returned for the promise [sv]. *)
Definition flatmapped (h : heap) (sv : value) (f : fn) (r : ref) : Prop :=
  exists x, fmapped h sv f x /\ joined h (VPromise x) r.

(** [post cb args h]: [cb(args...)] has returned. *)
Definition post (cb : callback) (args : list value) (h : heap) : Prop :=
  match cb with
  | CbUser _ => True
  | CbSuccessConst p v => succeeded h p v
  | CbFailureConst p v => failed h p v
  | CbSuccess p => succeeded h p (first_arg args)
  | CbFailure p => failed h p (first_arg args)
  | CbFmap f r => exists v, succeeded h r v /\ fpost f [first_arg args] v h
  | CbJoin t => exists q, first_arg args = VPromise q /\ mirrored h q t
  | CbLiftA _ _ _ _ => True
  | CbContinue p1 f r2 =>
      exists r1, fpost f [p1] r1 h /\
                 if not_null r1 then exists q, r1 = VPromise q /\ mirrored h q r2
                 else succeeded h r2 VNull
  end.

Lemma joined_stable sv t : stable (fun h => joined h sv t).
Proof. unfold joined. stable_tac. Qed.

Lemma fmapped_by_stable P sv f x :
  (forall d v, stable (P d v)) -> stable (fun h => fmapped_by P h sv f x).
Proof. intros HP. unfold fmapped_by. stable_tac; try apply HP. Qed.

Lemma action_post_stable a v : stable (action_post a v).
Proof.
  intros h h' He. destruct a; cbn; try done.
  - intros (q & -> & Hq). exists q. split; [done|]. by eapply succeeded_stable.
  - intros (q & -> & Hq). exists q. split; [done|]. by eapply failed_stable.
  - intros (q & -> & Hq). exists q. split; [done|]. by eapply allocated_stable.
Qed.

Lemma fpost_stable f : forall args v, stable (fpost f args v).
Proof.
  induction f as [id| | |g IHg f' IHf']; intros args v h h' He; cbn [fpost].
  - by apply action_post_stable.
  - done.
  - intros (q & -> & Hq). exists q. split; [done|]. by eapply succeeded_stable.
  - intros (v1 & x & r & H1 & -> & H2 & H3). exists v1, x, r.
    split; [by eapply IHf'|]. split; [done|]. split.
    + eapply (fmapped_by_stable _ v1 g x); [|done|done]. intros. apply IHg.
    + by eapply joined_stable.
Qed.

Lemma fmapped_stable sv f x : stable (fun h => fmapped h sv f x).
Proof. apply fmapped_by_stable. intros. apply fpost_stable. Qed.

Lemma flatmapped_stable sv f r : stable (fun h => flatmapped h sv f r).
Proof.
  intros h h' He (x & H1 & H2). exists x.
  split; [by eapply fmapped_stable|by eapply joined_stable].
Qed.

Lemma post_stable cb args : stable (post cb args).
Proof.
  intros h h' He. destruct cb; cbn [post]; try done.
  - by apply succeeded_stable.
  - by apply failed_stable.
  - by apply succeeded_stable.
  - by apply failed_stable.
  - intros (v & H1 & H2). exists v.
    split; [by eapply succeeded_stable|by eapply fpost_stable].
  - intros (q & H1 & H2). exists q. split; [done|by eapply mirrored_stable].
  - intros (r1 & H1 & H2). exists r1. split; [by eapply fpost_stable|].
    destruct (not_null r1).
    + destruct H2 as (q & -> & H2). exists q. split; [done|by eapply mirrored_stable].
    + by eapply succeeded_stable.
Qed.

(** The listeners that are yet to be called: positions in the queues of
    promises that are being resolved. *)
Definition exempt := ref -> chan -> nat -> Prop.

Definition no_exempt : exempt := fun _ _ _ => False.

(** [settled k h]: every listener in a queue that a finished promise has
    iterated has returned, those in [k] apart. *)
Definition settled (k : exempt) (h : heap) : Prop :=
  forall s c ch q args i cb,
    cells h !! s = Some c -> queue c ch = Some (q, args) -> q !! i = Some cb ->
    ~ k s ch i -> post cb args h.

End Achieved.

Section Settled.

Variable fenv : nat -> list value -> action.

Local Abbreviation settled' := (settled fenv).
Local Abbreviation post' := (post fenv).

Definition no_throw : heap -> Prop := fun _ => True.

(** A change of the heap that finishes no promise keeps the heap settled. *)
Lemma settled_evolves k h h' :
  heap_evolves h h' ->
  (forall s c', cells h' !! s = Some c' -> _state c' <> PENDING ->
                exists c, cells h !! s = Some c /\ _state c <> PENDING) ->
  settled' k h -> settled' k h'.
Proof.
  intros He Hnew Hk s c' ch q args i cb Hs Hq Hi Hex.
  assert (_state c' <> PENDING) as Hne.
  { intros Hp. unfold queue in Hq. by rewrite Hp in Hq. }
  destruct (Hnew _ _ Hs Hne) as (c & Hc & Hcne).
  assert (c' = c) as ->.
  { pose proof (evolves_frozen _ _ _ _ He Hc Hcne). congruence. }
  eapply post_stable; [exact He|]. by eapply Hk.
Qed.

Lemma settled_alloc k h o : settled' k h -> settled' k (alloc h (fresh_cell o)).
Proof.
  apply settled_evolves; [apply evolves_new_cell|].
  intros s c' Hs Hne. cbn in Hs. apply lookup_app_Some in Hs as [Hs|[_ Hs]]; [eauto|].
  destruct (s - length (cells h)); [|done]. by injection Hs as <-.
Qed.

Lemma settled_update_pending k h r c c' :
  cells h !! r = Some c -> _state c' = PENDING -> cell_evolves c c' ->
  settled' k h -> settled' k (update_cell h r c').
Proof.
  intros Hr Hs Hev. apply settled_evolves; [by eapply evolves_set_cell|].
  intros s c0 Hs0 Hne. cbn in Hs0. destruct (decide (s = r)) as [->|Hsr].
  - rewrite list_lookup_insert_eq in Hs0 by (by eapply lookup_lt_Some). congruence.
  - rewrite list_lookup_insert_ne in Hs0 by done. eauto.
Qed.

Lemma settled_same_cells k h h' :
  cells h' = cells h -> heap_evolves h h' -> settled' k h -> settled' k h'.
Proof.
  intros Hc He. apply settled_evolves; [done|]. rewrite Hc. eauto.
Qed.

Lemma settled_weaken (k k' : exempt) h :
  (forall s ch i, k s ch i -> k' s ch i) -> settled' k h -> settled' k' h.
Proof. intros Hk Hs s c ch q args i cb Hc Hq Hi Hex. eapply Hs; eauto. Qed.

(** While [p] is being resolved, all its listeners are yet to be called. *)
Definition resolving (k : exempt) (p : ref) (X : chan -> nat -> Prop) : exempt :=
  fun s ch i => k s ch i \/ (s = p /\ X ch i).

Lemma settled_resolve k h p c s d e :
  cells h !! p = Some c -> _state c = PENDING -> s <> PENDING ->
  settled' k h ->
  settled' (resolving k p (fun _ _ => True)) (update_cell h p (set_state c s d e)).
Proof.
  intros Hp Hs Hne Hk s0 c0 ch q args i cb Hs0 Hq Hi Hex.
  cbn in Hs0. destruct (decide (s0 = p)) as [->|Hsp].
  - exfalso. apply Hex. by right.
  - rewrite list_lookup_insert_ne in Hs0 by done.
    eapply post_stable; [|eapply Hk; eauto].
    + eapply evolves_set_cell; [done|]. by apply cell_evolves_set_state.
    + intros Hk0. apply Hex. by left.
Qed.

Section Achieving.

Variable rec : task -> M value.

Definition task_post (t : task) (v : value) (h : heap) : Prop :=
  match t with
  | Invoke cb args => post' cb args h
  | Call f args => fpost fenv f args v h
  end.

Hypothesis Hrec_evolving : forall t, evolving any_heap (rec t).
Hypothesis Hrec :
  forall k t h, settled' k h ->
                wp (rec t) h (fun v h' => settled' k h' /\ task_post t v h') no_throw.

(** [achieves k m h Q]: if [m] returns from the settled heap [h], the heap
    is settled again, has evolved from [h], and satisfies [Q]. *)
Definition achieves {A} (k : exempt) (m : M A) (h : heap) (Q : A -> heap -> Prop) : Prop :=
  wp m h (fun a h' => settled' k h' /\ heap_evolves h h' /\ Q a h') no_throw.

Lemma wp_evolving {A} (m : M A) h (Q : A -> heap -> Prop) :
  evolving any_heap m -> wp m h Q no_throw ->
  wp m h (fun a h' => heap_evolves h h' /\ Q a h') no_throw.
Proof.
  intros Hev Hq. specialize (Hev h h Logic.I (heap_evolves_refl h)).
  unfold wp in *. destruct (m h); auto.
Qed.

Lemma achieves_bind {A B} k (m : M A) (f : A -> M B) h Q R :
  achieves k m h Q ->
  (forall a h1, settled' k h1 -> heap_evolves h h1 -> Q a h1 -> achieves k (f a) h1 R) ->
  achieves k (bind m f) h R.
Proof.
  intros Hm Hf. apply wp_bind. eapply wp_mono; [exact Hm| |done].
  cbn. intros a h1 (Hs & He & Hq).
  eapply wp_mono; [by apply Hf| |done].
  cbn. intros b h2 (Hs2 & He2 & Hr). split; [done|]. split; [|done].
  by eapply heap_evolves_trans.
Qed.

Lemma achieves_ret {A} k (a : A) h (Q : A -> heap -> Prop) :
  settled' k h -> Q a h -> achieves k (ret a) h Q.
Proof. intros Hs Hq. split; [done|]. split; [apply heap_evolves_refl|done]. Qed.

Lemma achieves_mono {A} k (m : M A) h (Q Q' : A -> heap -> Prop) :
  achieves k m h Q ->
  (forall a h', heap_evolves h h' -> Q a h' -> Q' a h') ->
  achieves k m h Q'.
Proof.
  intros Hm HQ. eapply wp_mono; [exact Hm| |done].
  cbn. intros a h' (? & ? & ?). auto.
Qed.

Lemma achieves_invoke k cb args h :
  settled' k h -> achieves k (invoke rec cb args) h (fun _ h' => post' cb args h').
Proof.
  intros Hs. unfold invoke. apply wp_bind.
  pose proof (wp_evolving _ h _ (Hrec_evolving (Invoke cb args)) (Hrec k _ h Hs)) as Hw.
  eapply wp_mono; [exact Hw| |done]. cbn. intros v h' (He & Hs' & Hp). done.
Qed.

Lemma achieves_call k f args h :
  settled' k h -> achieves k (call rec f args) h (fun v h' => fpost fenv f args v h').
Proof.
  intros Hs. unfold call.
  pose proof (wp_evolving _ h _ (Hrec_evolving (Call f args)) (Hrec k _ h Hs)) as Hw.
  eapply wp_mono; [exact Hw| |done]. cbn. intros v h' (He & Hs' & Hp). done.
Qed.

Lemma queue_finished c ch q args : queue c ch = Some (q, args) -> _state c <> PENDING.
Proof. unfold queue. by destruct (_state c). Qed.

(** One loop of an entry point: the listeners of the queue of [ch] from
    position [length pre] on are called one after the other; each has
    returned when the next one is called. *)
Lemma drain_loop k p c1 ch qall args X l :
  queue c1 ch = Some (qall, args) ->
  forall pre h,
    qall = pre ++ l ->
    cells h !! p = Some c1 ->
    settled' (resolving k p (fun ch' j => X ch' j \/ (ch' = ch /\ length pre <= j))) h ->
    wp (for_each (fun cb => invoke rec cb args) l) h
       (fun _ h' =>
          settled' (resolving k p (fun ch' j => X ch' j \/ (ch' = ch /\ length qall <= j))) h' /\
          heap_evolves h h')
       no_throw.
Proof.
  intros Hq. pose proof (queue_finished _ _ _ _ Hq) as Hfin.
  induction l as [|cb l IH]; intros pre h Hall Hp Hs; cbn [for_each].
  - cbn. rewrite app_nil_r in Hall. subst qall.
    split; [done|apply heap_evolves_refl].
  - apply wp_bind. eapply wp_mono; [by apply achieves_invoke| |done].
    cbn. intros _ h1 (Hs1 & He1 & Hpost).
    assert (cells h1 !! p = Some c1) as Hp1 by (by eapply evolves_frozen).
    eapply wp_mono; [apply (IH (pre ++ [cb]) h1)| |done].
    + by rewrite <- app_assoc.
    + done.
    + intros s c ch' q args' i cb' Hc Hq' Hi Hex.
      destruct (decide (s = p /\ ch' = ch /\ i = length pre)) as [(-> & -> & ->)|Hne].
      * assert (c = c1) as -> by congruence.
        rewrite Hq in Hq'. injection Hq' as <- <-.
        rewrite Hall, lookup_app_r, Nat.sub_diag in Hi by done.
        by injection Hi as <-.
      * eapply Hs1; eauto. intros [Hk|(-> & [HX|(-> & Hle)])]; apply Hex.
        -- by left.
        -- right. split; [done|]. by left.
        -- right. split; [done|]. right. split; [done|].
           rewrite length_app. cbn.
           destruct (decide (i = length pre)) as [->|?]; [|lia].
           exfalso. by apply Hne.
    + cbn. intros _ h2 (Hs2 & He2). split; [done|]. by eapply heap_evolves_trans.
Qed.

(** Both loops of an entry point, from the heap in which the promise has
    just been given its final state. *)
Lemma drain_achieves k p c1 margs fargs ls fs h :
  queue c1 Matching = Some (ls, margs) ->
  queue c1 Finish = Some (fs, fargs) ->
  cells h !! p = Some c1 ->
  settled' (resolving k p (fun _ _ => True)) h ->
  wp (for_each (fun cb => invoke rec cb margs) ls ;;;
      for_each (fun cb => invoke rec cb fargs) fs ;;;
      ret VUndefined) h
     (fun _ h' => settled' k h' /\ heap_evolves h h') no_throw.
Proof.
  intros Hm Hf Hp Hs. pose proof (queue_finished _ _ _ _ Hm) as Hfin.
  apply wp_bind.
  eapply wp_mono;
    [apply (drain_loop k p c1 Matching ls margs (fun ch' _ => ch' = Finish) ls Hm [] h);
     [done|done|]| |done].
  { eapply settled_weaken; [|exact Hs]. intros s ch i [?|(-> & _)]; [by left|].
    right. split; [done|]. destruct ch; [right; cbn; split; [done|lia]|by left]. }
  cbn. intros _ h1 (Hs1 & He1).
  assert (cells h1 !! p = Some c1) as Hp1 by (by eapply evolves_frozen).
  apply wp_bind.
  eapply wp_mono;
    [apply (drain_loop k p c1 Finish fs fargs
              (fun ch' j => ch' = Matching /\ length ls <= j) fs Hf [] h1);
     [done|done|]| |done].
  { eapply settled_weaken; [|exact Hs1]. intros s ch i [?|(-> & Hx)]; [by left|].
    right. split; [done|]. destruct Hx as [->|(-> & ?)].
    - right. cbn. split; [done|lia].
    - left. done. }
  cbn. intros _ h2 (Hs2 & He2).
  assert (cells h2 !! p = Some c1) as Hp2 by (by eapply evolves_frozen).
  split; [|by eapply heap_evolves_trans].
  intros s c ch q args i cb Hc Hq Hi Hex. eapply Hs2; eauto.
  intros [Hk|(-> & Hx)]; [done|].
  assert (c = c1) as -> by congruence.
  apply lookup_lt_Some in Hi.
  destruct Hx as [(-> & Hle)|(-> & Hle)].
  - rewrite Hm in Hq. injection Hq as <- <-. lia.
  - rewrite Hf in Hq. injection Hq as <- <-. lia.
Qed.

Lemma achieves__notifySuccess__ k p d h :
  settled' k h ->
  achieves k (__notifySuccess__ rec p d) h (fun _ h' => succeeded h' p d).
Proof.
  intros Hs. unfold achieves.
  destruct (cells h !! p) as [c|] eqn:Hp;
    [|by unfold wp, __notifySuccess__, bind, get_cell; rewrite Hp].
  destruct (decide (_state c = PENDING)) as [Hc|Hc];
    [|by unfold wp; rewrite (__notifySuccess__finished _ _ _ _ _ Hp Hc)].
  unfold wp at 1. rewrite (__notifySuccess__pending _ _ _ _ _ Hp Hc). fold (@wp value).
  set (c1 := set_state c SUCCEEDED d (_error c)).
  assert (heap_evolves h (update_cell h p c1)) as He0.
  { eapply evolves_set_cell; [done|]. by apply cell_evolves_set_state. }
  eapply wp_mono;
    [apply (drain_achieves k p c1 [d] [VStr "SUCCEEDED"; d; _error c]
              (_successListeners c) (_finishListeners c))| |done].
  - done.
  - done.
  - by eapply lookup_update_cell.
  - by apply settled_resolve.
  - cbn. intros _ h' (Hs' & He'). split; [done|]. split; [by eapply heap_evolves_trans|].
    exists c1. split; [|done].
    eapply evolves_frozen; [done|by eapply lookup_update_cell|done].
Qed.

Lemma achieves__notifyFailure__ k p e h :
  settled' k h ->
  achieves k (__notifyFailure__ rec p e) h (fun _ h' => failed h' p e).
Proof.
  intros Hs. unfold achieves.
  destruct (cells h !! p) as [c|] eqn:Hp;
    [|by unfold wp, __notifyFailure__, bind, get_cell; rewrite Hp].
  destruct (decide (_state c = PENDING)) as [Hc|Hc];
    [|by unfold wp; rewrite (__notifyFailure__finished _ _ _ _ _ Hp Hc)].
  unfold wp at 1. rewrite (__notifyFailure__pending _ _ _ _ _ Hp Hc). fold (@wp value).
  set (c1 := set_state c FAILED (_data c) e).
  assert (heap_evolves h (update_cell h p c1)) as He0.
  { eapply evolves_set_cell; [done|]. by apply cell_evolves_set_state. }
  eapply wp_mono;
    [apply (drain_achieves k p c1 [e] [VStr "FAILED"; _data c; e]
              (_failureListeners c) (_finishListeners c))| |done].
  - done.
  - done.
  - by eapply lookup_update_cell.
  - by apply settled_resolve.
  - cbn. intros _ h' (Hs' & He'). split; [done|]. split; [by eapply heap_evolves_trans|].
    exists c1. split; [|done].
    eapply evolves_frozen; [done|by eapply lookup_update_cell|done].
Qed.

Lemma pending_not_succeeded h r d : pending h r -> succeeded h r d -> False.
Proof. intros (c & Hc & Hs) (c' & Hc' & Hs' & _). congruence. Qed.

Lemma pending_not_failed h r e : pending h r -> failed h r e -> False.
Proof. intros (c & Hc & Hs) (c' & Hc' & Hs' & _). congruence. Qed.

Lemma succeeded_not_failed h r d e : succeeded h r d -> failed h r e -> False.
Proof. intros (c & Hc & Hs & _) (c' & Hc' & Hs' & _). congruence. Qed.

Lemma succeeded_inj h r d d' : succeeded h r d -> succeeded h r d' -> d = d'.
Proof. intros (c & Hc & _ & Hd) (c' & Hc' & _ & Hd'). congruence. Qed.

Lemma failed_inj h r e e' : failed h r e -> failed h r e' -> e = e'.
Proof. intros (c & Hc & _ & Hd) (c' & Hc' & _ & Hd'). congruence. Qed.

(** Registration of a listener: it is stored while the promise is
    PENDING, and has returned if the promise was finished on its channel. *)
Lemma achieves_registerSuccessListener k s cb h :
  settled' k h ->
  achieves k (registerSuccessListener rec s cb) h
    (fun _ h' =>
       (pending h s /\ pending h' s /\ has_success_listener h' s cb) \/
       (exists d, succeeded h s d /\ post' cb [d] h') \/
       (exists e, failed h s e)).
Proof.
  intros Hs. unfold achieves.
  destruct (cells h !! s) as [c|] eqn:Hc;
    [|by unfold wp, registerSuccessListener, bind, get_cell; rewrite Hc].
  destruct (_state c) eqn:Hst.
  - unfold wp. rewrite (registerSuccessListener_pending _ _ _ _ _ Hc Hst).
    split; [|split].
    + eapply settled_update_pending; eauto using cell_evolves_push_success.
    + eapply evolves_set_cell; eauto using cell_evolves_push_success.
    + left. split; [by exists c|].
      split; exists (push_success c cb);
        (split; [by eapply lookup_update_cell|]); [done|].
      cbn. apply elem_of_app. right. by left.
  - unfold wp at 1. rewrite (registerSuccessListener_succeeded _ _ _ _ _ Hc Hst).
    fold (@wp value). apply wp_bind.
    eapply wp_mono; [by apply achieves_invoke| |done].
    cbn. intros _ h' (Hs' & He & Hp). split; [done|]. split; [done|].
    right. left. exists (_data c). split; [by exists c|done].
  - unfold wp. rewrite (registerSuccessListener_failed _ _ _ _ _ Hc Hst).
    split; [done|]. split; [apply heap_evolves_refl|].
    right. right. exists (_error c). by exists c.
Qed.

Lemma achieves_registerFailureListener k s cb h :
  settled' k h ->
  achieves k (registerFailureListener rec s cb) h
    (fun _ h' =>
       (pending h s /\ pending h' s /\ has_failure_listener h' s cb) \/
       (exists d, succeeded h s d) \/
       (exists e, failed h s e /\ post' cb [e] h')).
Proof.
  intros Hs. unfold achieves.
  destruct (cells h !! s) as [c|] eqn:Hc;
    [|by unfold wp, registerFailureListener, bind, get_cell; rewrite Hc].
  destruct (_state c) eqn:Hst.
  - unfold wp. rewrite (registerFailureListener_pending _ _ _ _ _ Hc Hst).
    split; [|split].
    + eapply settled_update_pending; eauto using cell_evolves_push_failure.
    + eapply evolves_set_cell; eauto using cell_evolves_push_failure.
    + left. split; [by exists c|].
      split; exists (push_failure c cb);
        (split; [by eapply lookup_update_cell|]); [done|].
      cbn. apply elem_of_app. right. by left.
  - unfold wp. rewrite (registerFailureListener_succeeded _ _ _ _ _ Hc Hst).
    split; [done|]. split; [apply heap_evolves_refl|].
    right. left. exists (_data c). by exists c.
  - unfold wp at 1. rewrite (registerFailureListener_failed _ _ _ _ _ Hc Hst).
    fold (@wp value). apply wp_bind.
    eapply wp_mono; [by apply achieves_invoke| |done].
    cbn. intros _ h' (Hs' & He & Hp). split; [done|]. split; [done|].
    right. right. exists (_error c). split; [by exists c|done].
Qed.

(** The two registrations that every combinator makes on its input. *)
Definition subscribed (h : heap) (s : ref) (cbS cbF : callback) : Prop :=
  (has_success_listener h s cbS /\ has_failure_listener h s cbF) \/
  (exists d, succeeded h s d /\ post' cbS [d] h) \/
  (exists e, failed h s e /\ post' cbF [e] h).

Lemma achieves_subscribe {A} k s cbS cbF (x : A) h :
  settled' k h ->
  achieves k (registerSuccessListener rec s cbS ;;;
              registerFailureListener rec s cbF ;;;
              ret x) h
    (fun a h' => a = x /\ subscribed h' s cbS cbF).
Proof.
  intros Hs. eapply achieves_bind; [by apply achieves_registerSuccessListener|].
  intros ? h1 Hs1 He1 H1.
  eapply achieves_bind; [by apply achieves_registerFailureListener|].
  intros ? h2 Hs2 He2 H2. apply achieves_ret; [done|]. split; [done|].
  destruct H1 as [(Hp & Hp1 & Hl1)|[(d & Hd & Hpost)|(e & Hf)]].
  - destruct H2 as [(_ & _ & Hl2)|[(d & Hd)|(e & Hf & _)]].
    + left. split; [|done]. by eapply has_success_listener_stable.
    + exfalso. by eapply pending_not_succeeded.
    + exfalso. by eapply pending_not_failed.
  - right. left. exists d. split.
    + eapply succeeded_stable; [|exact Hd]. by eapply heap_evolves_trans.
    + by eapply post_stable.
  - pose proof (failed_stable _ _ _ _ He1 Hf) as Hf1. cbn in Hf1.
    destruct H2 as [(Hp & _)|[(d & Hd)|(e' & Hf' & Hpost)]].
    + exfalso. by eapply pending_not_failed.
    + exfalso. by eapply succeeded_not_failed.
    + right. right. exists e'. split; [by eapply failed_stable|done].
Qed.

Lemma achieves_as_promise k v h (Q : ref -> heap -> Prop) :
  settled' k h -> (forall r, v = VPromise r -> Q r h) -> achieves k (as_promise v) h Q.
Proof.
  intros Hs HQ. destruct v; try done. cbn.
  split; [done|]. split; [apply heap_evolves_refl|auto].
Qed.

Lemma achieves_promise k o h :
  settled' k h ->
  achieves k (promise o) h (fun r h' => r = length (cells h) /\ allocated h' r).
Proof.
  intros Hs. unfold achieves, wp. rewrite promise_eq.
  split; [by apply settled_alloc|]. split; [apply evolves_new_cell|].
  split; [done|]. eexists. apply lookup_alloc_new.
Qed.

Lemma achieves_unit k d h :
  settled' k h -> achieves k (cbl_unit rec d) h (fun p h' => succeeded h' p d).
Proof.
  intros Hs. unfold cbl_unit.
  eapply achieves_bind; [by apply achieves_promise|]. intros p h1 Hs1 He1 _.
  eapply achieves_bind; [by apply achieves__notifySuccess__|]. intros ? h2 Hs2 He2 Hp.
  by apply achieves_ret.
Qed.

Lemma achieves_fmap k f sv h :
  settled' k h -> achieves k (fmap rec f sv) h (fun x h' => fmapped fenv h' sv f x).
Proof.
  intros Hs. unfold fmap.
  eapply achieves_bind; [by apply achieves_promise|]. intros x h1 Hs1 He1 _.
  eapply achieves_bind;
    [by apply (achieves_as_promise k sv h1 (fun r _ => sv = VPromise r))|].
  intros s h2 Hs2 He2 ->.
  eapply achieves_mono; [by apply achieves_subscribe|].
  cbn. intros a h3 He3 (-> & Hsub). exists s. split; [done|].
  destruct Hsub as [Hw|[(d & Hd & v & Hv & Hf)|(e & He & Hx)]].
  - by left.
  - right. left. by exists d, v.
  - right. right. by exists e.
Qed.

Lemma achieves_join k sv h :
  settled' k h -> achieves k (join rec sv) h (fun t h' => joined h' sv t).
Proof.
  intros Hs. unfold join.
  eapply achieves_bind; [by apply achieves_promise|]. intros t h1 Hs1 He1 _.
  eapply achieves_bind;
    [by apply (achieves_as_promise k sv h1 (fun r _ => sv = VPromise r))|].
  intros s h2 Hs2 He2 ->.
  eapply achieves_mono; [by apply achieves_subscribe|].
  cbn. intros a h3 He3 (-> & Hsub). exists s. split; [done|].
  destruct Hsub as [Hw|[(d & Hd & q & Hq & Hm)|(e & He & Hx)]].
  - by left.
  - right. left. exists q. cbn in Hq. by subst d.
  - right. right. by exists e.
Qed.

Lemma achieves_flatMap k f sv h :
  settled' k h -> achieves k (flatMap rec f sv) h (fun r h' => flatmapped fenv h' sv f r).
Proof.
  intros Hs. unfold flatMap.
  eapply achieves_bind; [by apply achieves_fmap|]. intros x h1 Hs1 He1 Hx.
  eapply achieves_mono; [by apply achieves_join|].
  cbn. intros r h2 He2 Hr. exists x. split; [by eapply fmapped_stable|done].
Qed.

Lemma achieves_chain_ k p1 p2 h :
  settled' k h ->
  achieves k (chain_ rec p1 p2) h
    (fun _ h' => exists q, p1 = VPromise q /\ mirrored h' q p2).
Proof.
  intros Hs. unfold chain_.
  eapply achieves_bind;
    [by apply (achieves_as_promise k p1 h (fun r _ => p1 = VPromise r))|].
  intros s h2 Hs2 He2 ->.
  eapply achieves_mono; [by apply achieves_subscribe|].
  cbn. intros a h3 He3 (_ & Hsub). exists s. split; [done|].
  destruct Hsub as [Hw|[(d & Hd & Hp)|(e & He & Hx)]].
  - by left.
  - right. left. by exists d.
  - right. right. by exists e.
Qed.

Lemma achieves_throw {A} k e h (Q : A -> heap -> Prop) : achieves k (throw e) h Q.
Proof. done. Qed.

Lemma achieves_log k ev h :
  settled' k h -> achieves k (log ev) h (fun _ _ => True).
Proof.
  intros Hs. unfold achieves, wp, log.
  split; [eapply (settled_same_cells k h); [done|apply evolves_log|done]|].
  split; [apply evolves_log|done].
Qed.

Lemma achieves_set_frame k e f h :
  settled' k h -> achieves k (set_frame e f) h (fun _ _ => True).
Proof.
  intros Hs. unfold achieves, wp, set_frame.
  split; [eapply (settled_same_cells k h); [done|apply evolves_set_frame|done]|].
  split; [apply evolves_set_frame|done].
Qed.

Lemma achieves_get_frame k e h :
  settled' k h -> achieves k (get_frame e) h (fun _ _ => True).
Proof.
  intros Hs. unfold achieves, wp, get_frame. destruct (frames h !! e); [|done].
  split; [done|]. split; [apply heap_evolves_refl|done].
Qed.

Lemma achieves_getData k r h :
  settled' k h -> achieves k (getData rec r) h (fun _ _ => True).
Proof.
  intros Hs. unfold achieves.
  destruct (cells h !! r) as [c|] eqn:Hc;
    [|by unfold wp, getData, bind, get_cell; rewrite Hc].
  unfold wp at 1, getData, bind at 1, get_cell. rewrite Hc. fold (@wp value).
  destruct (_state c); [done| |].
  - split; [done|]. split; [apply heap_evolves_refl|done].
  - destruct (opt__errorToData__ (_options c)); [|done].
    eapply achieves_mono; [by apply achieves_call|done].
Qed.

Lemma achieves_map_m {A B} k (f : A -> M B) l h :
  (forall x h', settled' k h' -> achieves k (f x) h' (fun _ _ => True)) ->
  settled' k h -> achieves k (map_m f l) h (fun _ _ => True).
Proof.
  intros Hf. revert h. induction l as [|x l IH]; intros h Hs; cbn [map_m].
  - by apply achieves_ret.
  - eapply achieves_bind; [by apply Hf|]. intros y h1 Hs1 _ _.
    eapply achieves_bind; [by apply IH|]. intros ys h2 Hs2 _ _.
    by apply achieves_ret.
Qed.

Lemma achieves_run_callback k cb args h :
  settled' k h ->
  achieves k (run_callback rec cb args) h (fun _ h' => post' cb args h').
Proof.
  intros Hs. destruct cb as [id|p v|p v|p|p|f r|t|f n env r|p1 f r2];
    cbn [run_callback post].
  - eapply achieves_bind; [by apply achieves_log|]. intros ? h1 Hs1 _ _.
    by apply achieves_ret.
  - by apply achieves__notifySuccess__.
  - by apply achieves__notifyFailure__.
  - by apply achieves__notifySuccess__.
  - by apply achieves__notifyFailure__.
  - eapply achieves_bind; [by apply achieves_call|]. intros v h1 Hs1 He1 Hv.
    eapply achieves_mono; [by apply achieves__notifySuccess__|].
    cbn. intros _ h2 He2 Hr. exists v. split; [done|by eapply fpost_stable].
  - eapply achieves_bind;
      [by apply (achieves_as_promise k _ h (fun q _ => first_arg args = VPromise q))|].
    intros q h1 Hs1 He1 Hq.
    eapply achieves_mono; [by apply achieves_subscribe|].
    cbn. intros a h2 He2 (_ & Hsub). exists q. split; [done|].
    destruct Hsub as [Hw|[(d & Hd & Hp)|(e & He & Hx)]].
    + by left.
    + right. left. by exists d.
    + right. right. by exists e.
  - eapply achieves_bind; [by apply achieves_get_frame|]. intros fr h1 Hs1 _ _.
    eapply achieves_bind; [by apply achieves_set_frame|]. intros ? h2 Hs2 _ _.
    destruct (Nat.eqb (S (finishedCount fr)) n); [|by apply achieves_ret].
    eapply achieves_bind.
    { apply achieves_map_m; [|done]. intros x h' Hs'.
      eapply achieves_bind;
        [by apply (achieves_as_promise k _ h' (fun _ _ => True))|].
      intros p h'' Hs'' _ _. by apply achieves_getData. }
    intros vs h3 Hs3 _ _.
    eapply achieves_bind; [by apply achieves_call|]. intros v h4 Hs4 _ _.
    eapply achieves_mono; [by apply achieves__notifySuccess__|done].
  - eapply achieves_bind; [by apply achieves_call|]. intros r1 h1 Hs1 He1 Hr1.
    destruct (not_null r1) eqn:Hnn.
    + eapply achieves_bind; [by apply achieves_chain_|]. intros ? h2 Hs2 He2 Hm.
      apply achieves_ret; [done|]. exists r1. split; [by eapply fpost_stable|].
      by rewrite Hnn.
    + eapply achieves_mono; [by apply achieves__notifySuccess__|].
      cbn. intros _ h2 He2 Hr. exists r1. split; [by eapply fpost_stable|].
      by rewrite Hnn.
Qed.

Lemma achieves_run_fn k f args h :
  settled' k h ->
  achieves k (run_fn fenv rec f args) h (fun v h' => fpost fenv f args v h').
Proof.
  intros Hs. destruct f as [id| | |g f']; cbn [run_fn fpost].
  - eapply achieves_bind; [by apply achieves_log|]. intros ? h1 Hs1 _ _.
    destruct (fenv id args) as [v|e|v|e|]; cbn [action_post].
    + by apply achieves_ret.
    + apply achieves_throw.
    + eapply achieves_bind; [by apply achieves_unit|]. intros p h2 Hs2 _ Hp.
      apply achieves_ret; [done|]. by exists p.
    + eapply achieves_bind; [by apply achieves_promise|]. intros p h2 Hs2 _ _.
      eapply achieves_bind; [by apply achieves__notifyFailure__|].
      intros ? h3 Hs3 _ Hp. apply achieves_ret; [done|]. by exists p.
    + eapply achieves_bind; [by apply achieves_promise|]. intros p h2 Hs2 _ (_ & Hp).
      apply achieves_ret; [done|]. by exists p.
  - by apply achieves_ret.
  - eapply achieves_bind; [by apply achieves_unit|]. intros p h2 Hs2 _ Hp.
    apply achieves_ret; [done|]. by exists p.
  - eapply achieves_bind; [by apply achieves_call|]. intros v1 h1 Hs1 He1 Hv1.
    eapply achieves_bind; [by apply achieves_flatMap|]. intros r h2 Hs2 He2 (x & Hx & Hj).
    apply achieves_ret; [done|]. exists v1, x, r.
    split; [by eapply fpost_stable|]. done.
Qed.

Lemma achieves_registerFinishListener k s cb h :
  settled' k h ->
  achieves k (registerFinishListener rec s cb) h (fun _ _ => True).
Proof.
  intros Hs. unfold achieves.
  destruct (cells h !! s) as [c|] eqn:Hc;
    [|by unfold wp, registerFinishListener, bind, get_cell; rewrite Hc].
  destruct (decide (_state c = PENDING)) as [Hst|Hst].
  - unfold wp. rewrite (registerFinishListener_pending _ _ _ _ _ Hc Hst).
    split; [|split; [|done]].
    + eapply settled_update_pending; eauto using cell_evolves_push_finish.
    + eapply evolves_set_cell; eauto using cell_evolves_push_finish.
  - unfold wp at 1. rewrite (registerFinishListener_finished _ _ _ _ _ Hc Hst).
    fold (@wp value). apply wp_bind.
    eapply wp_mono; [by apply achieves_invoke| |done].
    cbn. intros _ h' (Hs' & He & Hp). done.
Qed.

Lemma achieves_for_each {A} k (f : A -> M unit) l h :
  (forall x h', settled' k h' -> achieves k (f x) h' (fun _ _ => True)) ->
  settled' k h -> achieves k (for_each f l) h (fun _ _ => True).
Proof.
  intros Hf. revert h. induction l as [|x l IH]; intros h Hs; cbn [for_each].
  - by apply achieves_ret.
  - eapply achieves_bind; [by apply Hf|]. intros y h1 Hs1 _ _. by apply IH.
Qed.

Lemma achieves_new_frame k f h :
  settled' k h -> achieves k (new_frame f) h (fun _ _ => True).
Proof.
  intros Hs. unfold achieves, wp, new_frame.
  split; [eapply (settled_same_cells k h); [done|apply evolves_new_frame|done]|].
  split; [apply evolves_new_frame|done].
Qed.

Lemma achieves_liftA k f args h :
  settled' k h -> achieves k (liftA rec f args) h (fun _ _ => True).
Proof.
  intros Hs. unfold liftA.
  eapply achieves_bind; [by apply achieves_promise|]. intros r h1 Hs1 _ _.
  eapply achieves_bind; [by apply achieves_new_frame|]. intros env h2 Hs2 _ _.
  eapply achieves_bind; [|intros ? h3 Hs3 _ _; by apply achieves_ret].
  apply achieves_for_each; [|done]. intros arg h' Hs'.
  eapply achieves_bind; [by apply achieves_get_frame|]. intros fr h4 Hs4 _ _.
  eapply achieves_bind; [by apply achieves_set_frame|]. intros ? h5 Hs5 _ _.
  eapply achieves_bind;
    [by apply (achieves_as_promise k _ h5 (fun _ _ => True))|].
  intros p h6 Hs6 _ _.
  eapply achieves_bind; [by apply achieves_registerFinishListener|].
  intros ? h7 Hs7 _ _. by apply achieves_ret.
Qed.

Lemma achieves_continue_ k p1 f h :
  settled' k h -> achieves k (continue_ rec p1 f) h (fun _ _ => True).
Proof.
  intros Hs. unfold continue_.
  eapply achieves_bind; [by apply achieves_promise|]. intros r h1 Hs1 _ _.
  eapply achieves_bind;
    [by apply (achieves_as_promise k _ h1 (fun _ _ => True))|].
  intros p h2 Hs2 _ _.
  eapply achieves_bind; [by apply achieves_registerFinishListener|].
  intros ? h3 Hs3 _ _. by apply achieves_ret.
Qed.

Lemma achieves_subscribing k sv cbS cbF h :
  settled' k h ->
  achieves k (p <- promise None ;;
              a <- as_promise sv ;;
              registerSuccessListener rec a (cbS p) ;;;
              registerFailureListener rec a (cbF p) ;;;
              ret p) h (fun _ _ => True).
Proof.
  intros Hs.
  eapply achieves_bind; [by apply achieves_promise|]. intros r h1 Hs1 _ _.
  eapply achieves_bind;
    [by apply (achieves_as_promise k _ h1 (fun _ _ => True))|].
  intros p h2 Hs2 _ _.
  eapply achieves_mono; [by apply achieves_subscribe|done].
Qed.

End Achieving.

(** Every closure and every function, when it returns, has achieved what
    [post] and [fpost] say, and has left the heap settled. *)
Theorem run_achieves n k t h :
  settled' k h ->
  wp (run fenv n t) h (fun v h' => settled' k h' /\ task_post t v h') no_throw.
Proof.
  revert k t h. induction n as [|n IH]; intros k t h Hs; [done|].
  cbn [run]. destruct t as [cb args|f args]; cbn [step].
  - eapply wp_mono;
      [apply (achieves_run_callback (run fenv n) (evolving_run fenv n) IH k cb args h Hs)
      | |done].
    cbn. by intros v h' (Hs' & _ & Hp).
  - eapply wp_mono;
      [apply (achieves_run_fn (run fenv n) (evolving_run fenv n) IH k f args h Hs)
      | |done].
    cbn. by intros v h' (Hs' & _ & Hp).
Qed.

Lemma achieves_settled {A} k (m : M A) h Q :
  achieves k m h Q -> wp m h (fun _ h' => settled' k h') no_throw.
Proof. intros Hm. eapply wp_mono; [exact Hm| |done]. cbn. by intros ? ? (? & _). Qed.

Lemma achieves_as_value k (m : M ref) h Q :
  achieves k m h Q -> wp (as_value m) h (fun _ h' => settled' k h') no_throw.
Proof.
  intros Hm. apply wp_bind. eapply wp_mono; [exact Hm| |done].
  cbn. by intros ? ? (? & _).
Qed.

(** Every operation of a caller that returns leaves the heap settled. *)
Theorem do_op_settled fuel k o h :
  settled' k h -> wp (do_op fenv fuel o) h (fun _ h' => settled' k h') no_throw.
Proof.
  intros Hs.
  pose proof (evolving_run fenv fuel) as Hev.
  pose proof (run_achieves fuel) as Hrec.
  destruct o; cbn [do_op];
    first
      [ eapply achieves_settled, achieves__notifySuccess__; done
      | eapply achieves_settled, achieves__notifyFailure__; done
      | eapply achieves_settled, achieves_registerSuccessListener; done
      | eapply achieves_settled, achieves_registerFailureListener; done
      | eapply achieves_settled, achieves_registerFinishListener; done
      | eapply achieves_settled, achieves_getData; done
      | eapply achieves_as_value, achieves_promise; done
      | eapply achieves_as_value, achieves_unit; done
      | eapply achieves_as_value, achieves_fmap; done
      | eapply achieves_as_value, achieves_join; done
      | eapply achieves_as_value, achieves_flatMap; done
      | eapply achieves_as_value, achieves_liftA; done
      | eapply achieves_as_value, achieves_continue_; done
      | eapply achieves_as_value, achieves_subscribing; done
      | idtac ].
  unfold wp, getState, bind, get_cell. by destruct (cells h !! r).
Qed.

Theorem do_ops_returning_settled fuel k os h h' :
  settled' k h -> do_ops_returning fenv fuel os h = Some h' -> settled' k h'.
Proof.
  revert h. induction os as [|o os IH]; intros h Hs; cbn.
  - by intros [= <-].
  - pose proof (do_op_settled fuel k o h Hs) as Hw. unfold wp in Hw.
    destruct (do_op fenv fuel o h); [by apply IH|done|done].
Qed.

Lemma settled_empty k : settled' k empty_heap.
Proof. intros s c ch q args i cb Hc. done. Qed.

End Settled.

(** ** What follows in a settled heap *)

Section Results.

Variable fenv : nat -> list value -> action.

Local Abbreviation consistent := (settled fenv no_exempt).

Lemma settled_success_listener h s cb d :
  consistent h -> has_success_listener h s cb -> succeeded h s d ->
  post fenv cb [d] h.
Proof.
  intros Hs (c & Hc & Hin) (c' & Hc' & Hst & Hd).
  assert (c' = c) as -> by congruence.
  apply list_elem_of_lookup in Hin as (i & Hi).
  eapply (Hs s c Matching _ _ i cb Hc); [|exact Hi|by intros []].
  unfold queue. by rewrite Hst, Hd.
Qed.

Lemma settled_failure_listener h s cb e :
  consistent h -> has_failure_listener h s cb -> failed h s e ->
  post fenv cb [e] h.
Proof.
  intros Hs (c & Hc & Hin) (c' & Hc' & Hst & Hd).
  assert (c' = c) as -> by congruence.
  apply list_elem_of_lookup in Hin as (i & Hi).
  eapply (Hs s c Matching _ _ i cb Hc); [|exact Hi|by intros []].
  unfold queue. by rewrite Hst, Hd.
Qed.

(** A promise that follows another has its result. *)
Lemma mirrored_result h q t :
  consistent h -> mirrored h q t ->
  (forall d, succeeded h q d -> succeeded h t d) /\
  (forall e, failed h q e -> failed h t e).
Proof.
  intros Hs [(H1 & H2)|[(d0 & Hq & Ht)|(e0 & Hq & Ht)]]; split.
  - intros d Hd. apply (settled_success_listener _ _ _ _ Hs H1 Hd).
  - intros e He. apply (settled_failure_listener _ _ _ _ Hs H2 He).
  - intros d Hd. by rewrite (succeeded_inj _ _ _ _ Hd Hq).
  - intros e He. exfalso. by eapply (succeeded_not_failed h _ _ _ Hq He).
  - intros d Hd. exfalso. by eapply (succeeded_not_failed h _ _ _ Hd Hq).
  - intros e He. by rewrite (failed_inj _ _ _ _ He Hq).
Qed.

Lemma fmapped_result h sv f x :
  consistent h -> fmapped fenv h sv f x ->
  exists s, sv = VPromise s /\
    (forall d, succeeded h s d -> exists v, succeeded h x v /\ fpost fenv f [d] v h) /\
    (forall e, failed h s e -> failed h x e).
Proof.
  intros Hs (s & -> & H). exists s. split; [done|].
  destruct H as [(H1 & H2)|[(d0 & v0 & Hq & Ht & Hf)|(e0 & Hq & Ht)]]; split.
  - intros d Hd. apply (settled_success_listener _ _ _ _ Hs H1 Hd).
  - intros e He. apply (settled_failure_listener _ _ _ _ Hs H2 He).
  - intros d Hd. rewrite (succeeded_inj _ _ _ _ Hd Hq). by exists v0.
  - intros e He. exfalso. by eapply (succeeded_not_failed h _ _ _ Hq He).
  - intros d Hd. exfalso. by eapply (succeeded_not_failed h _ _ _ Hd Hq).
  - intros e He. by rewrite (failed_inj _ _ _ _ He Hq).
Qed.

Lemma joined_result h sv t :
  consistent h -> joined h sv t ->
  exists s, sv = VPromise s /\
    (forall d, succeeded h s d ->
               exists q, d = VPromise q /\
                 (forall d', succeeded h q d' -> succeeded h t d') /\
                 (forall e, failed h q e -> failed h t e)) /\
    (forall e, failed h s e -> failed h t e).
Proof.
  intros Hs (s & -> & H). exists s. split; [done|].
  destruct H as [(H1 & H2)|[(q0 & Hq & Hm)|(e0 & Hq & Ht)]]; split.
  - intros d Hd. destruct (settled_success_listener _ _ _ _ Hs H1 Hd) as (q & Hq & Hm).
    exists q. split; [done|]. by apply mirrored_result.
  - intros e He. apply (settled_failure_listener _ _ _ _ Hs H2 He).
  - intros d Hd. rewrite (succeeded_inj _ _ _ _ Hd Hq). exists q0.
    split; [done|]. by apply mirrored_result.
  - intros e He. exfalso. by eapply (succeeded_not_failed h _ _ _ Hq He).
  - intros d Hd. exfalso. by eapply (succeeded_not_failed h _ _ _ Hd Hq).
  - intros e He. by rewrite (failed_inj _ _ _ _ He Hq).
Qed.

End Results.

(** ** fmap *)

Lemma bind_eq {A B} (m : M A) (f : A -> M B) h a h1 :
  m h = Ret a h1 -> bind m f h = f a h1.
Proof. intros H. unfold bind. by rewrite H. Qed.

Lemma notifySuccess_fresh rec h o d :
  __notifySuccess__ rec (length (cells h)) d (alloc h (fresh_cell o)) =
  Ret VUndefined (alloc h (set_state (fresh_cell o) SUCCEEDED d VUndefined)).
Proof.
  rewrite (__notifySuccess__pending _ _ _ _ (fresh_cell o) (lookup_alloc_new _ _) eq_refl).
  by rewrite update_alloc_new.
Qed.

Lemma notifyFailure_fresh rec h o e :
  __notifyFailure__ rec (length (cells h)) e (alloc h (fresh_cell o)) =
  Ret VUndefined (alloc h (set_state (fresh_cell o) FAILED VUndefined e)).
Proof.
  rewrite (__notifyFailure__pending _ _ _ _ (fresh_cell o) (lookup_alloc_new _ _) eq_refl).
  by rewrite update_alloc_new.
Qed.

(** On a FAILED input [fmap(f)] fails its result with the same error and
    does not call [f]. *)
Lemma fmap_failed fenv n f s h c :
  cells h !! s = Some c -> _state c = FAILED ->
  fmap (run fenv (S n)) f (VPromise s) h =
  Ret (length (cells h))
      (alloc h (set_state (fresh_cell None) FAILED VUndefined (_error c))).
Proof.
  intros Hc Hs. unfold fmap.
  rewrite (bind_eq _ _ _ _ _ (promise_eq None h)).
  unfold bind at 1. cbn [as_promise ret].
  pose proof (lookup_alloc_old h (fresh_cell None) _ _ Hc) as Hc1.
  rewrite (bind_eq _ _ _ _ _ (registerSuccessListener_failed _ _ _ _ _ Hc1 Hs)).
  unfold bind at 1.
  rewrite (registerFailureListener_failed _ _ _ _ _ Hc1 Hs).
  unfold bind at 1, invoke, bind at 1. cbn [run step run_callback first_arg head default].
  by rewrite notifyFailure_fresh.
Qed.

Lemma first_arg_cons v l : first_arg (v :: l) = v.
Proof. reflexivity. Qed.

Lemma run_invoke fenv n cb args :
  invoke (run fenv (S n)) cb args = (run_callback (run fenv n) cb args ;;; ret tt).
Proof. reflexivity. Qed.

Lemma run_call fenv n f args :
  call (run fenv (S n)) f args = run_fn fenv (run fenv n) f args.
Proof. reflexivity. Qed.

Lemma log_eq ev h : log ev h = Ret tt (logged h [ev]).
Proof. reflexivity. Qed.

Lemma logged_alloc h c evs : logged (alloc h c) evs = alloc (logged h evs) c.
Proof. reflexivity. Qed.

(** On a SUCCEEDED input [fmap(f)] calls [f] once, with the data, and
    resolves its result with what [f] returns. *)
Lemma fmap_succeeded fenv n id s h c v :
  cells h !! s = Some c -> _state c = SUCCEEDED ->
  fenv id [_data c] = AReturn v ->
  fmap (run fenv (S (S n))) (FUser id) (VPromise s) h =
  Ret (length (cells h))
      (logged (alloc h (set_state (fresh_cell None) SUCCEEDED v VUndefined))
              [EvCall id [_data c]]).
Proof.
  intros Hc Hs Hf. unfold fmap.
  rewrite (bind_eq _ _ _ _ _ (promise_eq None h)).
  unfold bind at 1. cbn [as_promise ret].
  pose proof (lookup_alloc_old h (fresh_cell None) _ _ Hc) as Hc1.
  unfold bind at 1.
  rewrite (registerSuccessListener_succeeded _ _ _ _ _ Hc1 Hs).
  rewrite run_invoke. cbn [run_callback]. rewrite first_arg_cons, run_call.
  cbn [run_fn]. rewrite Hf.
  unfold bind at 1 2 3 4 5. rewrite log_eq. unfold ret at 1.
  rewrite logged_alloc.
  change (length (cells h)) with (length (cells (logged h [EvCall id [_data c]]))) at 1.
  rewrite notifySuccess_fresh. unfold ret at 1 2.
  erewrite registerFailureListener_succeeded; [reflexivity| |done].
  by apply lookup_alloc_old.
Qed.

(** On a PENDING input [fmap(f)] stores its two closures, once each, and
    does not call [f]. *)
Lemma fmap_pending rec f s h c :
  cells h !! s = Some c -> _state c = PENDING ->
  fmap rec f (VPromise s) h =
  Ret (length (cells h))
      (update_cell (alloc h (fresh_cell None)) s
         (push_failure (push_success c (CbFmap f (length (cells h))))
                       (CbFailure (length (cells h))))).
Proof.
  intros Hc Hs. unfold fmap.
  rewrite (bind_eq _ _ _ _ _ (promise_eq None h)).
  unfold bind at 1. cbn [as_promise ret].
  pose proof (lookup_alloc_old h (fresh_cell None) _ _ Hc) as Hc1.
  rewrite (bind_eq _ _ _ _ _ (registerSuccessListener_pending _ _ _ _ _ Hc1 Hs)).
  erewrite bind_eq;
    [|eapply registerFailureListener_pending; [by eapply lookup_update_cell|done]].
  by rewrite update_cell_twice.
Qed.

Lemma achieves_returned {A} fenv k (m : M A) h Q a h1 :
  achieves fenv k m h Q -> m h = Ret a h1 ->
  settled fenv k h1 /\ heap_evolves h h1 /\ Q a h1.
Proof. unfold achieves, wp. intros Hm Heq. by rewrite Heq in Hm. Qed.

Lemma do_ops_returning_evolves fenv fuel os h h' :
  do_ops_returning fenv fuel os h = Some h' -> heap_evolves h h'.
Proof. intros H. by eapply do_ops_evolves, do_ops_returning_do_ops. Qed.

(** Scenario A: [fmap(function (x) { return x * 2; })(unit(5))]. *)
Definition scenario_A : M ref :=
  let rec := run demo_fenv 2 in
  p <- cbl_unit rec (VNum 5) ;; fmap rec (FUser 0) (VPromise p).


(** ** join *)

(** On a FAILED outer promise [join] fails its result with the same error:
    nothing else in the heap changes, no listener is put on any promise. *)
Lemma join_failed fenv n pp h c :
  cells h !! pp = Some c -> _state c = FAILED ->
  join (run fenv (S n)) (VPromise pp) h =
  Ret (length (cells h))
      (alloc h (set_state (fresh_cell None) FAILED VUndefined (_error c))).
Proof.
  intros Hc Hs. unfold join.
  rewrite (bind_eq _ _ _ _ _ (promise_eq None h)).
  unfold bind at 1. cbn [as_promise ret].
  pose proof (lookup_alloc_old h (fresh_cell None) _ _ Hc) as Hc1.
  rewrite (bind_eq _ _ _ _ _ (registerSuccessListener_failed _ _ _ _ _ Hc1 Hs)).
  unfold bind at 1.
  rewrite (registerFailureListener_failed _ _ _ _ _ Hc1 Hs).
  rewrite run_invoke. cbn [run_callback]. rewrite first_arg_cons.
  unfold bind. by rewrite notifyFailure_fresh.
Qed.

(** Scenario C: [join(unit(unit("inner")))]. *)
Definition scenario_C : M ref :=
  let rec := run demo_fenv 2 in
  q <- cbl_unit rec (VStr "inner") ;;
  pp <- cbl_unit rec (VPromise q) ;;
  join rec (VPromise pp).


(** ** flatMap and the monad laws *)

Section Laws.

Variable fenv : nat -> list value -> action.

Local Abbreviation consistent := (settled fenv no_exempt).

(** [r] has the result of [q] when [q] is finished. *)
Definition follows (h : heap) (q r : ref) : Prop :=
  (forall d, succeeded h q d -> succeeded h r d) /\
  (forall e, failed h q e -> failed h r e).

(** [r] behaves as [m >>= f]: a failure of [m] is the failure of [r];
    when [m] is SUCCEEDED with [d], [r] follows the promise that [f]
    returned for [d]. *)
Definition bound (h : heap) (m : ref) (f : fn) (r : ref) : Prop :=
  (forall e, failed h m e -> failed h r e) /\
  (forall d, succeeded h m d ->
             exists q, fpost fenv f [d] (VPromise q) h /\ follows h q r).

Lemma follows_trans h a b c : follows h a b -> follows h b c -> follows h a c.
Proof. intros (H1 & H2) (H3 & H4). split; auto. Qed.

Lemma flatmapped_bound h m f r :
  consistent h -> flatmapped fenv h (VPromise m) f r -> bound h m f r.
Proof.
  intros Hs (x & Hx & Hj).
  destruct (fmapped_result fenv _ _ _ _ Hs Hx) as (s & [= <-] & HS & HF).
  destruct (joined_result fenv _ _ _ Hs Hj) as (x' & [= <-] & HS' & HF').
  split.
  - intros e He. auto.
  - intros d Hd. destruct (HS d Hd) as (v & Hv & Hp).
    destruct (HS' v Hv) as (q & -> & Hq). by exists q.
Qed.

(** The promise outcomes: a final state with its data or error. *)
Inductive result := Success (d : value) | Failure (e : value).

Definition settles (h : heap) (q : ref) (o : result) : Prop :=
  match o with
  | Success d => succeeded h q d
  | Failure e => failed h q e
  end.

Lemma follows_settles h q r o : follows h q r -> settles h q o -> settles h r o.
Proof. intros (H1 & H2). destruct o; cbn; auto. Qed.

(** The outcome of the promise that a function of the caller returns: a
    new promise that is already resolved, or a promise that exists. *)
Definition call_outcome (h : heap) (id : nat) (x : value) (o : result) : Prop :=
  match fenv id [x] with
  | AUnit d => o = Success d
  | AFailed e => o = Failure e
  | AReturn (VPromise k) => settles h k o
  | _ => False
  end.

Lemma call_outcome_settles h id x o q :
  call_outcome h id x o -> fpost fenv (FUser id) [x] (VPromise q) h -> settles h q o.
Proof.
  unfold call_outcome. cbn [fpost]. destruct (fenv id [x]) as [v|e|v|e|]; cbn; try done.
  - destruct v; try done. by intros Hk [= ->].
  - intros -> (q' & [= <-] & Hq). done.
  - intros -> (q' & [= <-] & Hq). done.
Qed.

(** The outcome of [m >>= f >>= g]. *)
Definition chain_outcome (h : heap) (m : ref) (idf idg : nat) (o : result) : Prop :=
  (exists e, failed h m e /\ o = Failure e) \/
  (exists d, succeeded h m d /\
     ((exists e, call_outcome h idf d (Failure e) /\ o = Failure e) \/
      (exists d1, call_outcome h idf d (Success d1) /\ call_outcome h idg d1 o))).

(** [r] behaves as [m >>= f >>= g]. *)
Definition bound2 (h : heap) (m : ref) (f g : fn) (r : ref) : Prop :=
  (forall e, failed h m e -> failed h r e) /\
  (forall d, succeeded h m d ->
     exists q1, fpost fenv f [d] (VPromise q1) h /\
       (forall e, failed h q1 e -> failed h r e) /\
       (forall d1, succeeded h q1 d1 ->
          exists q2, fpost fenv g [d1] (VPromise q2) h /\ follows h q2 r)).

Lemma bound_bound h m f g a r :
  bound h m f a -> bound h a g r -> bound2 h m f g r.
Proof.
  intros (HF & HS) (HF' & HS'). split; [auto|].
  intros d Hd. destruct (HS d Hd) as (q1 & Hq1 & Hfo1 & Hfo2).
  exists q1. split; [done|]. split; [auto|].
  intros d1 Hd1. apply HS'. auto.
Qed.

Lemma bound_after h m f g r :
  consistent h -> bound h m (FFlatMapAfter g f) r -> bound2 h m f g r.
Proof.
  intros Hs (HF & HS). split; [auto|].
  intros d Hd. destruct (HS d Hd) as (q & Hq & Hfo).
  cbn [fpost] in Hq. destruct Hq as (v1 & x & rr & Hv1 & [= <-] & Hx & Hj).
  assert (exists q1, v1 = VPromise q1) as (q1 & ->).
  { destruct Hx as (s & -> & _). by exists s. }
  rewrite first_arg_cons in Hv1.
  assert (bound h q1 g q) as (HF1 & HS1).
  { apply flatmapped_bound; [done|]. by exists x. }
  exists q1. split; [done|]. split.
  - intros e He. apply Hfo. auto.
  - intros d1 Hd1. destruct (HS1 d1 Hd1) as (q2 & Hq2 & Hfo2).
    exists q2. split; [done|]. by eapply follows_trans.
Qed.

Lemma bound2_outcome h m idf idg r o :
  bound2 h m (FUser idf) (FUser idg) r -> chain_outcome h m idf idg o ->
  settles h r o.
Proof.
  intros (HF & HS) [(e & He & ->)|(d & Hd & Ho)]; [by apply HF|].
  destruct (HS d Hd) as (q1 & Hq1 & HF1 & HS1).
  destruct Ho as [(e & Hc & ->)|(d1 & Hc & Hc')].
  - apply HF1. apply (call_outcome_settles _ _ _ _ _ Hc Hq1).
  - destruct (HS1 d1 (call_outcome_settles _ _ _ _ _ Hc Hq1)) as (q2 & Hq2 & Hfo).
    eapply follows_settles; [done|]. by eapply call_outcome_settles.
Qed.

End Laws.

(** The two sides of the laws. *)
Definition right_identity (rec : task -> M value) (m : ref) : M ref :=
  flatMap rec FUnit (VPromise m).

Definition left_identity (rec : task -> M value) (f : fn) (x : value) : M ref :=
  u <- cbl_unit rec x ;; flatMap rec f (VPromise u).

Definition assoc_left (rec : task -> M value) (f g : fn) (m : ref) : M ref :=
  a <- flatMap rec f (VPromise m) ;; flatMap rec g (VPromise a).

Definition assoc_right (rec : task -> M value) (f g : fn) (m : ref) : M ref :=
  flatMap rec (FFlatMapAfter g f) (VPromise m).

Lemma flatMap_bound fenv fuel f m h r h1 os h2 :
  settled fenv no_exempt h ->
  flatMap (run fenv fuel) f (VPromise m) h = Ret r h1 ->
  do_ops_returning fenv fuel os h1 = Some h2 ->
  settled fenv no_exempt h2 /\ bound fenv h2 m f r.
Proof.
  intros Hs Hf Hos.
  destruct (achieves_returned _ _ _ _ _ _ _
              (achieves_flatMap fenv _ (evolving_run fenv fuel) (run_achieves fenv fuel)
                 no_exempt f (VPromise m) h Hs) Hf) as (Hs1 & He1 & Hm).
  pose proof (do_ops_returning_settled _ _ _ _ _ _ Hs1 Hos) as Hs2.
  pose proof (do_ops_returning_evolves _ _ _ _ _ Hos) as He2.
  split; [done|]. apply flatmapped_bound; [done|].
  by eapply flatmapped_stable.
Qed.

Lemma left_identity_bound fenv fuel f x h r h1 os h2 :
  settled fenv no_exempt h ->
  left_identity (run fenv fuel) f x h = Ret r h1 ->
  do_ops_returning fenv fuel os h1 = Some h2 ->
  exists q, fpost fenv f [x] (VPromise q) h2 /\ follows h2 q r.
Proof.
  intros Hs Hf Hos. unfold left_identity in Hf.
  pose proof (evolving_run fenv fuel) as Hev.
  pose proof (run_achieves fenv fuel) as Hrec.
  assert (achieves fenv no_exempt
            (u <- cbl_unit (run fenv fuel) x ;; flatMap (run fenv fuel) f (VPromise u)) h
            (fun r h' => exists u, succeeded h' u x /\
                                   flatmapped fenv h' (VPromise u) f r)) as Ha.
  { eapply achieves_bind; [by apply achieves_unit|]. intros u h' Hs' He' Hu.
    eapply achieves_mono; [by apply achieves_flatMap|].
    cbn. intros r' h'' He'' Hr. exists u. split; [|done].
    by eapply succeeded_stable. }
  destruct (achieves_returned _ _ _ _ _ _ _ Ha Hf) as (Hs1 & He1 & u & Hu & Hm).
  pose proof (do_ops_returning_settled _ _ _ _ _ _ Hs1 Hos) as Hs2.
  pose proof (do_ops_returning_evolves _ _ _ _ _ Hos) as He2.
  assert (bound fenv h2 u f r) as (_ & HS).
  { apply flatmapped_bound; [done|]. by eapply flatmapped_stable. }
  apply HS. by eapply succeeded_stable.
Qed.

Lemma assoc_left_bound2 fenv fuel f g m h r h1 os h2 :
  settled fenv no_exempt h ->
  assoc_left (run fenv fuel) f g m h = Ret r h1 ->
  do_ops_returning fenv fuel os h1 = Some h2 ->
  bound2 fenv h2 m f g r.
Proof.
  intros Hs Hf Hos. unfold assoc_left in Hf.
  pose proof (evolving_run fenv fuel) as Hev.
  pose proof (run_achieves fenv fuel) as Hrec.
  assert (achieves fenv no_exempt
            (a <- flatMap (run fenv fuel) f (VPromise m) ;;
             flatMap (run fenv fuel) g (VPromise a)) h
            (fun r h' => exists a, flatmapped fenv h' (VPromise m) f a /\
                                   flatmapped fenv h' (VPromise a) g r)) as Ha.
  { eapply achieves_bind; [by apply achieves_flatMap|]. intros a h' Hs' He' Hm.
    eapply achieves_mono; [by apply achieves_flatMap|].
    cbn. intros r' h'' He'' Hr. exists a. split; [|done].
    by eapply flatmapped_stable. }
  destruct (achieves_returned _ _ _ _ _ _ _ Ha Hf) as (Hs1 & He1 & a & Hma & Har).
  pose proof (do_ops_returning_settled _ _ _ _ _ _ Hs1 Hos) as Hs2.
  pose proof (do_ops_returning_evolves _ _ _ _ _ Hos) as He2.
  eapply (bound_bound fenv h2 m f g a r).
  - apply flatmapped_bound; [done|]. by eapply flatmapped_stable.
  - apply flatmapped_bound; [done|]. by eapply flatmapped_stable.
Qed.

Lemma assoc_right_bound2 fenv fuel f g m h r h1 os h2 :
  settled fenv no_exempt h ->
  assoc_right (run fenv fuel) f g m h = Ret r h1 ->
  do_ops_returning fenv fuel os h1 = Some h2 ->
  bound2 fenv h2 m f g r.
Proof.
  intros Hs Hf Hos.
  destruct (flatMap_bound _ _ _ _ _ _ _ _ _ Hs Hf Hos) as (Hs2 & Hb).
  by apply bound_after.
Qed.


(** ** Instances *)

Definition pending_heap : heap := alloc empty_heap (fresh_cell None).

Definition resolved_cell : cell := set_state (fresh_cell None) SUCCEEDED (VNum 5) VUndefined.

Definition resolved_heap : heap := alloc empty_heap resolved_cell.

Definition nested_heap : heap :=
  alloc (alloc empty_heap (set_state (fresh_cell None) SUCCEEDED (VStr "inner") VUndefined))
        (set_state (fresh_cell None) SUCCEEDED (VPromise 0) VUndefined).

Lemma settled_no_listeners fenv k h :
  (forall r c, cells h !! r = Some c ->
               _successListeners c = [] /\ _failureListeners c = [] /\
               _finishListeners c = []) ->
  settled fenv k h.
Proof.
  intros Hq s c ch q args i cb Hc Hqu Hi. exfalso.
  destruct (Hq _ _ Hc) as (H1 & H2 & H3). unfold queue in Hqu.
  rewrite H1, H2, H3 in Hqu.
  destruct (_state c), ch; try discriminate; injection Hqu as <- _; discriminate.
Defined.

Lemma settled_resolved_heap : settled demo_fenv no_exempt resolved_heap.
Proof.
  apply settled_no_listeners. intros r c Hc.
  destruct r as [|r]; [|discriminate]. injection Hc as <-. repeat split.
Defined.

Lemma settled_nested_heap : settled demo_fenv no_exempt nested_heap.
Proof.
  apply settled_no_listeners. intros r c Hc.
  destruct r as [|[|r]]; [| |discriminate]; injection Hc as <-; repeat split.
Defined.

Lemma C1_witness :
  cells resolved_heap !! 0 = Some resolved_cell /\
  forall rec v,
    __notifySuccess__ rec 0 v resolved_heap = Throw not_pending_msg resolved_heap /\
    __notifyFailure__ rec 0 v resolved_heap = Throw not_pending_msg resolved_heap.
Proof.
  split; [reflexivity|].
  destruct (C1_single_transition demo_fenv 2 0 resolved_cell resolved_heap eq_refl)
    as (H & _).
  apply H. discriminate.
Defined.

Lemma C3_witness :
  cells pending_heap !! 0 = Some (fresh_cell None) /\
  _state (fresh_cell None) = PENDING /\
  forall rec,
    registerFailureListener rec 0 (CbUser 7) resolved_heap = Ret (VPromise 0) resolved_heap.
Proof.
  split; [reflexivity|]. split; [reflexivity|]. intros rec.
  destruct (C3_late_subscription demo_fenv 2 0 (fresh_cell None) pending_heap (CbUser 7)
              eq_refl eq_refl) as (_ & H & _).
  apply (H (VNum 5) resolved_heap [] resolved_heap rec eq_refl eq_refl).
Defined.

Lemma C7_witness :
  cells resolved_heap !! 0 = Some resolved_cell /\
  forall rec, getData rec 0 resolved_heap = Ret (VNum 5) resolved_heap.
Proof.
  split; [reflexivity|].
  destruct (C7_getData demo_fenv 2 0 resolved_cell resolved_heap eq_refl)
    as (_ & H & _).
  apply H. reflexivity.
Defined.


Lemma C9_witness :
  cells pending_heap !! 0 = Some (fresh_cell None) /\
  _state (fresh_cell None) = PENDING /\
  forall rec cb,
    registerSuccessListener rec 0 cb pending_heap
    = Ret (VPromise 0) (update_cell pending_heap 0 (push_success (fresh_cell None) cb)).
Proof.
  split; [reflexivity|]. split; [reflexivity|]. intros rec cb.
  destruct (C9_listener_order demo_fenv 2 0 (fresh_cell None) pending_heap
              eq_refl eq_refl) as (H & _).
  apply H.
Defined.

Lemma well_formed_empty : well_formed empty_heap.
Proof. intros r c Hc. discriminate. Defined.

Lemma C10_witness :
  well_formed empty_heap /\
  liftA (run demo_fenv 0) (FUser 1) [] empty_heap =
  Ret 0 (with_frames pending_heap [{| finishedCount := 0; ts := [] |}]).
Proof.
  split; [exact well_formed_empty|].
  destruct (C10_liftA_no_arguments demo_fenv 0 (FUser 1) empty_heap well_formed_empty)
    as (H & _).
  exact H.
Defined.




(** ** liftA *)

Fixpoint count_if {A} (p : A -> bool) (l : list A) : nat :=
  match l with
  | [] => 0
  | x :: l' => (if p x then 1 else 0) + count_if p l'
  end.

Lemma count_if_app {A} (p : A -> bool) l l' :
  count_if p (l ++ l') = count_if p l + count_if p l'.
Proof. induction l as [|x l IH]; cbn; [done|]. rewrite IH. lia. Qed.

Lemma count_if_le {A} (p : A -> bool) l : count_if p l <= length l.
Proof. induction l as [|x l IH]; cbn; [done|]. destruct (p x); lia. Qed.

Lemma count_if_all {A} (p : A -> bool) l :
  count_if p l = length l -> forall x, x ∈ l -> p x = true.
Proof.
  induction l as [|y l IH]; cbn; intros Hc x Hx; [by apply elem_of_nil in Hx|].
  pose proof (count_if_le p l). destruct (p y) eqn:Hy; [|lia].
  apply elem_of_cons in Hx as [->|Hx]; [done|]. apply IH; [lia|done].
Qed.

Lemma count_if_ext {A} (p q : A -> bool) l :
  (forall x, x ∈ l -> p x = q x) -> count_if p l = count_if q l.
Proof.
  induction l as [|y l IH]; cbn; intros H; [done|].
  rewrite (H y) by (by left). rewrite IH; [done|]. intros x Hx. apply H. by right.
Qed.

(** A function that returns a value and does nothing else. *)
Definition pure_fn (fenv : nat -> list value -> action) (f : fn) : Prop :=
  match f with
  | FUser id => forall args, exists v, fenv id args = AReturn v
  | F__errorToData__ => True
  | _ => False
  end.

Definition eval_fn (fenv : nat -> list value -> action) (f : fn) (args : list value) : value :=
  match f with
  | FUser id => match fenv id args with AReturn v => v | _ => VUndefined end
  | F__errorToData__ => VNull
  | _ => VUndefined
  end.

Definition is_terminal (h : heap) (p : ref) : bool :=
  match cells h !! p with
  | Some c => negb (State_eqb (_state c) PENDING)
  | None => false
  end.

(** [v] is what [data()] returns on the finished promise [p]: the data
    of a SUCCEEDED promise, the fallback of a FAILED one. *)
Definition is_data (fenv : nat -> list value -> action) (h : heap) (p : ref) (v : value) : Prop :=
  succeeded h p v \/
  exists c g, cells h !! p = Some c /\ _state c = FAILED /\
              opt__errorToData__ (_options c) = Some g /\ v = eval_fn fenv g [_error c].

Lemma is_data_stable fenv p v : stable (fun h => is_data fenv h p v).
Proof.
  intros h h' He [Hs|(c & g & Hc & Hst & Hg & Hv)].
  - left. by eapply succeeded_stable.
  - right. exists c, g. split; [|done].
    eapply evolves_frozen; [done|done|]. by rewrite Hst.
Qed.

Lemma is_terminal_evolves h h' p :
  heap_evolves h h' -> is_terminal h p = true -> is_terminal h' p = true.
Proof.
  unfold is_terminal. intros He. destruct (cells h !! p) as [c|] eqn:Hc; [|done].
  intros Ht. rewrite (evolves_frozen _ _ _ _ He Hc); [done|].
  intros Hp. by rewrite Hp in Ht.
Qed.

Section LiftA.

Variable fenv : nat -> list value -> action.
Variables (f : fn) (N env : nat) (r : ref) (inputs : list ref).

(** With [strict] the invariant also says that no finished input is left
    uncounted; an exception out of a listener loses this part. *)
Variable strict : bool.

(** The finish listener that the lifted function puts on its inputs. *)
Definition L : callback := CbLiftA f N env r.

Definition is_L (cb : callback) : bool :=
  match cb with
  | CbLiftA _ _ e p => Nat.eqb e env && Nat.eqb p r
  | _ => false
  end.

Definition unprotected (p : ref) : Prop := p <> r.
Definition other_env (e : nat) : Prop := e <> env.

Local Abbreviation quiet := (quiet_cb unprotected always other_env).

(** The invariant of one call of a lifted function: [count] is the counter
    [finishedCount], [done] the inputs registered so far, [k] the number of
    listeners [L] that a resolution in progress is yet to call, [firing]
    says that the last [L] is computing the result; [lo] is the number of
    inputs registered so far. *)
Record lift_inv (strict : bool) (lo k : nat) (firing : bool) (h : heap)
       (count : nat) (done : list ref)
  : Prop := {
  li_r : r < length (cells h);
  li_env : env < length (frames h);
  li_frame :
    frames h !! env = Some {| finishedCount := count; ts := map VPromise done |};
  li_prefix : done `prefix_of` inputs;
  li_lo : length done = lo;
  li_N : length inputs = N;
  li_opts :
    forall p, p ∈ inputs ->
      exists c g, cells h !! p = Some c /\
                  opt__errorToData__ (_options c) = Some g /\ pure_fn fenv g;
  li_quiet :
    forall p c, cells h !! p = Some c -> _state c = PENDING ->
      Forall quiet (_successListeners c ++ _failureListeners c) /\
      Forall (fun cb => quiet cb \/ cb = L) (_finishListeners c);
  li_entries :
    forall p c, cells h !! p = Some c -> _state c = PENDING ->
      count_if is_L (_finishListeners c) = count_if (Nat.eqb p) done;
  li_count : count + k <= count_if (is_terminal h) done;
  li_result :
    forall c, cells h !! r = Some c ->
      match _state c with
      | PENDING => True
      | SUCCEEDED =>
          count = N /\ firing = false /\
          exists vs, Forall2 (is_data fenv h) inputs vs /\ _data c = eval_fn fenv f vs
      | FAILED => False
      end;
  li_firing : firing = true -> pending h r /\ count = N;
  li_strict :
    strict = true ->
    count + k = count_if (is_terminal h) done /\
    (firing = false -> count = N -> 0 < N -> exists d, succeeded h r d)
}.

Definition lifted (strict : bool) (lo : nat) (kf : nat * bool) (h : heap) : Prop :=
  exists count done, lift_inv strict lo kf.1 kf.2 h count done.

Lemma quiet_not_L cb : quiet cb -> is_L cb = false.
Proof.
  destruct cb; cbn; try done. intros (_ & He & Hr).
  apply andb_false_iff. destruct (Nat.eqb_spec env0 env); [by destruct He|by left].
Qed.

Lemma is_L_L : is_L L = true.
Proof. cbn. by rewrite !Nat.eqb_refl. Qed.

(** The queues of [c'] are those of [c] with quiet listeners appended. *)
Definition quietly_extends (c c' : cell) : Prop :=
  _state c' = _state c /\ _data c' = _data c /\ _error c' = _error c /\
  _options c' = _options c /\
  exists l1 l2 l3,
    _successListeners c' = _successListeners c ++ l1 /\
    _failureListeners c' = _failureListeners c ++ l2 /\
    _finishListeners c' = _finishListeners c ++ l3 /\
    Forall quiet (l1 ++ l2 ++ l3).

Lemma quietly_extends_refl c : quietly_extends c c.
Proof.
  repeat split. exists [], [], []. by rewrite !app_nil_r.
Qed.

Lemma count_if_quiet l : Forall quiet l -> count_if is_L l = 0.
Proof.
  induction 1 as [|cb l Hcb _ IH]; cbn; [done|]. by rewrite (quiet_not_L _ Hcb), IH.
Qed.

(** A change of the heap that resolves no promise, stores only quiet
    listeners and leaves the frame alone keeps the invariant. *)
Lemma lift_inv_neutral lo k firing h h' count done :
  heap_evolves h h' ->
  frames h' !! env = frames h !! env ->
  (forall p c', cells h' !! p = Some c' ->
     (exists c, cells h !! p = Some c /\ quietly_extends c c') \/
     (cells h !! p = None /\ _state c' = PENDING /\
      _successListeners c' = [] /\ _failureListeners c' = [] /\
      _finishListeners c' = [])) ->
  lift_inv strict lo k firing h count done -> lift_inv strict lo k firing h' count done.
Proof.
  intros He Hfr Hcells [Hr Henv Hf Hpre Hlo HN Hopts Hq Hent Hcnt Hres Hfi Hex].
  destruct He as (Hec & Hef & Het).
  assert (forall p, p ∈ done -> p ∈ inputs) as Hin.
  { intros p Hp. destruct Hpre as (l & ->). apply elem_of_app. by left. }
  assert (forall p c, cells h !! p = Some c ->
            exists c', cells h' !! p = Some c' /\ quietly_extends c c') as Hold.
  { intros p c Hc. destruct (Hec _ _ Hc) as (c' & Hc' & _). exists c'. split; [done|].
    destruct (Hcells _ _ Hc') as [(c0 & Hc0 & Hx)|(Hn & _)]; congruence. }
  assert (forall p, p ∈ done -> is_terminal h' p = is_terminal h p) as Hterm.
  { intros p Hp. destruct (Hopts p (Hin p Hp)) as (c & g & Hc & _).
    destruct (Hold _ _ Hc) as (c' & Hc' & Hst & _).
    unfold is_terminal. by rewrite Hc, Hc', Hst. }
  split; try done.
  - destruct (lookup_lt_is_Some_2 (cells h) r Hr) as (c & Hc).
    destruct (Hec _ _ Hc) as (c' & Hc' & _). by eapply lookup_lt_Some.
  - lia.
  - congruence.
  - intros p Hp. destruct (Hopts p Hp) as (c & g & Hc & Hg & Hpu).
    destruct (Hold _ _ Hc) as (c' & Hc' & _ & _ & _ & Ho & _).
    exists c', g. by rewrite Ho.
  - intros p c' Hc' Hst.
    destruct (Hcells _ _ Hc') as [(c & Hc & Hs & _ & _ & _ & l1 & l2 & l3 & E1 & E2 & E3 & Hl)
                                 |(_ & _ & E1 & E2 & E3)].
    + rewrite Hst in Hs. destruct (Hq _ _ Hc (eq_sym Hs)) as (Hq1 & Hq2).
      rewrite E1, E2, E3. rewrite !Forall_app in Hl. rewrite !Forall_app in Hq1.
      rewrite !Forall_app. repeat split; try tauto.
      eapply Forall_impl; [apply Hl|]. by left.
    + rewrite E1, E2, E3. by split.
  - intros p c' Hc' Hst.
    destruct (Hcells _ _ Hc') as [(c & Hc & Hs & _ & _ & _ & l1 & l2 & l3 & E1 & E2 & E3 & Hl)
                                 |(Hn & _ & E1 & E2 & E3)].
    + rewrite Hst in Hs. rewrite E3, count_if_app, (Hent _ _ Hc (eq_sym Hs)).
      rewrite !Forall_app in Hl. rewrite (count_if_quiet l3); [lia|tauto].
    + rewrite E3. cbn. symmetry.
      assert (forall q, q ∈ done -> Nat.eqb p q = false) as Hne.
      { intros q Hq0. destruct (Hopts q (Hin q Hq0)) as (c & g & Hc & _).
        apply Nat.eqb_neq. intros ->. congruence. }
      clear -Hne. induction done as [|q l IH]; cbn; [done|].
      rewrite (Hne q) by (by left). apply IH. intros q' Hq'. apply Hne. by right.
  - rewrite (count_if_ext _ (is_terminal h)); [done|]. apply Hterm.
  - intros c' Hc'.
    destruct (Hcells _ _ Hc') as [(c & Hc & Hs & Hd & _)|(Hn & _)].
    + specialize (Hres c Hc). rewrite Hs, Hd. destruct (_state c); try done.
      destruct Hres as (? & ? & vs & Hvs & Hv). split; [done|]. split; [done|].
      exists vs. split; [|done].
      eapply Forall2_impl; [exact Hvs|]. intros p v Hp.
      eapply is_data_stable; [|exact Hp]. done.
    + apply lookup_lt_is_Some_2 in Hr as (c & Hc). congruence.
  - intros Hfi'. destruct (Hfi Hfi') as ((c & Hc & Hst) & Hn). split; [|done].
    destruct (Hold _ _ Hc) as (c' & Hc' & Hs & _). exists c'. split; [done|congruence].
  - intros Hx. destruct (Hex Hx) as (Hx1 & Hx2). split.
    + rewrite (count_if_ext _ (is_terminal h)); [done|]. apply Hterm.
    + intros Hf0 Hn Hpos. destruct (Hx2 Hf0 Hn Hpos) as (d & Hd). exists d.
      eapply succeeded_stable; [|exact Hd]. done.
Qed.

Lemma lifted_E lo kf h : lifted strict lo kf h -> lifted false lo (0, false) h.
Proof.
  intros (count & done & [Hr Henv Hf Hpre Hlo HN Hopts Hq Hent Hcnt Hres Hfi Hex]).
  exists count, done. split; try done.
  - cbn. lia.
  - intros c Hc. specialize (Hres c Hc). destruct (_state c); try done.
    by destruct Hres as (? & _ & ?).
Qed.

Lemma old_or_new h c p c' :
  cells (alloc h c) !! p = Some c' ->
  cells h !! p = Some c' \/ (cells h !! p = None /\ c' = c).
Proof.
  cbn. intros Hp. apply lookup_app_Some in Hp as [Hp|[Hle Hp]]; [by left|].
  right. split; [by apply lookup_ge_None|].
  destruct (p - length (cells h)); [by injection Hp|done].
Qed.

Lemma lifted_alloc lo kf h o :
  lifted strict lo kf h -> lifted strict lo kf (alloc h (fresh_cell o)).
Proof.
  intros (count & done & Hi). exists count, done.
  eapply lift_inv_neutral; [apply evolves_new_cell|done| |done].
  intros p c' Hp. destruct (old_or_new _ _ _ _ Hp) as [Hc|(Hn & ->)].
  - left. exists c'. split; [done|apply quietly_extends_refl].
  - right. by repeat split.
Qed.

Lemma lifted_update lo kf h p c c' :
  cells h !! p = Some c -> cell_evolves c c' -> quietly_extends c c' ->
  lifted strict lo kf h -> lifted strict lo kf (update_cell h p c').
Proof.
  intros Hc Hev Hx (count & done & Hi). exists count, done.
  eapply lift_inv_neutral; [by eapply evolves_set_cell|done| |done].
  intros q c0 Hq. left. cbn in Hq. destruct (decide (q = p)) as [->|Hne].
  - rewrite list_lookup_insert_eq in Hq by (by eapply lookup_lt_Some).
    injection Hq as <-. by exists c.
  - rewrite list_lookup_insert_ne in Hq by done. exists c0.
    split; [done|apply quietly_extends_refl].
Qed.

Lemma lifted_push_success lo kf h p c cb :
  lifted strict lo kf h -> cells h !! p = Some c -> _state c = PENDING -> quiet cb ->
  lifted strict lo kf (update_cell h p (push_success c cb)).
Proof.
  intros Hi Hc Hs Hcb. eapply lifted_update; [done| | |done].
  - by apply cell_evolves_push_success.
  - repeat split. exists [cb], [], []. rewrite !app_nil_r. repeat split.
    by apply Forall_singleton.
Qed.

Lemma lifted_push_failure lo kf h p c cb :
  lifted strict lo kf h -> cells h !! p = Some c -> _state c = PENDING -> quiet cb ->
  lifted strict lo kf (update_cell h p (push_failure c cb)).
Proof.
  intros Hi Hc Hs Hcb. eapply lifted_update; [done| | |done].
  - by apply cell_evolves_push_failure.
  - repeat split. exists [], [cb], []. rewrite !app_nil_r. repeat split.
    by apply Forall_singleton.
Qed.

Lemma lifted_push_finish lo kf h p c cb :
  lifted strict lo kf h -> cells h !! p = Some c -> _state c = PENDING -> quiet cb ->
  lifted strict lo kf (update_cell h p (push_finish c cb)).
Proof.
  intros Hi Hc Hs Hcb. eapply lifted_update; [done| | |done].
  - by apply cell_evolves_push_finish.
  - repeat split. exists [], [], [cb]. rewrite !app_nil_r. repeat split.
    by apply Forall_singleton.
Qed.

Lemma lifted_same_cells lo kf h h' :
  cells h' = cells h -> heap_evolves h h' -> frames h' !! env = frames h !! env ->
  lifted strict lo kf h -> lifted strict lo kf h'.
Proof.
  intros Hc He Hf (count & done & Hi). exists count, done.
  eapply lift_inv_neutral; [done|done| |done].
  intros p c' Hp. left. rewrite Hc in Hp. exists c'.
  split; [done|apply quietly_extends_refl].
Qed.

Lemma lifted_env lo kf h : lifted strict lo kf h -> env < length (frames h).
Proof. intros (count & done & Hi). apply Hi. Qed.

Lemma lifted_new_frame lo kf h fr :
  lifted strict lo kf h -> lifted strict lo kf (with_frames h (frames h ++ [fr])).
Proof.
  intros Hi. eapply (lifted_same_cells lo kf h); [done|apply evolves_new_frame| |done].
  cbn. apply lookup_app_l. by eapply lifted_env.
Qed.

Lemma lifted_set_frame lo kf h e fr :
  other_env e -> lifted strict lo kf h ->
  lifted strict lo kf (with_frames h (<[e := fr]> (frames h))).
Proof.
  intros He Hi. eapply (lifted_same_cells lo kf h); [done|apply evolves_set_frame| |done].
  cbn. by apply list_lookup_insert_ne.
Qed.

Lemma lifted_log lo kf h ev : lifted strict lo kf h -> lifted strict lo kf (logged h [ev]).
Proof.
  intros Hi. eapply (lifted_same_cells lo kf h); [done|apply evolves_log|done|done].
Qed.

Lemma lifted_fresh lo kf h : lifted strict lo kf h -> unprotected (length (cells h)).
Proof. intros (count & done & Hi) Heq. pose proof (li_r _ _ _ _ _ _ _ Hi). lia. Qed.

Lemma lifted_fresh_env lo kf h : lifted strict lo kf h -> other_env (length (frames h)).
Proof. intros Hi Heq. pose proof (lifted_env _ _ _ Hi). lia. Qed.

Lemma is_terminal_update h p c c' q :
  cells h !! p = Some c ->
  is_terminal (update_cell h p c') q =
  if Nat.eqb p q then negb (State_eqb (_state c') PENDING) else is_terminal h q.
Proof.
  intros Hc. unfold is_terminal. cbn. destruct (Nat.eqb_spec p q) as [->|Hne].
  - by rewrite list_lookup_insert_eq by (by eapply lookup_lt_Some).
  - by rewrite list_lookup_insert_ne.
Qed.

Lemma terminal_count_resolve h p c c' l :
  cells h !! p = Some c -> _state c = PENDING -> _state c' <> PENDING ->
  count_if (is_terminal (update_cell h p c')) l =
  count_if (is_terminal h) l + count_if (Nat.eqb p) l.
Proof.
  intros Hc Hs Hs'. induction l as [|q l IH]; cbn; [done|].
  rewrite IH, (is_terminal_update _ _ _ _ _ Hc).
  destruct (Nat.eqb_spec p q) as [->|Hne].
  - unfold is_terminal. rewrite Hc, Hs. cbn. destruct (_state c'); [done|cbn; lia..].
  - lia.
Qed.

Lemma terminal_count_same h p c c' l :
  cells h !! p = Some c -> _state c' = _state c ->
  count_if (is_terminal (update_cell h p c')) l = count_if (is_terminal h) l.
Proof.
  intros Hc Hs. apply count_if_ext. intros q _.
  rewrite (is_terminal_update _ _ _ _ _ Hc). destruct (Nat.eqb_spec p q) as [->|Hne]; [|done].
  unfold is_terminal. by rewrite Hc, Hs.
Qed.

(** The resolution of a promise other than the result: the listeners [L]
    of its finish queue are yet to be called. *)
Lemma lift_inv_resolve lo k firing h count done p c s d e :
  cells h !! p = Some c -> _state c = PENDING -> p <> r -> s <> PENDING ->
  lift_inv strict lo k firing h count done ->
  lift_inv strict lo (k + count_if (Nat.eqb p) done) firing
           (update_cell h p (set_state c s d e)) count done.
Proof.
  intros Hc Hs Hpr Hne [Hr Henv Hf Hpre Hlo HN Hopts Hq Hent Hcnt Hres Hfi Hex].
  assert (heap_evolves h (update_cell h p (set_state c s d e))) as He.
  { eapply evolves_set_cell; [done|]. by apply cell_evolves_set_state. }
  assert (forall q c0, q <> p -> cells (update_cell h p (set_state c s d e)) !! q = Some c0 ->
                       cells h !! q = Some c0) as Hother.
  { intros q c0 Hqp Hq0. cbn in Hq0. by rewrite list_lookup_insert_ne in Hq0. }
  assert (forall q c0, _state c0 = PENDING ->
                       cells (update_cell h p (set_state c s d e)) !! q = Some c0 ->
                       cells h !! q = Some c0) as Hpend.
  { intros q c0 Hst Hq0. destruct (decide (q = p)) as [->|Hqp]; [|by apply Hother].
    rewrite (lookup_update_cell _ _ _ _ Hc) in Hq0. injection Hq0 as <-. done. }
  split; try done.
  - cbn. by rewrite length_insert.
  - intros q Hq0. destruct (Hopts q Hq0) as (c0 & g & Hc0 & Hg & Hpu).
    destruct (decide (q = p)) as [->|Hqp].
    + exists (set_state c s d e), g. split; [by eapply lookup_update_cell|].
      assert (c0 = c) as -> by congruence. done.
    + exists c0, g. split; [|done]. cbn. by rewrite list_lookup_insert_ne.
  - intros q c0 Hq0 Hst. eapply Hq; [|done]. by eapply Hpend.
  - intros q c0 Hq0 Hst. eapply Hent; [|done]. by eapply Hpend.
  - rewrite (terminal_count_resolve _ _ _ _ _ Hc Hs); [lia|done].
  - intros c0 Hc0. apply Hother in Hc0; [|done]. specialize (Hres c0 Hc0).
    destruct (_state c0); try done.
    destruct Hres as (? & ? & vs & Hvs & Hv). split; [done|]. split; [done|].
    exists vs. split; [|done]. eapply Forall2_impl; [exact Hvs|].
    intros q v Hqv. by eapply is_data_stable.
  - intros Hfi'. destruct (Hfi Hfi') as ((c0 & Hc0 & Hst) & Hn). split; [|done].
    exists c0. split; [|done]. cbn. by rewrite list_lookup_insert_ne.
  - intros Hx. destruct (Hex Hx) as (Hx1 & Hx2). split.
    + rewrite (terminal_count_resolve _ _ _ _ _ Hc Hs); [lia|done].
    + intros Hf0 Hn Hpos. destruct (Hx2 Hf0 Hn Hpos) as (d0 & Hd). exists d0.
      eapply succeeded_stable; [exact He|exact Hd].
Qed.

Lemma lift_inv_bounds lo k firing h count done :
  lift_inv strict lo k firing h count done ->
  count + k <= count_if (is_terminal h) done /\
  count_if (is_terminal h) done <= length done /\ length done <= N.
Proof.
  intros Hi. split; [apply Hi|]. split; [apply count_if_le|].
  rewrite <- (li_N _ _ _ _ _ _ _ Hi). apply prefix_length, Hi.
Qed.

Definition counted (h : heap) (count : nat) (done : list ref) : heap :=
  with_frames h (<[env := {| finishedCount := count; ts := map VPromise done |}]> (frames h)).

(** [L] has counted one more finished input. *)
Lemma lift_inv_counted lo k h count done :
  lift_inv strict lo (S k) false h count done ->
  lift_inv strict lo k (Nat.eqb (S count) N) (counted h (S count) done) (S count) done.
Proof.
  intros Hi. destruct (lift_inv_bounds _ _ _ _ _ _ Hi) as (Hb1 & Hb2 & Hb3).
  destruct Hi as [Hr Henv Hf Hpre Hlo HN Hopts Hq Hent Hcnt Hres Hfi Hex].
  assert (forall c, cells h !! r = Some c -> _state c = PENDING) as Hrp.
  { intros c Hc. specialize (Hres c Hc). destruct (_state c); [done| |done].
    destruct Hres as (-> & _). lia. }
  split; try done.
  - cbn. by rewrite length_insert.
  - cbn. by apply list_lookup_insert_eq.
  - change (count_if (is_terminal (counted h (S count) done)) done)
      with (count_if (is_terminal h) done). lia.
  - intros c Hc. by rewrite (Hrp c Hc).
  - intros Hfi'. apply Nat.eqb_eq in Hfi'. split; [|done].
    apply lookup_lt_is_Some_2 in Hr as (c & Hc). exists c. split; [done|by apply Hrp].
  - intros Hx. destruct (Hex Hx) as (Hx1 & Hx2). split.
    + change (count_if (is_terminal (counted h (S count) done)) done)
        with (count_if (is_terminal h) done). lia.
    + intros Hf0 Hn. apply Nat.eqb_neq in Hf0. done.
Qed.

(** When [L] has counted the last input, all inputs are registered and
    finished, and no other [L] is yet to be called. *)
Lemma lift_inv_firing lo k h count done :
  lift_inv strict lo k true h count done ->
  k = 0 /\ done = inputs /\ forall p, p ∈ inputs -> is_terminal h p = true.
Proof.
  intros Hi. destruct (lift_inv_bounds _ _ _ _ _ _ Hi) as (Hb1 & Hb2 & Hb3).
  destruct (li_firing _ _ _ _ _ _ _ Hi eq_refl) as (_ & ->).
  assert (done = inputs) as ->.
  { destruct (li_prefix _ _ _ _ _ _ _ Hi) as (rest & Hrest).
    pose proof (li_N _ _ _ _ _ _ _ Hi) as HN. rewrite Hrest, length_app in HN.
    assert (length rest = 0) as Hl by lia.
    destruct rest; [|done]. by rewrite app_nil_r in Hrest. }
  split; [lia|]. split; [done|].
  apply count_if_all. pose proof (li_N _ _ _ _ _ _ _ Hi). lia.
Qed.

(** The last [L] resolves the result with the value of [f]. *)
Lemma lift_inv_fired lo k h count done c vs e :
  lift_inv strict lo k true h count done ->
  cells h !! r = Some c ->
  Forall2 (is_data fenv h) inputs vs ->
  lift_inv strict lo k false (update_cell h r (set_state c SUCCEEDED (eval_fn fenv f vs) e))
           count done.
Proof.
  intros Hi Hc Hvs. destruct (lift_inv_firing _ _ _ _ _ Hi) as (-> & -> & Hterm).
  destruct Hi as [Hr Henv Hf Hpre Hlo HN Hopts Hq Hent Hcnt Hres Hfi Hex].
  destruct (Hfi eq_refl) as ((c0 & Hc0 & Hs0) & Hn).
  assert (c0 = c) as -> by congruence.
  assert (r ∉ inputs) as Hnin.
  { intros Hin. specialize (Hterm r Hin). unfold is_terminal in Hterm.
    by rewrite Hc, Hs0 in Hterm. }
  set (h' := update_cell h r (set_state c SUCCEEDED (eval_fn fenv f vs) e)).
  assert (heap_evolves h h') as He.
  { eapply evolves_set_cell; [done|]. by apply cell_evolves_set_state. }
  assert (forall q c1, q <> r -> cells h' !! q = Some c1 -> cells h !! q = Some c1) as Hother.
  { intros q c1 Hqr Hq1. cbn in Hq1. by rewrite list_lookup_insert_ne in Hq1. }
  assert (forall q c1, _state c1 = PENDING -> cells h' !! q = Some c1 ->
                       cells h !! q = Some c1) as Hpend.
  { intros q c1 Hst Hq1. destruct (decide (q = r)) as [->|Hqr]; [|by apply Hother].
    unfold h' in Hq1. rewrite (lookup_update_cell _ _ _ _ Hc) in Hq1.
    by injection Hq1 as <-. }
  split; try done.
  - cbn. by rewrite length_insert.
  - intros q Hq0. destruct (Hopts q Hq0) as (c1 & g & Hc1 & Hg & Hpu).
    exists c1, g. split; [|done]. cbn. rewrite list_lookup_insert_ne; [done|].
    by intros <-.
  - intros q c1 Hq1 Hst. eapply Hq; [|done]. by eapply Hpend.
  - intros q c1 Hq1 Hst. eapply Hent; [|done]. by eapply Hpend.
  - rewrite (count_if_ext _ (is_terminal h)); [done|].
    intros q Hq0. unfold h'. rewrite (is_terminal_update _ _ _ _ _ Hc).
    destruct (Nat.eqb_spec r q) as [<-|_]; [done|done].
  - intros c1 Hc1. unfold h' in Hc1. rewrite (lookup_update_cell _ _ _ _ Hc) in Hc1.
    injection Hc1 as <-. cbn. split; [done|]. split; [done|].
    exists vs. split; [|done]. eapply Forall2_impl; [exact Hvs|].
    intros q v Hqv. by eapply is_data_stable.
  - intros Hx. destruct (Hex Hx) as (Hx1 & _). split.
    + rewrite (count_if_ext _ (is_terminal h)); [done|].
      intros q Hq0. unfold h'. rewrite (is_terminal_update _ _ _ _ _ Hc).
      destruct (Nat.eqb_spec r q) as [<-|_]; [done|done].
    + intros _ _ _. exists (eval_fn fenv f vs), (set_state c SUCCEEDED (eval_fn fenv f vs) e).
      split; [|done]. unfold h'. by eapply lookup_update_cell.
Qed.

(** While inputs are yet to be registered, the counter is below [N]. *)
Lemma lift_inv_registering lo k firing h count done a :
  lift_inv strict lo k firing h count done -> (done ++ [a]) `prefix_of` inputs -> count < N.
Proof.
  intros Hi Hpre. destruct (lift_inv_bounds _ _ _ _ _ _ Hi) as (Hb1 & Hb2 & _).
  apply prefix_length in Hpre. rewrite length_app, (li_N _ _ _ _ _ _ _ Hi) in Hpre.
  cbn in Hpre. lia.
Qed.

(** The loop of [liftA] at an input that has finished: the input is pushed
    onto [t$s], and its listener [L] is about to be called. *)
Lemma lift_inv_register_finished lo h count done a c :
  lift_inv strict lo 0 false h count done -> (done ++ [a]) `prefix_of` inputs ->
  cells h !! a = Some c -> _state c <> PENDING ->
  lift_inv strict (S lo) 1 false (counted h count (done ++ [a])) count (done ++ [a]).
Proof.
  intros Hi Hpre' Hc Hs. pose proof (lift_inv_registering _ _ _ _ _ _ _ Hi Hpre') as Hlt.
  destruct Hi as [Hr Henv Hf Hpre Hlo HN Hopts Hq Hent Hcnt Hres Hfi Hex].
  split; try done.
  - cbn. by rewrite length_insert.
  - cbn. by apply list_lookup_insert_eq.
  - rewrite length_app. cbn. lia.
  - intros p c0 Hc0 Hst. cbn in Hc0. rewrite count_if_app, (Hent _ _ Hc0 Hst). cbn.
    destruct (Nat.eqb_spec p a) as [->|_]; [congruence|lia].
  - change (count_if (is_terminal (counted h count (done ++ [a]))) (done ++ [a]))
      with (count_if (is_terminal h) (done ++ [a])).
    rewrite count_if_app. cbn. unfold is_terminal at 2. rewrite Hc.
    destruct (_state c); [done|cbn; lia..].
  - intros Hx. destruct (Hex Hx) as (Hx1 & _). split; [|intros _ Hn; lia].
    change (count_if (is_terminal (counted h count (done ++ [a]))) (done ++ [a]))
      with (count_if (is_terminal h) (done ++ [a])).
    rewrite count_if_app. cbn. unfold is_terminal at 2. rewrite Hc.
    destruct (_state c); [done|cbn; lia..].
Qed.

(** The loop of [liftA] at an input that is pending: the input is pushed
    onto [t$s] and [L] onto its finish queue. *)
Lemma lift_inv_register_pending lo h count done a c :
  lift_inv strict lo 0 false h count done -> (done ++ [a]) `prefix_of` inputs ->
  cells h !! a = Some c -> _state c = PENDING ->
  lift_inv strict (S lo) 0 false
           (update_cell (counted h count (done ++ [a])) a (push_finish c L))
           count (done ++ [a]).
Proof.
  intros Hi Hpre' Hc Hs. pose proof (lift_inv_registering _ _ _ _ _ _ _ Hi Hpre') as Hlt.
  destruct Hi as [Hr Henv Hf Hpre Hlo HN Hopts Hq Hent Hcnt Hres Hfi Hex].
  set (h' := update_cell (counted h count (done ++ [a])) a (push_finish c L)).
  assert (forall q c0, q <> a -> cells h' !! q = Some c0 -> cells h !! q = Some c0) as Hother.
  { intros q c0 Hqa Hq0. cbn in Hq0. by rewrite list_lookup_insert_ne in Hq0. }
  assert (cells h' !! a = Some (push_finish c L)) as Ha.
  { cbn. apply list_lookup_insert_eq. by eapply lookup_lt_Some. }
  split; try done.
  - cbn. by rewrite length_insert.
  - cbn. by rewrite length_insert.
  - cbn. by apply list_lookup_insert_eq.
  - rewrite length_app. cbn. lia.
  - intros q Hq0. destruct (Hopts q Hq0) as (c0 & g & Hc0 & Hg & Hpu).
    destruct (decide (q = a)) as [->|Hqa].
    + exists (push_finish c L), g. split; [done|]. by assert (c0 = c) as -> by congruence.
    + exists c0, g. split; [|done]. cbn. by rewrite list_lookup_insert_ne.
  - intros q c0 Hq0 Hst. destruct (decide (q = a)) as [->|Hqa].
    + rewrite Ha in Hq0. injection Hq0 as <-. cbn. destruct (Hq _ _ Hc Hs) as (Hq1 & Hq2).
      split; [done|]. apply Forall_app. split; [done|]. apply Forall_singleton. by right.
    + eapply Hq; [|done]. by apply Hother.
  - intros q c0 Hq0 Hst. rewrite (count_if_app _ done). cbn.
    destruct (decide (q = a)) as [->|Hqa].
    + rewrite Ha in Hq0. injection Hq0 as <-. cbn [push_finish _finishListeners].
      rewrite count_if_app, (Hent _ _ Hc Hs), Nat.eqb_refl. cbn [count_if].
      by rewrite is_L_L.
    + rewrite (Hent q c0); [|by apply Hother|done].
      destruct (Nat.eqb_spec q a); [done|lia].
  - unfold h'. rewrite (terminal_count_same _ _ c); [|done|done].
    change (count_if (is_terminal (counted h count (done ++ [a]))) (done ++ [a]))
      with (count_if (is_terminal h) (done ++ [a])).
    rewrite count_if_app. lia.
  - intros c0 Hc0. destruct (decide (r = a)) as [<-|Hra].
    + rewrite Ha in Hc0. injection Hc0 as <-. cbn. by rewrite Hs.
    + apply Hother in Hc0; [|done]. specialize (Hres c0 Hc0).
      destruct (_state c0); [done| |done]. destruct Hres as (-> & _). lia.
  - intros Hx. destruct (Hex Hx) as (Hx1 & _). split; [|intros _ Hn; lia].
    unfold h'. rewrite (terminal_count_same _ _ c); [|done|done].
    change (count_if (is_terminal (counted h count (done ++ [a]))) (done ++ [a]))
      with (count_if (is_terminal h) (done ++ [a])).
    rewrite count_if_app. cbn. unfold is_terminal at 2. rewrite Hc, Hs. cbn. lia.
Qed.

(** The heap in which the loop of [liftA] starts: the result and the
    variables of the closure are new and no listener knows them. *)
Lemma lift_inv_init h :
  r = length (cells h) -> env = length (frames h) -> length inputs = N ->
  (forall p c, cells h !! p = Some c -> _state c = PENDING ->
     Forall quiet (_successListeners c ++ _failureListeners c ++ _finishListeners c)) ->
  (forall p, p ∈ inputs ->
     exists c g, cells h !! p = Some c /\
                 opt__errorToData__ (_options c) = Some g /\ pure_fn fenv g) ->
  lift_inv strict 0 0 false
           (with_frames (alloc h (fresh_cell None))
                        (frames h ++ [{| finishedCount := 0; ts := [] |}])) 0 [].
Proof.
  intros Hr Henv HN Hq Hopts.
  assert (forall p c, cells (alloc h (fresh_cell None)) !! p = Some c -> _state c = PENDING ->
            Forall quiet (_successListeners c ++ _failureListeners c ++ _finishListeners c))
    as Hq'.
  { intros p c Hc Hs. destruct (old_or_new _ _ _ _ Hc) as [Hc'|(_ & ->)]; [by eapply Hq|].
    cbn. done. }
  split.
  - cbn. rewrite length_app. cbn. lia.
  - cbn. rewrite length_app. cbn. lia.
  - cbn. rewrite Henv. by rewrite lookup_app_r, Nat.sub_diag.
  - apply prefix_nil.
  - done.
  - done.
  - intros p Hp. destruct (Hopts p Hp) as (c & g & Hc & Hg).
    exists c, g. split; [|done]. by apply lookup_alloc_old.
  - intros p c Hc Hs. specialize (Hq' p c Hc Hs). rewrite !Forall_app in Hq'.
    rewrite Forall_app. repeat split; try tauto.
    eapply Forall_impl; [apply Hq'|]. by left.
  - intros p c Hc Hs. specialize (Hq' p c Hc Hs). rewrite !Forall_app in Hq'.
    cbn. apply count_if_quiet. tauto.
  - cbn. lia.
  - intros c Hc. cbn in Hc. rewrite Hr in Hc. rewrite lookup_app_r, Nat.sub_diag in Hc by done.
    by injection Hc as <-.
  - done.
  - intros _. split; [cbn; lia|]. intros _ Hn Hpos. lia.
Qed.

Variable lo : nat.
Hypothesis Hpure : pure_fn fenv f.

(** The closures with a specification of their own: [L], and the calls of
    functions that only return a value. *)
Definition lift_special (kf : nat * bool) (t : task) (h : heap) : Prop :=
  match t with
  | Invoke cb _ => cb = L /\ kf.2 = false /\ lifted strict lo (S kf.1, false) h
  | Call g _ => pure_fn fenv g /\ lifted strict lo kf h
  end.

Definition lift_spost (kf : nat * bool) (t : task) (h : heap) (v : value) (h' : heap)
  : Prop :=
  match t with
  | Invoke _ _ => lifted strict lo kf h'
  | Call g args => v = eval_fn fenv g args /\ lifted strict lo kf h' /\ heap_evolves h h'
  end.

Local Abbreviation lift_E := (lifted false lo (0, false)).

Local Abbreviation lift_rec_ok :=
  (rec_ok unprotected always other_env (nat * bool)%type (lifted strict lo) lift_E
          lift_special lift_spost).

Section LiftRec.

Variable rec : task -> M value.
Hypothesis Hok : lift_rec_ok rec.

Lemma lift_invoke_quiet kf cb args h :
  quiet cb -> lifted strict lo kf h ->
  wp (invoke rec cb args) h (fun _ => lifted strict lo kf) lift_E.
Proof.
  intros Hcb Hi. destruct Hok as (_ & Hq & _). unfold invoke. apply wp_bind.
  eapply wp_mono; [apply (Hq kf (Invoke cb args) Hcb h Logic.I Hi)| |done].
  cbn. by intros ? ? (? & _).
Qed.

Lemma lift_invoke_L k args h :
  lifted strict lo (S k, false) h ->
  wp (invoke rec L args) h (fun _ => lifted strict lo (k, false)) lift_E.
Proof.
  intros Hi. destruct Hok as (_ & _ & Hsp). unfold invoke. apply wp_bind.
  eapply wp_mono; [apply (Hsp (k, false) (Invoke L args) h)| |done].
  - by repeat split.
  - cbn. by intros.
Qed.

Lemma lift_quiet_loop kf l args h :
  Forall quiet l -> lifted strict lo kf h ->
  wp (for_each (fun cb => invoke rec cb args) l) h (fun _ => lifted strict lo kf) lift_E.
Proof.
  intros Hl Hi. rewrite Forall_forall in Hl.
  apply wp_for_each; [done|]. intros cb h' Hcb Hi'. apply lift_invoke_quiet; auto.
Qed.

Lemma lifted_not_firing k h : lifted strict lo (S k, true) h -> False.
Proof.
  intros (count & done & Hi). destruct (lift_inv_firing _ _ _ _ _ Hi) as (Hk & _).
  done.
Qed.

(** The finish queue of a promise that is being resolved: every [L] in
    it counts one finished input. *)
Lemma lift_finish_loop k firing l args :
  Forall (fun cb => quiet cb \/ cb = L) l ->
  forall h, lifted strict lo (k + count_if is_L l, firing) h ->
  wp (for_each (fun cb => invoke rec cb args) l) h
     (fun _ => lifted strict lo (k, firing)) lift_E.
Proof.
  induction 1 as [|cb l Hcb _ IH]; intros h Hi; cbn [for_each count_if] in *.
  - cbn. by rewrite Nat.add_0_r in Hi.
  - apply wp_bind. destruct Hcb as [Hcb| ->].
    + rewrite (quiet_not_L _ Hcb) in Hi. cbn in Hi.
      eapply wp_mono; [by apply lift_invoke_quiet| |done].
      cbn. intros _ h' Hi'. by apply IH.
    + rewrite is_L_L in Hi.
      replace (k + (1 + count_if is_L l)) with (S (k + count_if is_L l)) in Hi by lia.
      destruct firing; [by apply lifted_not_firing in Hi|].
      eapply wp_mono; [by apply lift_invoke_L| |done].
      cbn. intros _ h' Hi'. by apply IH.
Qed.

Lemma lift_drain k firing c args args' h :
  Forall quiet (_successListeners c) -> Forall quiet (_failureListeners c) ->
  Forall (fun cb => quiet cb \/ cb = L) (_finishListeners c) ->
  forall ls, ls = _successListeners c \/ ls = _failureListeners c ->
  lifted strict lo (k + count_if is_L (_finishListeners c), firing) h ->
  wp (for_each (fun cb => invoke rec cb args) ls ;;;
      for_each (fun cb => invoke rec cb args') (_finishListeners c) ;;;
      ret VUndefined) h (fun _ => lifted strict lo (k, firing)) lift_E.
Proof.
  intros H1 H2 H3 ls Hls Hi. apply wp_bind.
  eapply wp_mono; [apply lift_quiet_loop; [by destruct Hls as [-> | ->]|exact Hi]| |done].
  cbn. intros _ h1 Hi1. apply wp_bind.
  eapply wp_mono; [by apply lift_finish_loop| |done].
  cbn. by intros.
Qed.

Lemma lift_hook_success kf p d h :
  unprotected p -> lifted strict lo kf h ->
  wp (__notifySuccess__ rec p d) h (fun _ => lifted strict lo kf) lift_E.
Proof.
  intros Hp Hi. destruct kf as [k firing].
  destruct (cells h !! p) as [c|] eqn:Hc;
    [|unfold wp, __notifySuccess__, bind, get_cell; rewrite Hc; by eapply lifted_E].
  destruct (decide (_state c = PENDING)) as [Hs|Hs];
    [|unfold wp; rewrite (__notifySuccess__finished _ _ _ _ _ Hc Hs); by eapply lifted_E].
  unfold wp at 1. rewrite (__notifySuccess__pending _ _ _ _ _ Hc Hs). fold (@wp value).
  destruct Hi as (count & done & Hi).
  destruct (li_quiet _ _ _ _ _ _ _ Hi p c Hc Hs) as (Hq1 & Hq3).
  apply Forall_app in Hq1 as (Hq1 & Hq2).
  apply (lift_drain k firing c); [done|done|done|by left|].
  exists count, done. rewrite (li_entries _ _ _ _ _ _ _ Hi p c Hc Hs).
  by apply lift_inv_resolve.
Qed.

Lemma lift_hook_failure kf p e h :
  unprotected p -> lifted strict lo kf h ->
  wp (__notifyFailure__ rec p e) h (fun _ => lifted strict lo kf) lift_E.
Proof.
  intros Hp Hi. destruct kf as [k firing].
  destruct (cells h !! p) as [c|] eqn:Hc;
    [|unfold wp, __notifyFailure__, bind, get_cell; rewrite Hc; by eapply lifted_E].
  destruct (decide (_state c = PENDING)) as [Hs|Hs];
    [|unfold wp; rewrite (__notifyFailure__finished _ _ _ _ _ Hc Hs); by eapply lifted_E].
  unfold wp at 1. rewrite (__notifyFailure__pending _ _ _ _ _ Hc Hs). fold (@wp value).
  destruct Hi as (count & done & Hi).
  destruct (li_quiet _ _ _ _ _ _ _ Hi p c Hc Hs) as (Hq1 & Hq3).
  apply Forall_app in Hq1 as (Hq1 & Hq2).
  apply (lift_drain k firing c); [done|done|done|by right|].
  exists count, done. rewrite (li_entries _ _ _ _ _ _ _ Hi p c Hc Hs).
  by apply lift_inv_resolve.
Qed.

(** A call of a function that only returns a value. *)
Lemma lift_step_call kf g args h :
  pure_fn fenv g -> lifted strict lo kf h ->
  wp (run_fn fenv rec g args) h
     (fun v h' => v = eval_fn fenv g args /\ lifted strict lo kf h' /\ heap_evolves h h') lift_E.
Proof.
  intros Hg Hi. destruct g as [id| | |]; try done; cbn [run_fn].
  - destruct (Hg args) as (v & Hv). unfold wp, bind. rewrite log_eq, Hv. cbn.
    rewrite Hv. split; [done|]. split; [by apply lifted_log|apply evolves_log].
  - cbn. split; [done|]. split; [done|apply heap_evolves_refl].
Qed.

(** A finished input whose fallback only returns a value. *)
Definition ready (h : heap) (p : ref) : Prop :=
  exists c g, cells h !! p = Some c /\ _state c <> PENDING /\
              opt__errorToData__ (_options c) = Some g /\ pure_fn fenv g.

Lemma ready_stable p : stable (fun h => ready h p).
Proof.
  intros h h' He (c & g & Hc & Hs & Hg). exists c, g. split; [|done].
  by eapply evolves_frozen.
Qed.

Lemma lift_call kf g args h :
  pure_fn fenv g -> lifted strict lo kf h ->
  wp (call rec g args) h
     (fun v h' => v = eval_fn fenv g args /\ lifted strict lo kf h' /\ heap_evolves h h') lift_E.
Proof.
  intros Hg Hi. destruct Hok as (_ & _ & Hsp).
  apply (Hsp kf (Call g args) h). by split.
Qed.

Lemma lift_getData kf p h :
  ready h p -> lifted strict lo kf h ->
  wp (getData rec p) h
     (fun v h' => is_data fenv h' p v /\ lifted strict lo kf h' /\ heap_evolves h h') lift_E.
Proof.
  intros (c & g & Hc & Hs & Hg & Hpu) Hi.
  unfold wp at 1, getData, bind at 1, get_cell. rewrite Hc. fold (@wp value).
  destruct (_state c) eqn:Hst; [done| |].
  - cbn. split; [left; by exists c|]. split; [done|apply heap_evolves_refl].
  - rewrite Hg. eapply wp_mono; [by apply lift_call| |done].
    cbn. intros v h' (-> & Hi' & He). split; [|done].
    right. exists c, g. split; [|done]. eapply evolves_frozen; [done|done|].
    by rewrite Hst.
Qed.

Lemma lift_getData_all kf ps :
  forall h, Forall (ready h) ps -> lifted strict lo kf h ->
  wp (map_m (fun t => a <- as_promise t ;; getData rec a) (map VPromise ps)) h
     (fun vs h' => Forall2 (is_data fenv h') ps vs /\ lifted strict lo kf h' /\ heap_evolves h h')
     lift_E.
Proof.
  induction ps as [|p ps IH]; intros h Hr Hi; cbn [map map_m].
  - cbn. split; [constructor|]. split; [done|apply heap_evolves_refl].
  - apply Forall_cons in Hr as (Hp & Hr). apply wp_bind. apply wp_bind. cbn [as_promise].
    unfold wp at 1, ret. fold (@wp value).
    eapply wp_mono; [by apply lift_getData| |done].
    cbn. intros v h1 (Hv & Hi1 & He1). apply wp_bind.
    eapply wp_mono; [apply (IH h1); [|done]| |done].
    + eapply Forall_impl; [exact Hr|]. intros q Hq. by eapply ready_stable.
    + cbn. intros vs h2 (Hvs & Hi2 & He2). split; [|split; [done|]].
      * constructor; [|done]. by eapply is_data_stable.
      * by eapply heap_evolves_trans.
Qed.

Lemma count_if_absent (p : ref) l : p ∉ l -> count_if (Nat.eqb p) l = 0.
Proof.
  induction l as [|q l IH]; cbn; intros Hp; [done|].
  apply not_elem_of_cons in Hp as (Hne & Hp).
  destruct (Nat.eqb_spec p q); [done|]. by apply IH.
Qed.

(** The resolution of the result by the last [L]. *)
Lemma lift_resolve_result vs h :
  lifted strict lo (0, true) h -> Forall2 (is_data fenv h) inputs vs ->
  wp (__notifySuccess__ rec r (eval_fn fenv f vs)) h
     (fun _ => lifted strict lo (0, false)) lift_E.
Proof.
  intros (count & done & Hi) Hvs.
  destruct (li_firing _ _ _ _ _ _ _ Hi eq_refl) as ((c & Hc & Hs) & Hn).
  destruct (lift_inv_firing _ _ _ _ _ Hi) as (_ & -> & Hterm).
  unfold wp at 1. rewrite (__notifySuccess__pending _ _ _ _ _ Hc Hs). fold (@wp value).
  destruct (li_quiet _ _ _ _ _ _ _ Hi r c Hc Hs) as (Hq1 & Hq3).
  apply Forall_app in Hq1 as (Hq1 & Hq2).
  assert (count_if is_L (_finishListeners c) = 0) as Hz.
  { rewrite (li_entries _ _ _ _ _ _ _ Hi r c Hc Hs). apply count_if_absent.
    intros Hin. specialize (Hterm r Hin). unfold is_terminal in Hterm.
    by rewrite Hc, Hs in Hterm. }
  apply (lift_drain 0 false c); [done|done|done|by left|].
  rewrite Hz. exists count, inputs. by apply lift_inv_fired.
Qed.

(** The listener [L]: it counts, and when it has counted all the inputs
    it resolves the result with [f] of their data. *)
Lemma lift_step_L k args h :
  lifted strict lo (S k, false) h ->
  wp (run_callback rec L args) h (fun _ => lifted strict lo (k, false)) lift_E.
Proof.
  intros (count & done & Hi). unfold L. cbn [run_callback].
  pose proof (lift_inv_counted _ _ _ _ _ Hi) as Hi1.
  unfold wp at 1, bind at 1, get_frame. rewrite (li_frame _ _ _ _ _ _ _ Hi).
  unfold bind at 1, set_frame. cbn [finishedCount ts].
  fold (counted h (S count) done). fold (@wp value).
  destruct (Nat.eqb (S count) N) eqn:HN.
  - destruct (lift_inv_firing _ _ _ _ _ Hi1) as (-> & -> & Hterm).
    apply wp_bind.
    eapply wp_mono; [apply (lift_getData_all (0, true) inputs)| |done].
    + apply Forall_forall. intros p Hp.
      destruct (li_opts _ _ _ _ _ _ _ Hi1 p Hp) as (c & g & Hc & Hg & Hpu).
      exists c, g. split; [done|]. split; [|done].
      specialize (Hterm p Hp). unfold is_terminal in Hterm. rewrite Hc in Hterm.
      intros Hst. by rewrite Hst in Hterm.
    + by exists (S count), inputs.
    + cbn. intros vs h2 (Hvs & Hi2 & He2). apply wp_bind.
      eapply wp_mono; [by apply lift_call| |done].
      cbn. intros v h3 (-> & Hi3 & He3).
      apply lift_resolve_result; [done|].
      eapply Forall2_impl; [exact Hvs|]. intros p v Hpv. by eapply is_data_stable.
  - cbn. by exists (S count), done.
Qed.

End LiftRec.

(** The invariant of the lifted function is kept by every quiet closure
    and function, by [L], and by the functions that only return a value. *)
Theorem lift_run n : lift_rec_ok (run fenv n).
Proof.
  apply (keeps_run fenv unprotected always other_env (nat * bool)%type
           (lifted strict lo) lift_E).
  - intros kf h. apply lifted_E.
  - intros kf h o _. apply lifted_alloc.
  - apply lifted_fresh.
  - apply lifted_push_success.
  - apply lifted_push_failure.
  - apply lifted_set_frame.
  - intros kf h id args. apply lifted_log.
  - intros kf h id args _. apply lifted_log.
  - intros kf h p c g _ _ _. apply quiet_fn_always.
  - intros rec Hok. split.
    + intros kf p d Hp h _ Hi.
      eapply wp_mono; [by apply lift_hook_success| |done]. cbn. by intros.
    + intros kf p e Hp h _ Hi.
      eapply wp_mono; [by apply lift_hook_failure| |done]. cbn. by intros.
  - intros rec Hok [k firing] t h Hsp. destruct t as [cb args|g args]; cbn [step].
    + destruct Hsp as (-> & Hf & Hi). cbn in Hf. subst firing.
      by apply lift_step_L.
    + destruct Hsp as (Hg & Hi). by apply lift_step_call.
Qed.

(** Every operation that does not resolve the result itself keeps the
    invariant, whether it returns or throws. *)
Theorem lift_do_op fuel o h :
  quiet_op unprotected always other_env o -> lifted strict lo (0, false) h ->
  wp (do_op fenv fuel o) h (fun _ => lifted strict lo (0, false)) lift_E.
Proof.
  intros Ho Hi.
  eapply wp_mono;
    [apply (keeps_do_op fenv unprotected always other_env (nat * bool)%type
              (lifted strict lo) lift_E) with (special := lift_special) (spost := lift_spost)
              (k := (0, false)) (o := o); try done| |done].
  - intros kf h'. apply lifted_E.
  - intros kf h' o' _. apply lifted_alloc.
  - apply lifted_fresh.
  - apply lifted_push_success.
  - apply lifted_push_failure.
  - apply lifted_push_finish.
  - apply lifted_new_frame.
  - apply lifted_fresh_env.
  - apply lifted_set_frame.
  - intros kf h' id args. apply lifted_log.
  - intros kf h' id args _. apply lifted_log.
  - intros kf h' p c g _ _ _. apply quiet_fn_always.
  - intros rec Hok. split.
    + intros kf p d Hp h' _ Hi'.
      eapply wp_mono; [by apply lift_hook_success| |done]. cbn. by intros.
    + intros kf p e Hp h' _ Hi'.
      eapply wp_mono; [by apply lift_hook_failure| |done]. cbn. by intros.
  - intros rec Hok [k firing] t h' Hsp. destruct t as [cb args|g args]; cbn [step].
    + destruct Hsp as (-> & Hf & Hi'). cbn in Hf. subst firing.
      by apply lift_step_L.
    + destruct Hsp as (Hg & Hi'). by apply lift_step_call.
  - cbn. by intros ? ? (? & _).
Qed.

(** A program whose operations all return keeps the invariant as it is. *)
Lemma lift_do_ops_returning fuel os :
  Forall (quiet_op unprotected always other_env) os ->
  forall h h', lifted strict lo (0, false) h -> do_ops_returning fenv fuel os h = Some h' ->
               lifted strict lo (0, false) h'.
Proof.
  induction 1 as [|o os Ho _ IH]; intros h h' Hi; cbn.
  - by intros [= <-].
  - pose proof (lift_do_op fuel o h Ho Hi) as Hwp. unfold wp in Hwp.
    destruct (do_op fenv fuel o h) as [v h1|e h1|]; [|done..]. by apply IH.
Qed.

End LiftA.

(** A program whose operations may throw keeps the invariant without its
    strict part. *)
Lemma lift_do_ops fenv f N env r inputs strict lo fuel os :
  pure_fn fenv f ->
  Forall (quiet_op (unprotected r) always (other_env env)) os ->
  forall h h', lifted fenv f N env r inputs strict lo (0, false) h ->
               do_ops fenv fuel os h = Some h' ->
               lifted fenv f N env r inputs false lo (0, false) h'.
Proof.
  intros Hpure Hos h h' Hi. apply (lifted_E fenv f N env r inputs strict) in Hi.
  revert h h' Hi. induction Hos as [|o os Ho _ IH]; intros h h' Hi; cbn.
  - by intros [= <-].
  - destruct (final_heap (do_op fenv fuel o h)) as [h1|] eqn:Hf; [|done].
    apply IH.
    destruct (wp_final _ _ _ _ _
                (lift_do_op fenv f N env r inputs false lo Hpure fuel o h Ho Hi) Hf)
      as [(? & _ & ?)|(? & _ & ?)]; done.
Qed.

(** ** The construction of [liftA] *)

Lemma prefix_same_length {A} (l1 l2 l : list A) :
  l1 `prefix_of` l -> l2 `prefix_of` l -> length l1 = length l2 -> l1 = l2.
Proof.
  intros (k1 & ->) (k2 & H2) Hlen.
  apply (f_equal (take (length l1))) in H2.
  rewrite take_app_length in H2. rewrite Hlen in H2. by rewrite take_app_length in H2.
Qed.

(** Every listener that may still be called knows only promises and
    frames that exist. *)
Definition closed_heap (h : heap) : Prop :=
  forall p c, cells h !! p = Some c -> _state c = PENDING ->
    Forall (quiet_cb (fun q => q < length (cells h)) always
                     (fun e => e < length (frames h)))
           (_successListeners c ++ _failureListeners c ++ _finishListeners c).

(** A promise whose [__errorToData__] returns a value. *)
Definition convertible (fenv : nat -> list value -> action) (h : heap) (p : ref) : Prop :=
  exists c g, cells h !! p = Some c /\
              opt__errorToData__ (_options c) = Some g /\ pure_fn fenv g.

Lemma quiet_cb_weaken (tgt tgt' env env' : nat -> Prop) cb :
  (forall p, tgt p -> tgt' p) -> (forall e, env e -> env' e) ->
  quiet_cb tgt always env cb -> quiet_cb tgt' always env' cb.
Proof. intros Ht He. destruct cb; cbn; unfold always; intuition auto. Qed.

Section LiftBuild.

Variable fenv : nat -> list value -> action.
Variables (f : fn) (env : nat) (r : ref) (inputs : list ref).
Variable fuel : nat.
Variable strict : bool.
Hypothesis Hpure : pure_fn fenv f.

Local Abbreviation N := (length inputs).
Local Abbreviation rec := (run fenv fuel).
Local Abbreviation lifted_at := (lifted fenv f N env r inputs strict).

Lemma lift_loop rest :
  forall done h, inputs = done ++ rest -> lifted_at (length done) (0, false) h ->
  wp (for_each (fun arg =>
                  fr <- get_frame env ;;
                  set_frame env {| finishedCount := finishedCount fr;
                                   ts := ts fr ++ [arg] |} ;;;
                  a <- as_promise arg ;;
                  registerFinishListener rec a (CbLiftA f N env r) ;;;
                  ret tt)
               (map VPromise rest)) h
     (fun _ => lifted_at N (0, false)) (fun _ => True).
Proof.
  induction rest as [|a rest IH]; intros done h Hin (count & done' & Hi).
  - cbn. rewrite app_nil_r in Hin. subst done. by exists count, done'.
  - assert (done' = done) as ->.
    { eapply prefix_same_length; [apply Hi| |apply Hi]. rewrite Hin. by apply prefix_app_r. }
    cbn [map for_each]. apply wp_bind. apply wp_bind.
    apply wp_get_frame; [|done]. intros fr Hfr.
    rewrite (li_frame _ _ _ _ _ _ _ _ _ _ _ _ _ Hi) in Hfr. injection Hfr as <-.
    cbn [finishedCount ts]. apply wp_bind. unfold wp at 1. cbn [set_frame].
    change [VPromise a] with (map VPromise [a]). rewrite <- (map_app VPromise done [a]).
    change {| cells := cells h;
              frames := <[env := {| finishedCount := count;
                                    ts := map VPromise (done ++ [a]) |}]> (frames h);
              trace := trace h |}
      with (counted env h count (done ++ [a])).
    assert ((done ++ [a]) `prefix_of` inputs) as Hpre.
    { exists rest. by rewrite <- app_assoc. }
    assert (inputs = (done ++ [a]) ++ rest) as Hin'.
    { by rewrite <- app_assoc. }
    assert (length (done ++ [a]) = S (length done)) as Hlen.
    { rewrite length_app. cbn. lia. }
    destruct (li_opts _ _ _ _ _ _ _ _ _ _ _ _ _ Hi a) as (c & g & Hc & _).
    { rewrite Hin. apply elem_of_app. right. by left. }
    apply wp_bind. cbn [as_promise]. apply wp_ret.
    apply wp_bind. unfold registerFinishListener. apply wp_bind.
    apply wp_get_cell; [|done]. intros c0 Hc0. cbn in Hc0.
    assert (c0 = c) as -> by congruence. clear Hc0.
    destruct (_state c) eqn:Hs.
    + apply wp_bind. unfold wp at 1. cbn [set_cell].
      change {| cells := <[a := push_finish c (CbLiftA f N env r)]>
                           (cells (counted env h count (done ++ [a])));
                frames := frames (counted env h count (done ++ [a]));
                trace := trace (counted env h count (done ++ [a])) |}
        with (update_cell (counted env h count (done ++ [a])) a
                          (push_finish c (L f N env r))).
      apply wp_ret. apply wp_ret. apply (IH (done ++ [a])); [done|].
      rewrite Hlen. exists count, (done ++ [a]).
      by apply lift_inv_register_pending.
    + apply wp_bind.
      apply (wp_mono _ _ (fun _ => lifted_at (S (length done)) (0, false)) _
                     (lifted fenv f N env r inputs false (S (length done)) (0, false)));
        [| |done].
      * apply (lift_invoke_L fenv f N env r inputs strict (S (length done)) rec
                 (lift_run fenv f N env r inputs strict (S (length done)) Hpure fuel) 0).
        exists count, (done ++ [a]).
        apply (lift_inv_register_finished _ _ _ _ _ _ _ _ _ _ _ _ c);
          [done|done|done|by rewrite Hs].
      * intros ? h' Hl. apply wp_ret. apply wp_ret.
        apply (IH (done ++ [a])); [done|by rewrite Hlen].
    + apply wp_bind.
      apply (wp_mono _ _ (fun _ => lifted_at (S (length done)) (0, false)) _
                     (lifted fenv f N env r inputs false (S (length done)) (0, false)));
        [| |done].
      * apply (lift_invoke_L fenv f N env r inputs strict (S (length done)) rec
                 (lift_run fenv f N env r inputs strict (S (length done)) Hpure fuel) 0).
        exists count, (done ++ [a]).
        apply (lift_inv_register_finished _ _ _ _ _ _ _ _ _ _ _ _ c);
          [done|done|done|by rewrite Hs].
      * intros ? h' Hl. apply wp_ret. apply wp_ret.
        apply (IH (done ++ [a])); [done|by rewrite Hlen].
Qed.

(** [liftA(f)(inputs...)] returns a new promise for which the invariant
    holds with all the inputs registered. *)
Lemma lift_build h :
  r = length (cells h) -> env = length (frames h) -> closed_heap h ->
  (forall p, p ∈ inputs -> convertible fenv h p) ->
  wp (liftA rec f (map VPromise inputs)) h
     (fun r' h' => r' = r /\ lifted_at N (0, false) h') (fun _ => True).
Proof.
  intros Hr He Hcl Hin. unfold liftA. rewrite length_map.
  apply wp_bind. unfold wp at 1. rewrite promise_eq. rewrite <- Hr.
  apply wp_bind. unfold wp at 1. cbn [new_frame alloc frames cells trace]. rewrite <- He.
  apply wp_bind.
  apply (wp_mono _ _ (fun _ => lifted_at N (0, false)) _ (fun _ => True)); [| |done].
  - apply (lift_loop inputs [] _ eq_refl).
    exists 0, []. apply (lift_inv_init fenv f N env r inputs strict h); try done.
    intros p c Hc Hs. eapply Forall_impl; [by apply (Hcl p c)|].
    intros cb. apply quiet_cb_weaken.
    + unfold unprotected. lia.
    + unfold other_env. lia.
  - intros ? h' Hl. by apply wp_ret.
Qed.

End LiftBuild.

Lemma count_if_true {A} (p : A -> bool) l :
  (forall x, x ∈ l -> p x = true) -> count_if p l = length l.
Proof.
  induction l as [|x l IH]; intros H; cbn; [done|].
  rewrite (H x) by (by left). rewrite IH; [done|]. intros y Hy. apply H. by right.
Qed.

Lemma lift_inv_all fenv f N env r inputs strict k firing h count done :
  lift_inv fenv f N env r inputs strict N k firing h count done -> done = inputs.
Proof.
  intros Hi. eapply prefix_same_length; [apply Hi|done|].
  by rewrite (li_lo _ _ _ _ _ _ _ _ _ _ _ _ _ Hi), (li_N _ _ _ _ _ _ _ _ _ _ _ _ _ Hi).
Qed.

(** What the invariant says about the result once all inputs are
    registered: it is not FAILED, and if it is SUCCEEDED all inputs are
    finished and its data is what [f] returns for their data. *)
Lemma lifted_result fenv f N env r inputs strict kf h :
  lifted fenv f N env r inputs strict N kf h ->
  exists c, cells h !! r = Some c /\ _state c <> FAILED /\
    (_state c = SUCCEEDED ->
       (forall p, p ∈ inputs -> is_terminal h p = true) /\
       exists vs, Forall2 (is_data fenv h) inputs vs /\ _data c = eval_fn fenv f vs).
Proof.
  intros (count & done & Hi). pose proof (lift_inv_all _ _ _ _ _ _ _ _ _ _ _ _ Hi) as ->.
  destruct (lift_inv_bounds _ _ _ _ _ _ _ _ _ _ _ _ _ Hi) as (Hb1 & Hb2 & Hb3).
  pose proof (li_N _ _ _ _ _ _ _ _ _ _ _ _ _ Hi) as HN.
  destruct (lookup_lt_is_Some_2 (cells h) r (li_r _ _ _ _ _ _ _ _ _ _ _ _ _ Hi)) as (c & Hc).
  exists c. split; [done|]. pose proof (li_result _ _ _ _ _ _ _ _ _ _ _ _ _ Hi c Hc) as Hres.
  destruct (_state c); [by split|..|done].
  destruct Hres as (-> & _ & Hvs). split; [done|]. intros _. split; [|done].
  apply count_if_all. lia.
Qed.

(** With the strict part: once every input has finished the result is
    SUCCEEDED. *)
Lemma lifted_live fenv f N env r inputs h :
  lifted fenv f N env r inputs true N (0, false) h -> 0 < N ->
  (forall p, p ∈ inputs -> is_terminal h p = true) ->
  exists d, succeeded h r d.
Proof.
  intros (count & done & Hi) Hpos Hall.
  pose proof (lift_inv_all _ _ _ _ _ _ _ _ _ _ _ _ Hi) as ->.
  pose proof (li_N _ _ _ _ _ _ _ _ _ _ _ _ _ Hi) as HN.
  destruct (li_strict _ _ _ _ _ _ _ _ _ _ _ _ _ Hi eq_refl) as (Hx1 & Hx2).
  apply Hx2; [done| |done]. rewrite (count_if_true _ _ Hall) in Hx1. cbn in Hx1. lia.
Qed.

Lemma is_data_functional fenv h p v v' :
  is_data fenv h p v -> is_data fenv h p v' -> v = v'.
Proof.
  intros [(c & Hc & Hs & Hd)|(c & g & Hc & Hs & Hg & ->)]
         [(c' & Hc' & Hs' & Hd')|(c' & g' & Hc' & Hs' & Hg' & ->)];
    assert (c' = c) as -> by congruence; congruence.
Qed.

(** The values of [is_data] are those that the data accessor returns. *)
Lemma lifted_data_accessor fenv f N env r inputs strict lo kf fuel h p v v' h' :
  pure_fn fenv f -> lifted fenv f N env r inputs strict lo kf h -> p ∈ inputs ->
  is_data fenv h p v -> getData (run fenv fuel) p h = Ret v' h' -> v' = v.
Proof.
  intros Hpure Hl Hp Hv Hget.
  assert (ready fenv h p) as Hready.
  { destruct Hl as (count & done & Hi).
    destruct (li_opts _ _ _ _ _ _ _ _ _ _ _ _ _ Hi p Hp) as (c & g & Hc & Hg & Hpu).
    exists c, g. split; [done|]. split; [|done].
    destruct Hv as [(c' & Hc' & Hs & _)|(c' & g' & Hc' & Hs & _)];
      assert (c' = c) as -> by congruence; by rewrite Hs. }
  pose proof (lift_getData fenv f N env r inputs strict lo (run fenv fuel)
                (lift_run fenv f N env r inputs strict lo Hpure fuel) kf p h Hready Hl)
    as Hwp.
  unfold wp in Hwp. rewrite Hget in Hwp. destruct Hwp as (Hv' & _ & He).
  eapply is_data_functional; [exact Hv'|]. by eapply is_data_stable.
Qed.

(** The masking scenario: a promise failed with "boom", a promise
    succeeded with "x", and [liftA(function (a, b) { return a + b; })]. *)
Definition masking_heap : heap :=
  alloc (alloc empty_heap (set_state (fresh_cell None) FAILED VUndefined (VStr "boom")))
        (set_state (fresh_cell None) SUCCEEDED (VStr "x") VUndefined).

Definition scenario_masking : M ref :=
  let rec := run demo_fenv 3 in
  p0 <- promise None ;;
  __notifyFailure__ rec p0 (VStr "boom") ;;;
  p1 <- cbl_unit rec (VStr "x") ;;
  liftA rec (FUser 1) [VPromise p0; VPromise p1].

Lemma pure_demo_plus : pure_fn demo_fenv (FUser 1).
Proof. intros [|a [|b [|c args]]]; eexists; reflexivity. Qed.

Lemma closed_masking_heap : closed_heap masking_heap.
Proof.
  intros p c Hc Hs. destruct p as [|[|p]]; cbn in Hc; [| |done];
    injection Hc as <-; discriminate Hs.
Qed.

Lemma convertible_masking_heap p : p ∈ [0; 1] -> convertible demo_fenv masking_heap p.
Proof.
  intros Hp. apply elem_of_cons in Hp as [->|Hp]; [|apply elem_of_cons in Hp as [->|Hp]].
  - eexists _, F__errorToData__. repeat split.
  - eexists _, F__errorToData__. repeat split.
  - by apply elem_of_nil in Hp.
Qed.



(** ** The observers: [isSuccess$], [isFailure$], [getError$] *)

(** The shape of the observers: a new promise and two closures that know
    it, one on each channel of the input. *)
Definition observe (rec : task -> M value) (cbS cbF : ref -> callback) (sv : value)
  : M ref :=
  p <- promise None ;;
  a <- as_promise sv ;;
  registerSuccessListener rec a (cbS p) ;;;
  registerFailureListener rec a (cbF p) ;;;
  ret p.

Section Observers.

Variable fenv : nat -> list value -> action.

Lemma subscribed_stable s cbS cbF : stable (fun h => subscribed fenv h s cbS cbF).
Proof.
  intros h h' He [(H1 & H2)|[(d & Hd & Hp)|(e & Hf & Hp)]].
  - left. split; [by eapply has_success_listener_stable|by eapply has_failure_listener_stable].
  - right. left. exists d. split; [by eapply succeeded_stable|by eapply post_stable].
  - right. right. exists e. split; [by eapply failed_stable|by eapply post_stable].
Qed.

(** Once the promise is finished the matching listener has returned. *)
Lemma subscribed_result h s cbS cbF :
  settled fenv no_exempt h -> subscribed fenv h s cbS cbF ->
  (forall d, succeeded h s d -> post fenv cbS [d] h) /\
  (forall e, failed h s e -> post fenv cbF [e] h).
Proof.
  intros Hs [(H1 & H2)|[(d0 & Hq & Hp)|(e0 & Hq & Hp)]]; split.
  - intros d Hd. apply (settled_success_listener _ _ _ _ _ Hs H1 Hd).
  - intros e He. apply (settled_failure_listener _ _ _ _ _ Hs H2 He).
  - intros d Hd. by rewrite (succeeded_inj _ _ _ _ Hd Hq).
  - intros e He. exfalso. by eapply (succeeded_not_failed h _ _ _ Hq He).
  - intros d Hd. exfalso. by eapply (succeeded_not_failed h _ _ _ Hd Hq).
  - intros e He. by rewrite (failed_inj _ _ _ _ He Hq).
Qed.

Variable fuel : nat.

Lemma achieves_observe k cbS cbF sv h :
  settled fenv k h ->
  achieves fenv k (observe (run fenv fuel) cbS cbF sv) h
    (fun p h' => exists s, sv = VPromise s /\ subscribed fenv h' s (cbS p) (cbF p)).
Proof.
  intros Hs. unfold observe.
  pose proof (evolving_run fenv fuel) as Hev. pose proof (run_achieves fenv fuel) as Hrec.
  eapply achieves_bind; [by apply achieves_promise|]. intros p h1 Hs1 He1 _.
  eapply achieves_bind;
    [by apply (achieves_as_promise fenv k sv h1 (fun r _ => sv = VPromise r))|].
  intros s h2 Hs2 He2 ->.
  eapply achieves_mono; [by apply achieves_subscribe|].
  cbn. intros a h3 He3 (-> & Hsub). by exists s.
Qed.

(** The result of an observer in every heap that a program reaches by
    operations that return. *)
Lemma observe_result cbS cbF s h p h1 os h2 :
  settled fenv no_exempt h ->
  observe (run fenv fuel) cbS cbF (VPromise s) h = Ret p h1 ->
  do_ops_returning fenv fuel os h1 = Some h2 ->
  (forall d, succeeded h2 s d -> post fenv (cbS p) [d] h2) /\
  (forall e, failed h2 s e -> post fenv (cbF p) [e] h2).
Proof.
  intros Hs Ho Hos.
  destruct (achieves_returned _ _ _ _ _ _ _ (achieves_observe no_exempt cbS cbF _ h Hs) Ho)
    as (Hs1 & He1 & s' & [= <-] & Hsub).
  pose proof (do_ops_returning_settled _ _ _ _ _ _ Hs1 Hos) as Hs2.
  pose proof (do_ops_returning_evolves _ _ _ _ _ Hos) as He2.
  apply subscribed_result; [done|]. by eapply subscribed_stable.
Qed.

End Observers.

Section ObserversExact.

Variable fenv : nat -> list value -> action.

Lemma observe_pending rec cbS cbF s h c :
  cells h !! s = Some c -> _state c = PENDING ->
  observe rec cbS cbF (VPromise s) h =
  Ret (length (cells h))
      (update_cell (alloc h (fresh_cell None)) s
         (push_failure (push_success c (cbS (length (cells h)))) (cbF (length (cells h))))).
Proof.
  intros Hc Hs. unfold observe.
  rewrite (bind_eq _ _ _ _ _ (promise_eq None h)).
  unfold bind at 1. cbn [as_promise ret].
  pose proof (lookup_alloc_old h (fresh_cell None) _ _ Hc) as Hc1.
  rewrite (bind_eq _ _ _ _ _ (registerSuccessListener_pending _ _ _ _ _ Hc1 Hs)).
  erewrite bind_eq;
    [|eapply registerFailureListener_pending; [by eapply lookup_update_cell|done]].
  by rewrite update_cell_twice.
Qed.

Lemma observe_succeeded rec cbS cbF s h c h' :
  cells h !! s = Some c -> _state c = SUCCEEDED ->
  invoke rec (cbS (length (cells h))) [_data c] (alloc h (fresh_cell None))
    = Ret tt h' ->
  cells h' !! s = Some c ->
  observe rec cbS cbF (VPromise s) h = Ret (length (cells h)) h'.
Proof.
  intros Hc Hs Hi Hc'. unfold observe.
  rewrite (bind_eq _ _ _ _ _ (promise_eq None h)).
  unfold bind at 1. cbn [as_promise ret].
  pose proof (lookup_alloc_old h (fresh_cell None) _ _ Hc) as Hc1.
  unfold bind at 1.
  rewrite (registerSuccessListener_succeeded _ _ _ _ _ Hc1 Hs).
  unfold bind at 1. rewrite Hi.
  unfold ret at 1. unfold bind at 1.
  by rewrite (registerFailureListener_succeeded _ _ _ _ _ Hc' Hs).
Qed.

Lemma observe_failed rec cbS cbF s h c h' :
  cells h !! s = Some c -> _state c = FAILED ->
  invoke rec (cbF (length (cells h))) [_error c] (alloc h (fresh_cell None))
    = Ret tt h' ->
  observe rec cbS cbF (VPromise s) h = Ret (length (cells h)) h'.
Proof.
  intros Hc Hs Hi. unfold observe.
  rewrite (bind_eq _ _ _ _ _ (promise_eq None h)).
  unfold bind at 1. cbn [as_promise ret].
  pose proof (lookup_alloc_old h (fresh_cell None) _ _ Hc) as Hc1.
  rewrite (bind_eq _ _ _ _ _ (registerSuccessListener_failed _ _ _ _ _ Hc1 Hs)).
  unfold bind at 1.
  rewrite (registerFailureListener_failed _ _ _ _ _ Hc1 Hs).
  unfold bind at 1. by rewrite Hi.
Qed.

(** The closures of the observers, called on the new promise. *)
Lemma invoke_resolve_fresh n h o args :
  (forall v, invoke (run fenv (S n)) (CbSuccessConst (length (cells h)) v) args
               (alloc h (fresh_cell o))
             = Ret tt (alloc h (set_state (fresh_cell o) SUCCEEDED v VUndefined))) /\
  (forall v, invoke (run fenv (S n)) (CbFailureConst (length (cells h)) v) args
               (alloc h (fresh_cell o))
             = Ret tt (alloc h (set_state (fresh_cell o) FAILED VUndefined v))) /\
  invoke (run fenv (S n)) (CbSuccess (length (cells h))) args (alloc h (fresh_cell o))
    = Ret tt (alloc h (set_state (fresh_cell o) SUCCEEDED (first_arg args) VUndefined)) /\
  invoke (run fenv (S n)) (CbFailure (length (cells h))) args (alloc h (fresh_cell o))
    = Ret tt (alloc h (set_state (fresh_cell o) FAILED VUndefined (first_arg args))).
Proof.
  repeat split; intros; rewrite run_invoke; cbn [run_callback]; unfold bind at 1;
    first [by rewrite notifySuccess_fresh | by rewrite notifyFailure_fresh].
Qed.

End ObserversExact.

(** The closures of [isSuccess$] and [isFailure$], and the closure of
    [getError$] on the success channel, for the new promise [q]. *)
Definition answer (b : bool) : ref -> callback := fun q => CbSuccessConst q (VBool b).
Definition no_error : ref -> callback := fun q => CbFailureConst q VNull.

(** X1.  [isSuccess$(p)] returns a new promise.  If [p] is PENDING the
    two closures are stored, once each, and nothing else changes; if [p] is
    SUCCEEDED the new promise is SUCCEEDED with [true] when [isSuccess$]
    returns, if [p] is FAILED it is SUCCEEDED with [false].  In every heap
    that a program reaches by operations that return, the new promise is
    SUCCEEDED with [true] if [p] is SUCCEEDED and with [false] if [p] is
    FAILED. *)
Theorem X1_isSuccess fenv fuel s c h :
  cells h !! s = Some c ->
  let p := length (cells h) in
  (_state c = PENDING ->
   forall rec,
     isSuccess_ rec (VPromise s) h =
     Ret p (update_cell (alloc h (fresh_cell None)) s
              (push_failure (push_success c (CbSuccessConst p (VBool true)))
                            (CbSuccessConst p (VBool false))))) /\
  (_state c = SUCCEEDED ->
   isSuccess_ (run fenv (S fuel)) (VPromise s) h =
   Ret p (alloc h (set_state (fresh_cell None) SUCCEEDED (VBool true) VUndefined))) /\
  (_state c = FAILED ->
   isSuccess_ (run fenv (S fuel)) (VPromise s) h =
   Ret p (alloc h (set_state (fresh_cell None) SUCCEEDED (VBool false) VUndefined))) /\
  (settled fenv no_exempt h ->
   forall h1 os h2,
     isSuccess_ (run fenv fuel) (VPromise s) h = Ret p h1 ->
     do_ops_returning fenv fuel os h1 = Some h2 ->
     (forall d, succeeded h2 s d -> succeeded h2 p (VBool true)) /\
     (forall e, failed h2 s e -> succeeded h2 p (VBool false))).
Proof.
  intros Hc p. split; [|split; [|split]].
  - intros Hs rec. by apply (observe_pending rec (answer true) (answer false) s h c).
  - intros Hs. eapply (observe_succeeded _ (answer true) (answer false)
      s h c); [done|done| |by apply lookup_alloc_old].
    apply (invoke_resolve_fresh fenv fuel h None).
  - intros Hs. eapply (observe_failed _ (answer true) (answer false) s h c); [done|done|].
    apply (invoke_resolve_fresh fenv fuel h None).
  - intros Hset h1 os h2 Ho Hos.
    apply (observe_result fenv fuel (answer true) (answer false) s h p h1 os h2 Hset Ho Hos).
Qed.

(** X2.  [isFailure$(p)] returns a new promise: the two closures are
    stored if [p] is PENDING; the new promise is SUCCEEDED with [false] at
    once if [p] is SUCCEEDED and with [true] if [p] is FAILED; and in every
    heap that a program reaches by operations that return it is SUCCEEDED
    with [false] if [p] is SUCCEEDED and with [true] if [p] is FAILED. *)
Theorem X2_isFailure fenv fuel s c h :
  cells h !! s = Some c ->
  let p := length (cells h) in
  (_state c = PENDING ->
   forall rec,
     isFailure_ rec (VPromise s) h =
     Ret p (update_cell (alloc h (fresh_cell None)) s
              (push_failure (push_success c (CbSuccessConst p (VBool false)))
                            (CbSuccessConst p (VBool true))))) /\
  (_state c = SUCCEEDED ->
   isFailure_ (run fenv (S fuel)) (VPromise s) h =
   Ret p (alloc h (set_state (fresh_cell None) SUCCEEDED (VBool false) VUndefined))) /\
  (_state c = FAILED ->
   isFailure_ (run fenv (S fuel)) (VPromise s) h =
   Ret p (alloc h (set_state (fresh_cell None) SUCCEEDED (VBool true) VUndefined))) /\
  (settled fenv no_exempt h ->
   forall h1 os h2,
     isFailure_ (run fenv fuel) (VPromise s) h = Ret p h1 ->
     do_ops_returning fenv fuel os h1 = Some h2 ->
     (forall d, succeeded h2 s d -> succeeded h2 p (VBool false)) /\
     (forall e, failed h2 s e -> succeeded h2 p (VBool true))).
Proof.
  intros Hc p. split; [|split; [|split]].
  - intros Hs rec. by apply (observe_pending rec (answer false) (answer true) s h c).
  - intros Hs. eapply (observe_succeeded _ (answer false) (answer true)
      s h c); [done|done| |by apply lookup_alloc_old].
    apply (invoke_resolve_fresh fenv fuel h None).
  - intros Hs. eapply (observe_failed _ (answer false) (answer true) s h c); [done|done|].
    apply (invoke_resolve_fresh fenv fuel h None).
  - intros Hset h1 os h2 Ho Hos.
    apply (observe_result fenv fuel (answer false) (answer true) s h p h1 os h2 Hset Ho Hos).
Qed.

(** X3.  [getError$(p)] returns a new promise with the outcome of [p]
    turned around: FAILED with [null] if [p] is SUCCEEDED, SUCCEEDED with
    the error of [p] if [p] is FAILED, at once if [p] is finished and else
    in every heap that a program reaches by operations that return; if [p]
    is PENDING the two closures are stored and nothing else changes. *)
Theorem X3_getError fenv fuel s c h :
  cells h !! s = Some c ->
  let p := length (cells h) in
  (_state c = PENDING ->
   forall rec,
     getError_ rec (VPromise s) h =
     Ret p (update_cell (alloc h (fresh_cell None)) s
              (push_failure (push_success c (CbFailureConst p VNull)) (CbSuccess p)))) /\
  (_state c = SUCCEEDED ->
   getError_ (run fenv (S fuel)) (VPromise s) h =
   Ret p (alloc h (set_state (fresh_cell None) FAILED VUndefined VNull))) /\
  (_state c = FAILED ->
   getError_ (run fenv (S fuel)) (VPromise s) h =
   Ret p (alloc h (set_state (fresh_cell None) SUCCEEDED (_error c) VUndefined))) /\
  (settled fenv no_exempt h ->
   forall h1 os h2,
     getError_ (run fenv fuel) (VPromise s) h = Ret p h1 ->
     do_ops_returning fenv fuel os h1 = Some h2 ->
     (forall d, succeeded h2 s d -> failed h2 p VNull) /\
     (forall e, failed h2 s e -> succeeded h2 p e)).
Proof.
  intros Hc p. split; [|split; [|split]].
  - intros Hs rec. by apply (observe_pending rec no_error (CbSuccess) s h c).
  - intros Hs. eapply (observe_succeeded _ no_error (CbSuccess)
      s h c); [done|done| |by apply lookup_alloc_old].
    apply (invoke_resolve_fresh fenv fuel h None).
  - intros Hs. eapply (observe_failed _ no_error (CbSuccess) s h c); [done|done|].
    apply (invoke_resolve_fresh fenv fuel h None [_error c]).
  - intros Hset h1 os h2 Ho Hos.
    apply (observe_result fenv fuel no_error (CbSuccess) s h p h1 os h2 Hset Ho Hos).
Qed.

(** ** [continue$] *)

Definition has_finish_listener (h : heap) (r : ref) (cb : callback) : Prop :=
  exists c, cells h !! r = Some c /\ cb ∈ _finishListeners c.

Definition finished (h : heap) (r : ref) : Prop :=
  exists c, cells h !! r = Some c /\ _state c <> PENDING.

Lemma has_finish_listener_stable r cb : stable (fun h => has_finish_listener h r cb).
Proof.
  intros h h' (Hc & _) (c & Hr & Hin). destruct (Hc _ _ Hr) as (c' & Hr' & Hev).
  exists c'. split; [done|]. destruct Hev as (_ & _ & _ & _ & _ & Hp).
  by eapply elem_of_prefix.
Qed.

Lemma finished_stable r : stable (fun h => finished h r).
Proof.
  intros h h' He (c & Hc & Hs). exists c. split; [|done]. by eapply evolves_frozen.
Qed.

Section Continue.

Variable fenv : nat -> list value -> action.

(** [r2] is the promise that [continue$(s, f)] returned: its closure is in
    the finish queue of [s], or [s] was finished and the closure has
    returned. *)
Definition continued (h : heap) (s : ref) (f : fn) (r2 : ref) : Prop :=
  has_finish_listener h s (CbContinue (VPromise s) f r2) \/
  (finished h s /\ post fenv (CbContinue (VPromise s) f r2) [] h).

Lemma continued_stable s f r2 : stable (fun h => continued h s f r2).
Proof.
  intros h h' He [H|(H1 & H2)].
  - left. by eapply has_finish_listener_stable.
  - right. split; [by eapply finished_stable|by eapply post_stable].
Qed.

Lemma continued_result h s f r2 :
  settled fenv no_exempt h -> continued h s f r2 -> finished h s ->
  post fenv (CbContinue (VPromise s) f r2) [] h.
Proof.
  intros Hs [(c & Hc & Hin)|(_ & Hp)] (c' & Hc' & Hst); [|done].
  assert (c' = c) as -> by congruence.
  apply list_elem_of_lookup in Hin as (i & Hi).
  assert (exists args, queue c Finish = Some (_finishListeners c, args)) as (args & Hq).
  { unfold queue. destruct (_state c); [done|by eexists..]. }
  exact (Hs s c Finish _ args i _ Hc Hq Hi (fun H => H)).
Qed.

Variable fuel : nat.

Lemma achieves_continued k s f h :
  settled fenv k h ->
  achieves fenv k (continue_ (run fenv fuel) (VPromise s) f) h
    (fun r2 h' => continued h' s f r2).
Proof.
  intros Hs. unfold continue_.
  pose proof (evolving_run fenv fuel) as Hev. pose proof (run_achieves fenv fuel) as Hrec.
  eapply achieves_bind; [by apply achieves_promise|]. intros r2 h1 Hs1 He1 _.
  eapply achieves_bind;
    [by apply (achieves_as_promise fenv k (VPromise s) h1
                 (fun r _ => VPromise s = VPromise r))|].
  intros ? h2 Hs2 He2 [= <-].
  eapply achieves_bind; [|intros ? h3 Hs3 He3 H3; apply achieves_ret; [done|exact H3]].
  unfold achieves.
  destruct (cells h2 !! s) as [c|] eqn:Hc;
    [|by unfold wp, registerFinishListener, bind, get_cell; rewrite Hc].
  destruct (decide (_state c = PENDING)) as [Hst|Hst].
  - unfold wp. rewrite (registerFinishListener_pending _ _ _ _ _ Hc Hst).
    split; [|split].
    + eapply settled_update_pending; eauto using cell_evolves_push_finish.
    + eapply evolves_set_cell; eauto using cell_evolves_push_finish.
    + left. exists (push_finish c (CbContinue (VPromise s) f r2)).
      split; [by eapply lookup_update_cell|]. cbn. apply elem_of_app. right. by left.
  - unfold wp at 1. rewrite (registerFinishListener_finished _ _ _ _ _ Hc Hst).
    fold (@wp value). apply wp_bind.
    eapply wp_mono; [by apply (achieves_invoke fenv _ Hev Hrec)| |done].
    cbn. intros _ h' (Hs' & He & Hp). split; [done|]. split; [done|].
    right. split; [|done]. exists c. split; [|done]. by eapply evolves_frozen.
Qed.

End Continue.

(** X4.  [continue$(p, f)] returns a new promise [r2] and calls [f(p)] when
    [p] finishes, whether it succeeds or fails.  If [p] is PENDING the
    closure is stored in the finish queue, once, and [f] is not called.  In
    every heap that a program reaches by operations that return and in
    which [p] is finished, [f(p)] has returned a value [r1]: if it is
    [null] or [undefined], [r2] is SUCCEEDED with [null]; otherwise it is a
    promise and [r2] has its data if it is SUCCEEDED and its error if it is
    FAILED. *)
Theorem X4_continue fenv fuel s f h r2 h1 :
  settled fenv no_exempt h ->
  continue_ (run fenv fuel) (VPromise s) f h = Ret r2 h1 ->
  r2 = length (cells h) /\
  (forall c, cells h !! s = Some c -> _state c = PENDING ->
     h1 = update_cell (alloc h (fresh_cell None)) s
            (push_finish c (CbContinue (VPromise s) f r2))) /\
  (forall os h2,
     do_ops_returning fenv fuel os h1 = Some h2 -> finished h2 s ->
     exists r1, fpost fenv f [VPromise s] r1 h2 /\
       (forall id v, f = FUser id -> fenv id [VPromise s] = AReturn v -> r1 = v) /\
       (not_null r1 = false -> succeeded h2 r2 VNull) /\
       (not_null r1 = true ->
          exists q, r1 = VPromise q /\
                    (forall d, succeeded h2 q d -> succeeded h2 r2 d) /\
                    (forall e, failed h2 q e -> failed h2 r2 e))).
Proof.
  intros Hs Hc. split; [|split].
  - unfold continue_ in Hc. rewrite (bind_eq _ _ _ _ _ (promise_eq None h)) in Hc.
    unfold bind in Hc. cbn [as_promise ret] in Hc.
    repeat match type of Hc with
           | match ?x with _ => _ end = _ => destruct x; try done
           end.
    by injection Hc as <- _.
  - intros c Hcell Hst. unfold continue_ in Hc.
    rewrite (bind_eq _ _ _ _ _ (promise_eq None h)) in Hc.
    unfold bind at 1 in Hc. cbn [as_promise ret] in Hc.
    pose proof (lookup_alloc_old h (fresh_cell None) _ _ Hcell) as Hc1.
    rewrite (bind_eq _ _ _ _ _ (registerFinishListener_pending _ _ _ _ _ Hc1 Hst)) in Hc.
    by injection Hc as <- <-.
  - intros os h2 Hos Hfin.
    destruct (achieves_returned _ _ _ _ _ _ _ (achieves_continued fenv fuel no_exempt s f h Hs) Hc)
      as (Hs1 & He1 & Hcont).
    pose proof (do_ops_returning_settled _ _ _ _ _ _ Hs1 Hos) as Hs2.
    pose proof (do_ops_returning_evolves _ _ _ _ _ Hos) as He2.
    pose proof (continued_stable fenv _ _ _ _ _ He2 Hcont) as Hcont2.
    destruct (continued_result fenv _ _ _ _ Hs2 Hcont2 Hfin) as (r1 & Hf & Hr).
    exists r1. split; [done|]. split; [|split].
    + intros id v -> Hv. cbn in Hf. by rewrite Hv in Hf.
    + intros Hn. by rewrite Hn in Hr.
    + intros Hn. rewrite Hn in Hr. destruct Hr as (q & -> & Hm).
      exists q. split; [done|]. by apply (mirrored_result fenv).
Qed.

(** ** A derived promise waits for its input *)

Lemma evolves_length h h' : heap_evolves h h' -> length (cells h) <= length (cells h').
Proof.
  intros (Hc & _). destruct (decide (length (cells h) = 0)) as [->|Hn]; [lia|].
  destruct (lookup_lt_is_Some_2 (cells h) (pred (length (cells h)))) as (c & Hl); [lia|].
  destruct (Hc _ _ Hl) as (c' & Hl' & _). apply lookup_lt_Some in Hl'. lia.
Qed.

Section Waits.

Variable fenv : nat -> list value -> action.

(** [x] is the derived promise and [s] its input. *)
Variables (s x : ref).

Local Abbreviation not_x := (fun p : ref => p <> x).
Local Abbreviation quiet := (quiet_cb not_x always always).

(** While [s] is PENDING, [x] is PENDING and no closure that may be called
    before [s] is resolved knows [x]: the closures that know [x] are in
    the queues of [s]. *)
Definition waiting (_ : unit) (h : heap) : Prop :=
  x < length (cells h) /\ s < length (cells h) /\
  (pending h s ->
   pending h x /\
   forall p c, cells h !! p = Some c -> _state c = PENDING -> p <> s ->
               Forall quiet (listeners c)).

Lemma waiting_after k h h' :
  heap_evolves h h' -> finished h s -> x < length (cells h) -> waiting k h'.
Proof.
  intros He (c & Hc & Hs) Hx. pose proof (evolves_length _ _ He) as Hl.
  pose proof (lookup_lt_Some _ _ _ Hc). split; [lia|]. split; [lia|].
  intros (c' & Hc' & Hs'). pose proof (evolves_frozen _ _ _ _ He Hc Hs). congruence.
Qed.

Lemma waiting_update k h p c c' :
  cells h !! p = Some c ->
  (p = s -> _state c' = PENDING -> _state c = PENDING) ->
  (p = x -> _state c = PENDING -> _state c' = PENDING) ->
  (p <> s -> _state c' = PENDING ->
   _state c = PENDING /\ (Forall quiet (listeners c) -> Forall quiet (listeners c'))) ->
  waiting k h -> waiting k (update_cell h p c').
Proof.
  intros Hc H1 H2 H3 (Hx & Hs & Hw).
  split; [by cbn; rewrite length_insert|]. split; [by cbn; rewrite length_insert|].
  intros (cs & Hcs & Hss).
  assert (pending h s) as Hp.
  { destruct (decide (s = p)) as [->|Hne].
    - rewrite (lookup_update_cell _ _ _ _ Hc) in Hcs. injection Hcs as <-.
      exists c. split; [done|]. by apply H1.
    - cbn in Hcs. rewrite list_lookup_insert_ne in Hcs by done. by exists cs. }
  destruct (Hw Hp) as ((cx & Hcx & Hsx) & Hq). split.
  - destruct (decide (x = p)) as [->|Hne].
    + exists c'. split; [by eapply lookup_update_cell|].
      assert (cx = c) as -> by congruence. by apply H2.
    + exists cx. split; [|done]. cbn. by rewrite list_lookup_insert_ne.
  - intros q cq Hcq Hsq Hqs. destruct (decide (q = p)) as [->|Hne].
    + rewrite (lookup_update_cell _ _ _ _ Hc) in Hcq. injection Hcq as <-.
      destruct (H3 Hqs Hsq) as (Hsc & Himp). apply Himp. by eapply Hq.
    + cbn in Hcq. rewrite list_lookup_insert_ne in Hcq by done. by eapply Hq.
Qed.

Lemma waiting_alloc k h o : waiting k h -> waiting k (alloc h (fresh_cell o)).
Proof.
  intros (Hx & Hs & Hw).
  split; [cbn; rewrite length_app; lia|]. split; [cbn; rewrite length_app; lia|].
  intros (cs & Hcs & Hss).
  assert (cells h !! s = Some cs) as Hcs'.
  { cbn in Hcs. by rewrite lookup_app_l in Hcs. }
  destruct (Hw (ex_intro _ cs (conj Hcs' Hss))) as ((cx & Hcx & Hsx) & Hq). split.
  - exists cx. split; [by apply lookup_alloc_old|done].
  - intros q cq Hcq Hsq Hqs. destruct (old_or_new _ _ _ _ Hcq) as [Hold|(_ & ->)].
    + by eapply Hq.
    + by cbn.
Qed.

Lemma waiting_push k h p c cb c' :
  waiting k h -> cells h !! p = Some c -> _state c = PENDING -> quiet cb ->
  _state c' = _state c -> listeners c' ≡ₚ cb :: listeners c ->
  waiting k (update_cell h p c').
Proof.
  intros Hw Hc Hs Hcb Hst Hl. eapply waiting_update; [done| | | |done].
  - intros _ _. done.
  - intros _ _. congruence.
  - intros _ _. split; [done|]. intros Hq. rewrite Hl. by constructor.
Qed.

Lemma waiting_resolve k h p c st d e :
  waiting k h -> cells h !! p = Some c -> _state c = PENDING ->
  p <> x -> p <> s -> st <> PENDING ->
  waiting k (update_cell h p (set_state c st d e)).
Proof.
  intros Hw Hc Hs Hpx Hps Hst. eapply waiting_update; [done| | | |done]; cbn; done.
Qed.

Lemma waiting_frozen {A} (m : M A) k h :
  evolving any_heap m -> finished h s -> waiting k h ->
  wp m h (fun a h' => waiting k h' /\ anything a) (waiting k).
Proof.
  intros Hm Hf (Hx & _).
  eapply wp_mono; [apply (Hm h h Logic.I (heap_evolves_refl h))| |].
  - intros a h' He. split; [exact (waiting_after k h h' He Hf Hx)|done].
  - intros h' He. exact (waiting_after k h h' He Hf Hx).
Qed.

Lemma waiting_listeners k h p c :
  waiting k h -> pending h s -> cells h !! p = Some c -> _state c = PENDING -> p <> s ->
  Forall quiet (_successListeners c) /\ Forall quiet (_failureListeners c) /\
  Forall quiet (_finishListeners c).
Proof.
  intros (_ & _ & Hw) Hp Hc Hs Hps. destruct (Hw Hp) as (_ & Hq).
  specialize (Hq p c Hc Hs Hps). unfold listeners in Hq.
  by rewrite !Forall_app in Hq.
Qed.

Lemma waiting_hooks rec :
  rec_ok not_x always always unit waiting (waiting tt) no_special no_spost rec ->
  (forall k p d, not_x p ->
     keeps unit waiting (waiting tt) k any_heap (__notifySuccess__ rec p d) anything) /\
  (forall k p e, not_x p ->
     keeps unit waiting (waiting tt) k any_heap (__notifyFailure__ rec p e) anything).
Proof.
  intros (Hev & Hrec & _). split; intros [] p d Hp h _ Hi.
  - destruct (cells h !! p) as [c|] eqn:Hc;
      [|by unfold wp, __notifySuccess__, bind, get_cell; rewrite Hc].
    destruct (decide (_state c = PENDING)) as [Hst|Hst];
      [|by unfold wp; rewrite (__notifySuccess__finished _ _ _ _ _ Hc Hst)].
    destruct (lookup_lt_is_Some_2 _ s (proj1 (proj2 Hi))) as (cs & Hcs).
    destruct (decide (_state cs = PENDING)) as [Hss|Hss];
      [|apply waiting_frozen; [by apply evolving__notifySuccess__|by exists cs|done]].
    unfold wp. rewrite (__notifySuccess__pending _ _ _ _ _ Hc Hst).
    match goal with
    | |- match ?m ?h1 with _ => _ end =>
        change (wp m h1 (fun a h' => waiting tt h' /\ anything a) (waiting tt))
    end.
    destruct (decide (p = s)) as [->|Hps].
    + apply waiting_frozen.
      * repeat evolving_step; auto using evolving_invoke.
      * exists (set_state c SUCCEEDED d (_error c)).
        split; [by eapply lookup_update_cell|done].
      * eapply waiting_after; [|by exists (set_state c SUCCEEDED d (_error c));
          split; [eapply lookup_update_cell|]|].
        -- apply heap_evolves_refl.
        -- cbn. rewrite length_insert. apply Hi.
    + destruct (waiting_listeners tt h p c Hi (ex_intro _ cs (conj Hcs Hss)) Hc Hst Hps)
        as (Hl1 & Hl2 & Hl3).
      eapply (keeps_drain not_x always always unit waiting (waiting tt)
                rec Hrec tt any_heap); [done|done|done|].
      by apply waiting_resolve.
  - destruct (cells h !! p) as [c|] eqn:Hc;
      [|by unfold wp, __notifyFailure__, bind, get_cell; rewrite Hc].
    destruct (decide (_state c = PENDING)) as [Hst|Hst];
      [|by unfold wp; rewrite (__notifyFailure__finished _ _ _ _ _ Hc Hst)].
    destruct (lookup_lt_is_Some_2 _ s (proj1 (proj2 Hi))) as (cs & Hcs).
    destruct (decide (_state cs = PENDING)) as [Hss|Hss];
      [|apply waiting_frozen; [by apply evolving__notifyFailure__|by exists cs|done]].
    unfold wp. rewrite (__notifyFailure__pending _ _ _ _ _ Hc Hst).
    match goal with
    | |- match ?m ?h1 with _ => _ end =>
        change (wp m h1 (fun a h' => waiting tt h' /\ anything a) (waiting tt))
    end.
    destruct (decide (p = s)) as [->|Hps].
    + apply waiting_frozen.
      * repeat evolving_step; auto using evolving_invoke.
      * exists (set_state c FAILED (_data c) d).
        split; [by eapply lookup_update_cell|done].
      * eapply waiting_after; [|by exists (set_state c FAILED (_data c) d);
          split; [eapply lookup_update_cell|]|].
        -- apply heap_evolves_refl.
        -- cbn. rewrite length_insert. apply Hi.
    + destruct (waiting_listeners tt h p c Hi (ex_intro _ cs (conj Hcs Hss)) Hc Hst Hps)
        as (Hl1 & Hl2 & Hl3).
      eapply (keeps_drain not_x always always unit waiting (waiting tt)
                rec Hrec tt any_heap); [done|done|done|].
      by apply waiting_resolve.
Qed.

(** Every operation that does not resolve [x] itself keeps the invariant,
    whether it returns or throws. *)
Theorem waits_do_op fuel o h :
  quiet_op not_x always always o -> waiting tt h ->
  wp (do_op fenv fuel o) h (fun _ => waiting tt) (waiting tt).
Proof.
  intros Ho Hi.
  eapply (wp_mono _ _ (fun _ h' => waiting tt h' /\ True) _ (waiting tt));
    [|by intros ? ? (? & _)|done].
  apply (keeps_do_op fenv not_x always always unit waiting (waiting tt))
    with (special := no_special) (spost := no_spost) (k := tt) (o := o); try done.
  - intros k h' o' _. apply waiting_alloc.
  - intros k h' (Hx & _) Heq. lia.
  - intros k h' p c cb Hw Hc Hs Hcb. eapply waiting_push; [done..|].
    unfold listeners. cbn. rewrite <- app_assoc. cbn. by rewrite <- Permutation_middle.
  - intros k h' p c cb Hw Hc Hs Hcb. eapply waiting_push; [done..|].
    unfold listeners. cbn. rewrite <- app_assoc. cbn. by rewrite <- !Permutation_middle.
  - intros k h' p c cb Hw Hc Hs Hcb. eapply waiting_push; [done..|].
    unfold listeners. cbn. by rewrite !app_assoc, <- Permutation_cons_append.
  - intros k h' p c g _ _ _. apply quiet_fn_always.
  - apply waiting_hooks.
Qed.

Theorem waits_do_ops fuel os h h' :
  Forall (quiet_op not_x always always) os -> waiting tt h ->
  do_ops fenv fuel os h = Some h' -> waiting tt h'.
Proof.
  revert h. induction os as [|o os IH]; intros h Hos Hi; cbn.
  - by intros [= <-].
  - apply Forall_cons in Hos as [Ho Hos].
    pose proof (waits_do_op fuel o h Ho Hi) as Hw. unfold wp in Hw.
    destruct (do_op fenv fuel o h); cbn; [by apply IH|by apply IH|done].
Qed.

End Waits.

(** The heap in which a combinator has stored its closures in the queues
    of a PENDING input. *)
Lemma waiting_subscribed h s c c' :
  closed_heap h -> cells h !! s = Some c -> _state c = PENDING -> _state c' = PENDING ->
  waiting s (length (cells h)) tt (update_cell (alloc h (fresh_cell None)) s c').
Proof.
  intros Hcl Hc Hs Hs'. pose proof (lookup_lt_Some _ _ _ Hc) as Hlt.
  split; [cbn; rewrite length_insert, length_app; cbn; lia|].
  split; [cbn; rewrite length_insert, length_app; cbn; lia|].
  intros _. split.
  - exists (fresh_cell None). split; [|done]. cbn.
    rewrite list_lookup_insert_ne by lia. by rewrite lookup_app_r, Nat.sub_diag.
  - intros p cp Hcp Hsp Hps. cbn in Hcp. rewrite list_lookup_insert_ne in Hcp by done.
    destruct (old_or_new h (fresh_cell None) p cp Hcp) as [Hold|(_ & ->)]; [|by cbn].
    eapply Forall_impl; [by apply (Hcl p cp)|].
    intros cb. apply quiet_cb_weaken; [|done]. intros q Hq. lia.
Qed.

(** [x] is not resolved before [s]: in every heap that a program reaches
    from [h1] by operations that do not resolve [x] themselves, [x] is
    PENDING if [s] is. *)
Definition waits_for (fenv : nat -> list value -> action) (fuel : nat)
           (s x : ref) (h1 : heap) : Prop :=
  forall os h2,
    Forall (quiet_op (fun p => p <> x) always always) os ->
    do_ops fenv fuel os h1 = Some h2 ->
    pending h2 s -> pending h2 x.

Lemma waiting_waits_for fenv fuel s x h1 :
  waiting s x tt h1 -> waits_for fenv fuel s x h1.
Proof.
  intros Hw os h2 Hos Hdo Hp.
  destruct (waits_do_ops fenv s x fuel os h1 h2 Hos Hw Hdo) as (_ & _ & H). by apply H.
Qed.

Lemma observe_waits fenv fuel cbS cbF s c h :
  closed_heap h -> cells h !! s = Some c -> _state c = PENDING ->
  exists h1, observe (run fenv fuel) cbS cbF (VPromise s) h = Ret (length (cells h)) h1 /\
             waits_for fenv fuel s (length (cells h)) h1.
Proof.
  intros Hcl Hc Hs. eexists. split; [by apply observe_pending|].
  apply waiting_waits_for. by eapply waiting_subscribed.
Qed.

(** X5.  A promise derived from a PENDING promise [s] by [fmap(f)],
    [join], [isSuccess$], [isFailure$], [getError$] or [continue$] is not
    resolved before [s] is: the combinator returns a new promise, and in
    every heap that a program reaches afterwards, by operations that
    return or throw but do not resolve the new promise themselves, the new
    promise is PENDING as long as [s] is PENDING. *)
Theorem X5_derived_waits fenv fuel f s c h :
  closed_heap h -> cells h !! s = Some c -> _state c = PENDING ->
  let x := length (cells h) in
  let rec := run fenv fuel in
  (exists h1, fmap rec f (VPromise s) h = Ret x h1 /\ waits_for fenv fuel s x h1) /\
  (exists h1, join rec (VPromise s) h = Ret x h1 /\ waits_for fenv fuel s x h1) /\
  (exists h1, isSuccess_ rec (VPromise s) h = Ret x h1 /\ waits_for fenv fuel s x h1) /\
  (exists h1, isFailure_ rec (VPromise s) h = Ret x h1 /\ waits_for fenv fuel s x h1) /\
  (exists h1, getError_ rec (VPromise s) h = Ret x h1 /\ waits_for fenv fuel s x h1) /\
  (exists h1, continue_ rec (VPromise s) f h = Ret x h1 /\ waits_for fenv fuel s x h1).
Proof.
  intros Hcl Hc Hs x rec. repeat split.
  - apply (observe_waits fenv fuel (CbFmap f) CbFailure s c h Hcl Hc Hs).
  - apply (observe_waits fenv fuel CbJoin CbFailure s c h Hcl Hc Hs).
  - apply (observe_waits fenv fuel (answer true)
             (answer false) s c h Hcl Hc Hs).
  - apply (observe_waits fenv fuel (answer false)
             (answer true) s c h Hcl Hc Hs).
  - apply (observe_waits fenv fuel no_error CbSuccess
             s c h Hcl Hc Hs).
  - eexists. split.
    + unfold rec, continue_. rewrite (bind_eq _ _ _ _ _ (promise_eq None h)).
      unfold bind at 1. cbn [as_promise ret].
      pose proof (lookup_alloc_old h (fresh_cell None) _ _ Hc) as Hc1.
      rewrite (bind_eq _ _ _ _ _ (registerFinishListener_pending _ _ _ _ _ Hc1 Hs)).
      reflexivity.
    + apply waiting_waits_for. by eapply waiting_subscribed.
Qed.

(** ** [unit] and the exported promises *)

Lemma unit_eq rec d h :
  cbl_unit rec d h =
  Ret (length (cells h)) (alloc h (set_state (fresh_cell None) SUCCEEDED d VUndefined)).
Proof.
  unfold cbl_unit. rewrite (bind_eq _ _ _ _ _ (promise_eq None h)).
  unfold bind at 1. by rewrite notifySuccess_fresh.
Qed.

Lemma getData_succeeded rec r h c :
  cells h !! r = Some c -> _state c = SUCCEEDED -> getData rec r h = Ret (_data c) h.
Proof. intros Hr Hs. unfold getData, bind, get_cell. by rewrite Hr, Hs. Qed.

Lemma getData_frozen rec r h h' c :
  heap_evolves h h' -> cells h !! r = Some c -> _state c = SUCCEEDED ->
  getData rec r h' = Ret (_data c) h'.
Proof.
  intros He Hc Hs. apply getData_succeeded; [|done].
  eapply evolves_frozen; [exact He|done|by rewrite Hs].
Qed.

(** The exports of the module that are promises: [null$], [true$] and
    [false$], created when the module is loaded. *)
Definition module_exports (rec : task -> M value) : M (ref * ref * ref) :=
  null_ <- cbl_unit rec VNull ;;
  true_ <- cbl_unit rec (VBool true) ;;
  false_ <- cbl_unit rec (VBool false) ;;
  ret (null_, true_, false_).

(** X6.  [unit(d)] returns a new promise that is SUCCEEDED with [d] and has
    no listener, and changes nothing else, whatever the heap; after every
    program, whether its operations return or throw, the state of that
    promise is SUCCEEDED and its data accessor returns [d].  The promises
    [null$], [true$] and [false$] that the module exports are the first
    three promises, SUCCEEDED with [null], [true] and [false]. *)
Theorem X6_unit fenv fuel d h :
  let p := length (cells h) in
  let h1 := alloc h (set_state (fresh_cell None) SUCCEEDED d VUndefined) in
  (forall rec, cbl_unit rec d h = Ret p h1) /\
  (forall os h2 rec,
     do_ops fenv fuel os h1 = Some h2 ->
     getState p h2 = Ret SUCCEEDED h2 /\ getData rec p h2 = Ret d h2) /\
  (forall rec os h2,
     exists h0,
       module_exports rec empty_heap = Ret (0, 1, 2) h0 /\
       (do_ops fenv fuel os h0 = Some h2 ->
        getData rec 0 h2 = Ret VNull h2 /\ getData rec 1 h2 = Ret (VBool true) h2 /\
        getData rec 2 h2 = Ret (VBool false) h2)).
Proof.
  intros p h1. split; [|split].
  - intros rec. apply unit_eq.
  - intros os h2 rec Hos.
    assert (cells h2 !! p = Some (set_state (fresh_cell None) SUCCEEDED d VUndefined)) as Hp.
    { eapply evolves_frozen; [by eapply do_ops_evolves|apply lookup_alloc_new|done]. }
    split; [by rewrite (getState_eq _ _ _ Hp)|].
    by rewrite (getData_succeeded _ _ _ _ Hp eq_refl).
  - intros rec os h2. eexists. split.
    + unfold module_exports. rewrite (bind_eq _ _ _ _ _ (unit_eq rec VNull empty_heap)).
      erewrite bind_eq; [|apply unit_eq]. erewrite bind_eq; [|apply unit_eq]. reflexivity.
    + intros Hos. pose proof (do_ops_evolves _ _ _ _ _ Hos) as He.
      split; [|split].
      * exact (getData_frozen rec 0 _ h2 _ He eq_refl eq_refl).
      * exact (getData_frozen rec 1 _ h2 _ He eq_refl eq_refl).
      * exact (getData_frozen rec 2 _ h2 _ He eq_refl eq_refl).
Qed.

(** ** Arguments that are not promises *)

Definition is_promise (v : value) : bool :=
  match v with VPromise _ => true | _ => false end.

Lemma as_promise_other v h : is_promise v = false -> as_promise v h = Throw TypeError h.
Proof. by destruct v. Qed.

Lemma observe_other rec cbS cbF v h :
  is_promise v = false ->
  observe rec cbS cbF v h = Throw TypeError (alloc h (fresh_cell None)).
Proof.
  intros Hv. unfold observe. rewrite (bind_eq _ _ _ _ _ (promise_eq None h)).
  unfold bind. by rewrite as_promise_other.
Qed.

(** X7.  Applied to a value that is not a promise, every combinator throws
    a TypeError when it calls the first method of its argument: the
    promise it has created by then is PENDING, has no listener and is not
    returned, and nothing else has changed.  [flatMap(f)] throws before it
    calls [join]; [liftA(f)] throws at the first argument that is not a
    promise, after it has pushed it onto [t$s]. *)
Theorem X7_not_a_promise rec f v h :
  is_promise v = false ->
  let h1 := alloc h (fresh_cell None) in
  fmap rec f v h = Throw TypeError h1 /\
  join rec v h = Throw TypeError h1 /\
  flatMap rec f v h = Throw TypeError h1 /\
  isSuccess_ rec v h = Throw TypeError h1 /\
  isFailure_ rec v h = Throw TypeError h1 /\
  getError_ rec v h = Throw TypeError h1 /\
  continue_ rec v f h = Throw TypeError h1 /\
  (forall args,
     liftA rec f (v :: args) h =
     Throw TypeError (with_frames h1 (frames h ++ [{| finishedCount := 0; ts := [v] |}]))).
Proof.
  intros Hv h1.
  assert (fmap rec f v h = Throw TypeError h1) as Hfmap
      by apply (observe_other rec (CbFmap f) CbFailure v h Hv).
  split; [done|]. split; [apply (observe_other rec CbJoin CbFailure v h Hv)|].
  split; [by unfold flatMap, bind; rewrite Hfmap|].
  split; [apply (observe_other rec (answer true)
                   (answer false) v h Hv)|].
  split; [apply (observe_other rec (answer false)
                   (answer true) v h Hv)|].
  split; [apply (observe_other rec no_error CbSuccess v h Hv)|].
  split.
  - unfold continue_. rewrite (bind_eq _ _ _ _ _ (promise_eq None h)).
    unfold bind. by rewrite as_promise_other.
  - intros args. unfold liftA. rewrite (bind_eq _ _ _ _ _ (promise_eq None h)).
    unfold bind at 1. unfold new_frame at 1. cbn [for_each].
    unfold bind at 1 2 3, get_frame at 1. cbn [frames alloc].
    rewrite lookup_app_r, Nat.sub_diag by done. cbn [lookup list_lookup].
    unfold bind at 1, set_frame at 1. cbn [frames cells trace finishedCount ts].
    unfold bind at 1. rewrite as_promise_other by done.
    unfold with_frames, h1. cbn [cells alloc frames trace]. f_equal. f_equal.
    by rewrite insert_app_r_alt, Nat.sub_diag.
Qed.

(** ** Exceptions of the function and of the listeners *)

(** A listener that throws ends the resolution: the listeners after it
    and the finish listeners are not called. *)
Lemma for_each_throws {A} (f : A -> M unit) l1 x l2 h h1 e h2 :
  for_each f l1 h = Ret tt h1 -> f x h1 = Throw e h2 ->
  for_each f (l1 ++ x :: l2) h = Throw e h2.
Proof.
  revert h. induction l1 as [|y l1 IH]; intros h; cbn.
  - intros [= <-] Hx. unfold bind. by rewrite Hx.
  - unfold bind. destruct (f y h) as [[] h'| |]; [|done..]. intros H1 Hx. by apply IH.
Qed.

Lemma invoke_fmap_throws fenv n id x d e h :
  fenv id [d] = AThrow e ->
  invoke (run fenv (S (S n))) (CbFmap (FUser id) x) [d] h =
  Throw e (logged h [EvCall id [d]]).
Proof.
  intros Hf. rewrite run_invoke. cbn [run_callback]. rewrite first_arg_cons, run_call.
  cbn [run_fn]. rewrite Hf. unfold bind. by rewrite log_eq.
Qed.

(** X8.  An exception of [f] is not turned into a failure of the promise
    that [fmap(f)] returns.  If the input is SUCCEEDED, [fmap(f)] throws
    what [f] throws and the promise it has created stays PENDING.  If the
    input is PENDING with listeners that record their call, the later
    resolution of the input throws what [f] throws: by then the input is
    SUCCEEDED and the listeners before the closure of [fmap] have been
    called, but the promise of [fmap] is PENDING and neither the success
    listeners registered later nor any finish listener is called. *)
Theorem X8_fmap_function_throws fenv n id s c h d e :
  cells h !! s = Some c -> fenv id [d] = AThrow e ->
  let x := length (cells h) in
  (_state c = SUCCEEDED -> _data c = d ->
   fmap (run fenv (S (S n))) (FUser id) (VPromise s) h =
   Throw e (logged (alloc h (fresh_cell None)) [EvCall id [d]])) /\
  (_state c = PENDING ->
   forall ss later,
     _successListeners c = map CbUser ss ->
     let c1 := push_failure (push_success c (CbFmap (FUser id) x)) (CbFailure x) in
     let h1 := update_cell (alloc h (fresh_cell None)) s c1 in
     let c2 := {| _state := PENDING; _data := _data c1; _error := _error c1;
                  _successListeners := _successListeners c1 ++ later;
                  _failureListeners := _failureListeners c1;
                  _finishListeners := _finishListeners c1;
                  _options := _options c1 |} in
     fmap (run fenv (S (S n))) (FUser id) (VPromise s) h = Ret x h1 /\
     __notifySuccess__ (run fenv (S (S n))) s d (update_cell h1 s c2) =
     Throw e (logged (update_cell h1 s (set_state c2 SUCCEEDED d (_error c)))
                     (map (fun i => EvListener i [d]) ss ++ [EvCall id [d]])) /\
     cells (update_cell h1 s (set_state c2 SUCCEEDED d (_error c))) !! x =
     Some (fresh_cell None)).
Proof.
  intros Hc Hf x. split.
  - intros Hs Hd. unfold fmap.
    rewrite (bind_eq _ _ _ _ _ (promise_eq None h)).
    unfold bind at 1. cbn [as_promise ret].
    pose proof (lookup_alloc_old h (fresh_cell None) _ _ Hc) as Hc1.
    unfold bind at 1.
    rewrite (registerSuccessListener_succeeded _ _ _ _ _ Hc1 Hs), Hd.
    unfold bind at 1. by rewrite (invoke_fmap_throws _ _ _ _ _ _ _ Hf).
  - intros Hs ss later Hss c1 h1 c2. split; [by apply fmap_pending|].
    pose proof (lookup_lt_Some _ _ _ Hc) as Hlt.
    assert (cells h1 !! s = Some c1) as Hc1.
    { unfold h1. eapply lookup_update_cell. by apply lookup_alloc_old. }
    assert (cells (update_cell h1 s c2) !! s = Some c2) as Hc2
        by (by eapply lookup_update_cell).
    split.
    + rewrite (__notifySuccess__pending _ _ _ _ _ Hc2 eq_refl).
      rewrite update_cell_twice.
      cbn [c2 c1 _successListeners _finishListeners _error push_failure push_success].
      rewrite Hss, <- app_assoc. cbn [app].
      unfold bind at 1.
      erewrite for_each_throws; [reflexivity|apply for_each_user|].
      by rewrite (invoke_fmap_throws _ _ _ _ _ _ _ Hf), logged_app.
    + cbn. rewrite list_lookup_insert_ne by (unfold x; lia).
      rewrite list_lookup_insert_ne by (unfold x; lia).
      by rewrite lookup_app_r, Nat.sub_diag.
Qed.

(** X9.  [flatMap(f)] needs [f] to return a promise.  If the input is
    SUCCEEDED and [f] returns a value that is not a promise, [flatMap(f)]
    throws a TypeError: the promise of [fmap(f)] is SUCCEEDED with that
    value and the promise that [join] has created stays PENDING and is not
    returned. *)
Theorem X9_flatMap_not_a_promise fenv n id s c h v :
  cells h !! s = Some c -> _state c = SUCCEEDED ->
  fenv id [_data c] = AReturn v -> is_promise v = false ->
  flatMap (run fenv (S (S n))) (FUser id) (VPromise s) h =
  Throw TypeError
        (alloc (logged (alloc h (set_state (fresh_cell None) SUCCEEDED v VUndefined))
                       [EvCall id [_data c]])
               (fresh_cell None)).
Proof.
  intros Hc Hs Hf Hv. unfold flatMap.
  rewrite (bind_eq _ _ _ _ _ (fmap_succeeded _ _ _ _ _ _ _ Hc Hs Hf)).
  unfold join. erewrite bind_eq; [|apply promise_eq].
  unfold bind at 1. cbn [as_promise ret]. unfold bind at 1.
  set (h1 := logged (alloc h (set_state (fresh_cell None) SUCCEEDED v VUndefined))
                    [EvCall id [_data c]]).
  assert (cells (alloc h1 (fresh_cell None)) !! length (cells h)
          = Some (set_state (fresh_cell None) SUCCEEDED v VUndefined)) as Hx.
  { apply lookup_alloc_old. cbn. by rewrite lookup_app_r, Nat.sub_diag. }
  rewrite (registerSuccessListener_succeeded _ _ _ _ _ Hx eq_refl).
  unfold bind at 1. rewrite run_invoke. cbn [run_callback]. unfold bind at 1 2.
  cbn [_data set_state]. rewrite first_arg_cons. by rewrite as_promise_other.
Qed.

(** ** [fmap] and composition *)

Lemma fmap_result fenv fuel f s h x h1 :
  settled fenv no_exempt h ->
  fmap (run fenv fuel) f (VPromise s) h = Ret x h1 ->
  settled fenv no_exempt h1 /\ heap_evolves h h1 /\
  forall h2, settled fenv no_exempt h2 -> heap_evolves h1 h2 ->
    (forall d, succeeded h2 s d -> exists v, succeeded h2 x v /\ fpost fenv f [d] v h2) /\
    (forall e, failed h2 s e -> failed h2 x e).
Proof.
  intros Hs Hf.
  destruct (achieves_returned _ _ _ _ _ _ _
              (achieves_fmap fenv _ (evolving_run fenv fuel) (run_achieves fenv fuel)
                 no_exempt f (VPromise s) h Hs) Hf) as (Hs1 & He1 & Hm).
  split; [done|]. split; [done|]. intros h2 Hs2 He2.
  pose proof (fmapped_stable fenv _ _ _ _ _ He2 Hm) as Hm2.
  destruct (fmapped_result fenv _ _ _ _ Hs2 Hm2) as (s' & [= <-] & HS & HF). by split.
Qed.

(** X10.  [fmap] respects composition, as a functor does:
    [fmap(g)(fmap(f)(s))] and [fmap(function (d) { return g(f(d)); })(s)]
    have the same outcome.  In every heap that a program reaches by
    operations that return, if [s] is SUCCEEDED with [d] both are SUCCEEDED
    with [g(f(d))], and if [s] is FAILED both are FAILED with the error of
    [s]. *)
Theorem X10_fmap_composition fenv fuel idf idg idgf s h x h1 y h2 z h3 :
  settled fenv no_exempt h ->
  fmap (run fenv fuel) (FUser idf) (VPromise s) h = Ret x h1 ->
  fmap (run fenv fuel) (FUser idg) (VPromise x) h1 = Ret y h2 ->
  fmap (run fenv fuel) (FUser idgf) (VPromise s) h2 = Ret z h3 ->
  forall os h4,
    do_ops_returning fenv fuel os h3 = Some h4 ->
    (forall d v w,
       succeeded h4 s d -> fenv idf [d] = AReturn v -> fenv idg [v] = AReturn w ->
       fenv idgf [d] = AReturn w ->
       succeeded h4 y w /\ succeeded h4 z w) /\
    (forall e, failed h4 s e -> failed h4 y e /\ failed h4 z e).
Proof.
  intros Hs Hf1 Hf2 Hf3 os h4 Hos.
  destruct (fmap_result _ _ _ _ _ _ _ Hs Hf1) as (Hs1 & He1 & R1).
  destruct (fmap_result _ _ _ _ _ _ _ Hs1 Hf2) as (Hs2 & He2 & R2).
  destruct (fmap_result _ _ _ _ _ _ _ Hs2 Hf3) as (Hs3 & He3 & R3).
  pose proof (do_ops_returning_settled _ _ _ _ _ _ Hs3 Hos) as Hs4.
  pose proof (do_ops_returning_evolves _ _ _ _ _ Hos) as He4.
  assert (heap_evolves h2 h4) as He24 by (by eapply heap_evolves_trans).
  assert (heap_evolves h1 h4) as He14 by (by eapply heap_evolves_trans).
  destruct (R1 h4 Hs4 He14) as (R1s & R1f).
  destruct (R2 h4 Hs4 He24) as (R2s & R2f).
  destruct (R3 h4 Hs4 He4) as (R3s & R3f).
  split.
  - intros d v w Hd Hv Hw Hgf.
    destruct (R1s d Hd) as (v' & Hx & Hp1). cbn in Hp1. rewrite Hv in Hp1. cbn in Hp1.
    subst v'. destruct (R2s v Hx) as (w' & Hy & Hp2). cbn in Hp2. rewrite Hw in Hp2.
    cbn in Hp2. subst w'. split; [done|].
    destruct (R3s d Hd) as (w' & Hz & Hp3). cbn in Hp3. rewrite Hgf in Hp3.
    cbn in Hp3. by subst w'.
  - intros e He. split; [|by apply R3f]. by apply R2f, R1f.
Qed.

(** ** Promises that a program does not resolve *)

(** X11.  A promise changes only when it is resolved.  Take any set of
    protected promises such that no listener of a PENDING promise resolves
    one of them.  Every program whose operations neither resolve a
    protected promise nor register a closure that does leaves the state,
    the data and the error of every protected promise as they are, whether
    its operations return or throw. *)
Theorem X11_isolation fenv fuel (protected : ref -> Prop) h os h2 :
  quiet_heap (fun p => ~ protected p) always always h ->
  Forall (quiet_op (fun p => ~ protected p) always always) os ->
  do_ops fenv fuel os h = Some h2 ->
  forall r c, protected r -> cells h !! r = Some c ->
    exists c', cells h2 !! r = Some c' /\
               _state c' = _state c /\ _data c' = _data c /\ _error c' = _error c.
Proof.
  intros Hq Hos Hdo r c Hr Hc.
  destruct (frame_do_ops fenv (fun p => ~ protected p) always always h fuel os h h2 Hos
              (conj Hq (untouched_refl _ _ _ h)) Hdo) as (_ & Hu & _).
  apply (Hu r c); [|done]. by intros Hn.
Qed.

(** ** The outcome of a derived promise *)

Section Exact.

Variable fenv : nat -> list value -> action.
Variable fuel : nat.

(** The three cases of the input, for the promise of an observer, of
    [fmap] and of [join]. *)
Lemma observe_exact cbS cbF s c h x h1 os h2 :
  settled fenv no_exempt h -> closed_heap h -> cells h !! s = Some c ->
  observe (run fenv fuel) cbS cbF (VPromise s) h = Ret x h1 ->
  Forall (quiet_op (fun p => p <> x) always always) os ->
  do_ops_returning fenv fuel os h1 = Some h2 ->
  (pending h2 s -> pending h2 x) /\
  (forall d, succeeded h2 s d -> post fenv (cbS x) [d] h2) /\
  (forall e, failed h2 s e -> post fenv (cbF x) [e] h2) /\
  (pending h2 s \/ (exists d, succeeded h2 s d) \/ (exists e, failed h2 s e)).
Proof.
  intros Hs Hcl Hc Ho Hq Hos.
  destruct (observe_result fenv fuel cbS cbF s h x h1 os h2 Hs Ho Hos) as (HS & HF).
  pose proof (do_ops_returning_do_ops _ _ _ _ _ Hos) as Hdo.
  assert (heap_evolves h h2) as He.
  { eapply heap_evolves_trans; [|by eapply do_ops_evolves].
    by destruct (achieves_returned _ _ _ _ _ _ _
                   (achieves_observe fenv fuel no_exempt cbS cbF _ h Hs) Ho)
      as (_ & He1 & _). }
  split; [|split; [done|split; [done|]]].
  - destruct (decide (_state c = PENDING)) as [Hst|Hst].
    + destruct (observe_waits fenv fuel cbS cbF s c h Hcl Hc Hst) as (h1' & Ho' & Hw).
      rewrite Ho in Ho'. injection Ho' as -> <-. by apply (Hw os h2).
    + intros (c' & Hc' & Hs'). pose proof (evolves_frozen _ _ _ _ He Hc Hst). congruence.
  - destruct He as (Hec & _). destruct (Hec _ _ Hc) as (c' & Hc' & _).
    destruct (_state c') eqn:Hst.
    + left. by exists c'.
    + right. left. exists (_data c'). by exists c'.
    + right. right. exists (_error c'). by exists c'.
Qed.

End Exact.

(** X12.  The outcome of the promise [x] that [fmap(f)] returns for [s]
    comes from [s] and [f] alone.  In every heap that a program reaches by
    operations that return and do not resolve [x] themselves: [x] is
    PENDING if [s] is; if [x] is SUCCEEDED with [v] then [s] is SUCCEEDED
    and [f] has returned [v] for its data; if [x] is FAILED with [e] then
    [s] is FAILED with [e]. *)
Theorem X12_fmap_outcome fenv fuel f s c h x h1 os h2 :
  settled fenv no_exempt h -> closed_heap h -> cells h !! s = Some c ->
  fmap (run fenv fuel) f (VPromise s) h = Ret x h1 ->
  Forall (quiet_op (fun p => p <> x) always always) os ->
  do_ops_returning fenv fuel os h1 = Some h2 ->
  (pending h2 s -> pending h2 x) /\
  (forall v, succeeded h2 x v -> exists d, succeeded h2 s d /\ fpost fenv f [d] v h2) /\
  (forall e, failed h2 x e -> failed h2 s e).
Proof.
  intros Hs Hcl Hc Ho Hq Hos.
  destruct (observe_exact fenv fuel (CbFmap f) CbFailure s c h x h1 os h2
              Hs Hcl Hc Ho Hq Hos) as (HP & HS & HF & Hcases).
  split; [done|]. split.
  - intros v Hv. destruct Hcases as [Hp|[(d & Hd)|(e & He)]].
    + exfalso. by eapply pending_not_succeeded; [apply HP|].
    + exists d. split; [done|]. destruct (HS d Hd) as (v' & Hv' & Hp).
      by rewrite (succeeded_inj _ _ _ _ Hv Hv').
    + exfalso. eapply succeeded_not_failed; [exact Hv|]. apply (HF e He).
  - intros e He. destruct Hcases as [Hp|[(d & Hd)|(e' & He')]].
    + exfalso. by eapply pending_not_failed; [apply HP|].
    + exfalso. destruct (HS d Hd) as (v' & Hv' & _). by eapply succeeded_not_failed.
    + pose proof (HF e' He') as Hx. cbn in Hx. by rewrite (failed_inj _ _ _ _ He Hx).
Qed.

(** X13.  The promises of the observers never fail without cause.  In
    every heap that a program reaches by operations that return and do not
    resolve the new promise [x] themselves: the promise of [isSuccess$] and
    the promise of [isFailure$] are never FAILED, and are SUCCEEDED only
    with the boolean that tells the outcome of [s]; the promise of
    [getError$] is SUCCEEDED only with the error of a FAILED [s] and FAILED
    only with [null], when [s] is SUCCEEDED. *)
Theorem X13_observer_outcome fenv fuel s c h x h1 os h2 :
  settled fenv no_exempt h -> closed_heap h -> cells h !! s = Some c ->
  Forall (quiet_op (fun p => p <> x) always always) os ->
  do_ops_returning fenv fuel os h1 = Some h2 ->
  (isSuccess_ (run fenv fuel) (VPromise s) h = Ret x h1 ->
   (forall e, ~ failed h2 x e) /\
   (forall v, succeeded h2 x v ->
      (v = VBool true /\ exists d, succeeded h2 s d) \/
      (v = VBool false /\ exists e, failed h2 s e))) /\
  (isFailure_ (run fenv fuel) (VPromise s) h = Ret x h1 ->
   (forall e, ~ failed h2 x e) /\
   (forall v, succeeded h2 x v ->
      (v = VBool false /\ exists d, succeeded h2 s d) \/
      (v = VBool true /\ exists e, failed h2 s e))) /\
  (getError_ (run fenv fuel) (VPromise s) h = Ret x h1 ->
   (forall v, succeeded h2 x v -> failed h2 s v) /\
   (forall e, failed h2 x e -> e = VNull /\ exists d, succeeded h2 s d)).
Proof.
  intros Hs Hcl Hc Hq Hos. split; [|split]; intros Ho.
  - destruct (observe_exact fenv fuel (answer true)
                (answer false) s c h x h1 os h2
                Hs Hcl Hc Ho Hq Hos) as (HP & HS & HF & Hcases).
    cbn in HS, HF. split.
    + intros e He. destruct Hcases as [Hp|[(d & Hd)|(e' & He')]].
      * by eapply pending_not_failed; [apply HP|].
      * by eapply succeeded_not_failed; [apply (HS d)|].
      * by eapply succeeded_not_failed; [apply (HF e')|].
    + intros v Hv. destruct Hcases as [Hp|[(d & Hd)|(e' & He')]].
      * exfalso. by eapply pending_not_succeeded; [apply HP|].
      * left. split; [|by exists d]. by eapply succeeded_inj; [|apply (HS d)].
      * right. split; [|by exists e']. by eapply succeeded_inj; [|apply (HF e')].
  - destruct (observe_exact fenv fuel (answer false)
                (answer true) s c h x h1 os h2
                Hs Hcl Hc Ho Hq Hos) as (HP & HS & HF & Hcases).
    cbn in HS, HF. split.
    + intros e He. destruct Hcases as [Hp|[(d & Hd)|(e' & He')]].
      * by eapply pending_not_failed; [apply HP|].
      * by eapply succeeded_not_failed; [apply (HS d)|].
      * by eapply succeeded_not_failed; [apply (HF e')|].
    + intros v Hv. destruct Hcases as [Hp|[(d & Hd)|(e' & He')]].
      * exfalso. by eapply pending_not_succeeded; [apply HP|].
      * left. split; [|by exists d]. by eapply succeeded_inj; [|apply (HS d)].
      * right. split; [|by exists e']. by eapply succeeded_inj; [|apply (HF e')].
  - destruct (observe_exact fenv fuel no_error CbSuccess
                s c h x h1 os h2 Hs Hcl Hc Ho Hq Hos) as (HP & HS & HF & Hcases).
    cbn in HS, HF. split.
    + intros v Hv. destruct Hcases as [Hp|[(d & Hd)|(e' & He')]].
      * exfalso. by eapply pending_not_succeeded; [apply HP|].
      * exfalso. by eapply succeeded_not_failed; [|apply (HS d)].
      * by rewrite (succeeded_inj _ _ _ _ Hv (HF e' He')).
    + intros e He. destruct Hcases as [Hp|[(d & Hd)|(e' & He')]].
      * exfalso. by eapply pending_not_failed; [apply HP|].
      * split; [|by exists d]. by eapply failed_inj; [|apply (HS d)].
      * exfalso. by eapply succeeded_not_failed; [apply (HF e')|].
Qed.

(** ** Exceptions in the closure of [liftA] *)

(** The heap in which [liftA(f)(s)] has created its promise and its
    variables, pushed [s] onto [t$s] and counted it. *)
Definition lifted_one (h : heap) (s : ref) : heap :=
  with_frames (alloc h (fresh_cell None))
              (frames h ++ [{| finishedCount := 1; ts := [VPromise s] |}]).

Lemma liftA_one rec f s h c :
  cells h !! s = Some c -> _state c <> PENDING ->
  liftA rec f [VPromise s] h =
  (invoke rec (CbLiftA f 1 (length (frames h)) (length (cells h)))
          [VStr (state_name (_state c)); _data c; _error c] ;;;
   ret (length (cells h)))
    (with_frames (alloc h (fresh_cell None))
                 (frames h ++ [{| finishedCount := 0; ts := [VPromise s] |}])).
Proof.
  intros Hc Hs. unfold liftA. rewrite (bind_eq _ _ _ _ _ (promise_eq None h)).
  unfold bind at 1. unfold new_frame at 1. cbn [for_each length].
  unfold bind at 1 2 3, get_frame at 1. cbn [frames alloc].
  rewrite lookup_app_r, Nat.sub_diag by done. cbn [lookup list_lookup].
  unfold bind at 1, set_frame at 1. cbn [frames cells trace finishedCount ts app].
  unfold bind at 1. cbn [as_promise ret].
  rewrite insert_app_r_alt, Nat.sub_diag by done. cbn [insert list_insert].
  pose proof (lookup_alloc_old h (fresh_cell None) _ _ Hc) as Hc1.
  unfold bind at 1.
  rewrite (registerFinishListener_finished rec s _
             {| cells := cells (alloc h (fresh_cell None));
                frames := frames h ++ [{| finishedCount := 0; ts := [VPromise s] |}];
                trace := trace (alloc h (fresh_cell None)) |} c Hc1 Hs).
  unfold bind, with_frames.
  by destruct (invoke rec _ _ _) as [[] h'| |].
Qed.

Lemma invoke_liftA_one fenv n f env r s args h fr :
  frames h !! env = Some fr -> finishedCount fr = 0 -> ts fr = [VPromise s] ->
  invoke (run fenv (S n)) (CbLiftA f 1 env r) args h =
  (v <- getData (run fenv n) s ;;
   w <- call (run fenv n) f [v] ;;
   __notifySuccess__ (run fenv n) r w ;;;
   ret tt)
    (with_frames h (<[env := {| finishedCount := 1; ts := [VPromise s] |}]> (frames h))).
Proof.
  intros Hfr Hcount Hts. rewrite run_invoke. cbn [run_callback].
  unfold bind at 1 2, get_frame at 1. rewrite Hfr.
  unfold bind at 1, set_frame at 1. rewrite Hcount, Hts. cbn [Nat.eqb map_m as_promise].
  unfold with_frames, bind, ret.
  destruct (getData _ _ _) as [v h1| |]; [|done..].
  destruct (call _ _ _ _) as [w h2| |]; [|done..].
  by destruct (__notifySuccess__ _ _ _ _).
Qed.

(** X14.  An exception in the closure of [liftA] is not masked.  For one
    input that is FAILED and whose [__errorToData__] throws, and for one
    input that is SUCCEEDED when [f] throws, [liftA(f)] throws the same
    exception: the input has been counted, the promise that [liftA] has
    created is PENDING and is not returned. *)
Theorem X14_liftA_throws fenv n f s c h e :
  cells h !! s = Some c ->
  let h1 := lifted_one h s in
  (forall g, _state c = FAILED -> opt__errorToData__ (_options c) = Some (FUser g) ->
             fenv g [_error c] = AThrow e ->
             liftA (run fenv (S (S (S n)))) f [VPromise s] h =
             Throw e (logged h1 [EvCall g [_error c]])) /\
  (forall id, _state c = SUCCEEDED -> f = FUser id -> fenv id [_data c] = AThrow e ->
              liftA (run fenv (S (S (S n)))) f [VPromise s] h =
              Throw e (logged h1 [EvCall id [_data c]])) /\
  cells h1 !! length (cells h) = Some (fresh_cell None).
Proof.
  intros Hc h1.
  assert (<[length (frames h) := {| finishedCount := 1; ts := [VPromise s] |}]>
            (frames h ++ [{| finishedCount := 0; ts := [VPromise s] |}]) =
          frames h ++ [{| finishedCount := 1; ts := [VPromise s] |}]) as Hins.
  { by rewrite insert_app_r_alt, Nat.sub_diag. }
  split; [|split].
  - intros g Hs Hg Hf. rewrite (liftA_one _ _ _ _ c Hc) by (by rewrite Hs).
    unfold bind at 1.
    erewrite invoke_liftA_one; [|cbn; by rewrite lookup_app_r, Nat.sub_diag|done|done].
    cbn [frames with_frames]. rewrite Hins.
    unfold bind at 1. unfold getData, bind at 1, get_cell.
    cbn [cells with_frames]. rewrite (lookup_alloc_old h (fresh_cell None) _ _ Hc), Hs, Hg.
    rewrite run_call. cbn [run_fn]. rewrite Hf. unfold bind. by rewrite log_eq.
  - intros id Hs -> Hf. rewrite (liftA_one _ _ _ _ c Hc) by (by rewrite Hs).
    unfold bind at 1.
    erewrite invoke_liftA_one; [|cbn; by rewrite lookup_app_r, Nat.sub_diag|done|done].
    cbn [frames with_frames]. rewrite Hins.
    unfold bind at 1. unfold getData, bind at 1, get_cell.
    cbn [cells with_frames]. rewrite (lookup_alloc_old h (fresh_cell None) _ _ Hc), Hs.
    unfold ret at 1. unfold bind at 1.
    rewrite run_call. cbn [run_fn]. rewrite Hf. unfold bind. by rewrite log_eq.
  - apply lookup_alloc_new.
Qed.

(** ** Examples *)

Lemma closed_no_listeners h :
  (forall r c, cells h !! r = Some c ->
               _successListeners c = [] /\ _failureListeners c = [] /\
               _finishListeners c = []) ->
  closed_heap h.
Proof.
  intros H p c Hc _. destruct (H p c Hc) as (-> & -> & ->). constructor.
Qed.

Lemma one_cell_no_listeners c0 :
  _successListeners c0 = [] -> _failureListeners c0 = [] -> _finishListeners c0 = [] ->
  forall r c, cells (alloc empty_heap c0) !! r = Some c ->
              _successListeners c = [] /\ _failureListeners c = [] /\
              _finishListeners c = [].
Proof.
  intros H1 H2 H3 r c Hc. destruct r as [|r]; cbn in Hc; [|done]. by injection Hc as <-.
Qed.

Lemma closed_resolved_heap : closed_heap resolved_heap.
Proof. by apply closed_no_listeners, one_cell_no_listeners. Qed.

Lemma closed_pending_heap : closed_heap pending_heap.
Proof. by apply closed_no_listeners, one_cell_no_listeners. Qed.

Lemma X1_witness :
  cells resolved_heap !! 0 = Some resolved_cell /\
  isSuccess_ (run demo_fenv 1) (VPromise 0) resolved_heap =
  Ret 1 (alloc resolved_heap
           (set_state (fresh_cell None) SUCCEEDED (VBool true) VUndefined)).
Proof.
  split; [reflexivity|].
  destruct (X1_isSuccess demo_fenv 0 0 resolved_cell resolved_heap eq_refl)
    as (_ & H & _).
  exact (H eq_refl).
Defined.

Lemma X2_witness :
  cells resolved_heap !! 0 = Some resolved_cell /\
  isFailure_ (run demo_fenv 1) (VPromise 0) resolved_heap =
  Ret 1 (alloc resolved_heap
           (set_state (fresh_cell None) SUCCEEDED (VBool false) VUndefined)).
Proof.
  split; [reflexivity|].
  destruct (X2_isFailure demo_fenv 0 0 resolved_cell resolved_heap eq_refl)
    as (_ & H & _).
  exact (H eq_refl).
Defined.

Lemma X3_witness :
  cells resolved_heap !! 0 = Some resolved_cell /\
  getError_ (run demo_fenv 1) (VPromise 0) resolved_heap =
  Ret 1 (alloc resolved_heap (set_state (fresh_cell None) FAILED VUndefined VNull)).
Proof.
  split; [reflexivity|].
  destruct (X3_getError demo_fenv 0 0 resolved_cell resolved_heap eq_refl)
    as (_ & H & _).
  exact (H eq_refl).
Defined.

Lemma X4_witness :
  settled demo_fenv no_exempt resolved_heap /\
  exists h1, continue_ (run demo_fenv 3) (VPromise 0) (FUser 6) resolved_heap = Ret 1 h1 /\
             succeeded h1 1 VNull.
Proof.
  split; [exact settled_resolved_heap|].
  eexists. split; [vm_compute; reflexivity|].
  destruct (X4_continue demo_fenv 3 0 (FUser 6) resolved_heap 1 _ settled_resolved_heap
              eq_refl) as (_ & _ & H).
  destruct (H [] _ eq_refl) as (r1 & _ & Hr & Hn & _).
  - exists resolved_cell. by split.
  - apply Hn. by rewrite (Hr 6 VUndefined eq_refl eq_refl).
Defined.

Lemma X5_witness :
  closed_heap pending_heap /\ cells pending_heap !! 0 = Some (fresh_cell None) /\
  _state (fresh_cell None) = PENDING /\
  exists h1, fmap (run demo_fenv 2) (FUser 0) (VPromise 0) pending_heap = Ret 1 h1 /\
             pending h1 1.
Proof.
  split; [exact closed_pending_heap|]. split; [reflexivity|]. split; [reflexivity|].
  destruct (X5_derived_waits demo_fenv 2 (FUser 0) 0 (fresh_cell None) pending_heap
              closed_pending_heap eq_refl eq_refl) as ((h1 & Hf & Hw) & _).
  exists h1. split; [exact Hf|]. apply (Hw [] h1); [constructor|reflexivity|].
  vm_compute in Hf. injection Hf as <-. eexists. split; [reflexivity|reflexivity].
Defined.

Lemma X7_witness :
  is_promise (VNum 5) = false /\
  forall rec, fmap rec (FUser 0) (VNum 5) empty_heap = Throw TypeError pending_heap.
Proof.
  split; [reflexivity|]. intros rec.
  by destruct (X7_not_a_promise rec (FUser 0) (VNum 5) empty_heap eq_refl) as (H & _).
Defined.

Lemma X8_witness :
  cells resolved_heap !! 0 = Some resolved_cell /\
  demo_fenv 3 [VNum 5] = AThrow (VStr "no data") /\
  fmap (run demo_fenv 2) (FUser 3) (VPromise 0) resolved_heap =
  Throw (VStr "no data") (logged (alloc resolved_heap (fresh_cell None))
                                 [EvCall 3 [VNum 5]]).
Proof.
  split; [reflexivity|]. split; [reflexivity|].
  destruct (X8_fmap_function_throws demo_fenv 0 3 0 resolved_cell resolved_heap (VNum 5)
              (VStr "no data") eq_refl eq_refl) as (H & _).
  exact (H eq_refl eq_refl).
Defined.

Lemma X9_witness :
  cells resolved_heap !! 0 = Some resolved_cell /\
  _state resolved_cell = SUCCEEDED /\
  demo_fenv 0 [_data resolved_cell] = AReturn (VNum 10) /\
  is_promise (VNum 10) = false /\
  exists h1, flatMap (run demo_fenv 2) (FUser 0) (VPromise 0) resolved_heap
             = Throw TypeError h1.
Proof.
  split; [reflexivity|]. split; [reflexivity|]. split; [reflexivity|].
  split; [reflexivity|]. eexists.
  exact (X9_flatMap_not_a_promise demo_fenv 0 0 0 resolved_cell resolved_heap (VNum 10)
           eq_refl eq_refl eq_refl eq_refl).
Defined.

(** Functions for the composition: [d * 2], [d + 1] and [d * 2 + 1]. *)
Definition arith_fenv (id : nat) (args : list value) : action :=
  match id, args with
  | 0, [VNum z] => AReturn (VNum (z * 2))
  | 1, [VNum z] => AReturn (VNum (z + 1))
  | 2, [VNum z] => AReturn (VNum (z * 2 + 1))
  | _, _ => AReturn VUndefined
  end.

Lemma settled_arith : settled arith_fenv no_exempt resolved_heap.
Proof. by apply settled_no_listeners, one_cell_no_listeners. Qed.

Lemma X10_witness :
  settled arith_fenv no_exempt resolved_heap /\
  exists h1 h2 h3,
    fmap (run arith_fenv 2) (FUser 0) (VPromise 0) resolved_heap = Ret 1 h1 /\
    fmap (run arith_fenv 2) (FUser 1) (VPromise 1) h1 = Ret 2 h2 /\
    fmap (run arith_fenv 2) (FUser 2) (VPromise 0) h2 = Ret 3 h3 /\
    succeeded h3 2 (VNum 11) /\ succeeded h3 3 (VNum 11).
Proof.
  split; [exact settled_arith|].
  eexists _, _, _. split; [vm_compute; reflexivity|].
  split; [vm_compute; reflexivity|]. split; [vm_compute; reflexivity|].
  destruct (X10_fmap_composition arith_fenv 2 0 1 2 0 resolved_heap 1 _ 2 _ 3 _
              settled_arith eq_refl eq_refl eq_refl [] _ eq_refl) as (H & _).
  apply (H (VNum 5) (VNum 10) (VNum 11)); [|reflexivity..].
  exists resolved_cell. by repeat split.
Defined.

Lemma X11_witness :
  quiet_heap (fun p => ~ (fun r => r = 0) p) always always pending_heap /\
  Forall (quiet_op (fun p => ~ (fun r => r = 0) p) always always) [OpUnit (VNum 1)] /\
  exists h2, do_ops demo_fenv 1 [OpUnit (VNum 1)] pending_heap = Some h2 /\
             exists c', cells h2 !! 0 = Some c' /\ _state c' = PENDING.
Proof.
  assert (quiet_heap (fun p => ~ (fun r => r = 0) p) always always pending_heap) as Hq.
  { split; [|split].
    - intros r c Hc. destruct r as [|r]; cbn in Hc; [|done]. injection Hc as <-.
      split; [by intros _; constructor|]. intros f _. apply quiet_fn_always.
    - intros r Hr ->. cbn in Hr. lia.
    - done. }
  assert (Forall (quiet_op (fun p => ~ (fun r => r = 0) p) always always)
                 [OpUnit (VNum 1)]) as Ho by (by repeat constructor).
  split; [exact Hq|]. split; [exact Ho|].
  eexists. split; [vm_compute; reflexivity|].
  destruct (X11_isolation demo_fenv 1 (fun r => r = 0) pending_heap [OpUnit (VNum 1)] _
              Hq Ho eq_refl 0 (fresh_cell None) eq_refl eq_refl) as (c' & Hc' & Hs & _).
  by exists c'.
Defined.

Lemma X12_witness :
  settled demo_fenv no_exempt resolved_heap /\ closed_heap resolved_heap /\
  cells resolved_heap !! 0 = Some resolved_cell /\
  exists h1, fmap (run demo_fenv 2) (FUser 0) (VPromise 0) resolved_heap = Ret 1 h1 /\
             forall e, failed h1 1 e -> failed h1 0 e.
Proof.
  split; [exact settled_resolved_heap|]. split; [exact closed_resolved_heap|].
  split; [reflexivity|]. eexists. split; [vm_compute; reflexivity|].
  by destruct (X12_fmap_outcome demo_fenv 2 (FUser 0) 0 resolved_cell resolved_heap 1 _
                 [] _ settled_resolved_heap closed_resolved_heap eq_refl eq_refl
                 ltac:(constructor) eq_refl) as (_ & _ & H).
Defined.

Lemma X13_witness :
  settled demo_fenv no_exempt resolved_heap /\ closed_heap resolved_heap /\
  cells resolved_heap !! 0 = Some resolved_cell /\
  exists h1, isSuccess_ (run demo_fenv 2) (VPromise 0) resolved_heap = Ret 1 h1 /\
             forall e, ~ failed h1 1 e.
Proof.
  split; [exact settled_resolved_heap|]. split; [exact closed_resolved_heap|].
  split; [reflexivity|]. eexists. split; [vm_compute; reflexivity|].
  match goal with
  | |- forall e, ~ failed ?h1 1 e =>
      destruct (X13_observer_outcome demo_fenv 2 0 resolved_cell resolved_heap 1 h1 [] h1
                  settled_resolved_heap closed_resolved_heap eq_refl
                  ltac:(constructor) eq_refl) as (H & _)
  end.
  by destruct (H eq_refl) as (Hn & _).
Defined.

Lemma X14_witness :
  cells resolved_heap !! 0 = Some resolved_cell /\
  liftA (run demo_fenv 3) (FUser 3) [VPromise 0] resolved_heap =
  Throw (VStr "no data") (logged (lifted_one resolved_heap 0) [EvCall 3 [VNum 5]]).
Proof.
  split; [reflexivity|].
  destruct (X14_liftA_throws demo_fenv 0 (FUser 3) 0 resolved_cell resolved_heap
              (VStr "no data") eq_refl) as (_ & H & _).
  exact (H 3 eq_refl eq_refl eq_refl).
Defined.

(** ** [flatMap] waits for its input *)

Lemma quiet_op_weaken (tgt tgt' : ref -> Prop) o :
  (forall p, tgt p -> tgt' p) ->
  quiet_op tgt always always o -> quiet_op tgt' always always o.
Proof.
  intros Ht. destruct o; cbn; try done; try (by apply Ht);
    by apply quiet_cb_weaken.
Qed.

(** The heap stays closed when a combinator stores closures that know its
    new promise. *)
Lemma closed_subscribed h s c c' :
  closed_heap h -> cells h !! s = Some c ->
  Forall (quiet_cb (fun q => q < S (length (cells h))) always
                   (fun e => e < length (frames h)))
         (_successListeners c' ++ _failureListeners c' ++ _finishListeners c') ->
  closed_heap (update_cell (alloc h (fresh_cell None)) s c').
Proof.
  intros Hcl Hc Hq p cp Hcp Hsp.
  assert (length (cells (update_cell (alloc h (fresh_cell None)) s c'))
          = S (length (cells h))) as ->.
  { cbn. rewrite length_insert, length_app. cbn. lia. }
  destruct (decide (p = s)) as [->|Hps].
  - erewrite lookup_update_cell in Hcp; [|by apply lookup_alloc_old].
    by injection Hcp as <-.
  - cbn in Hcp. rewrite list_lookup_insert_ne in Hcp by done.
    destruct (old_or_new h (fresh_cell None) p cp Hcp) as [Hold|(_ & ->)]; [|by cbn].
    eapply Forall_impl; [by apply (Hcl p cp)|].
    intros cb. apply quiet_cb_weaken; [|done]. intros q Hq'. lia.
Qed.

(** X15.  The promise that [flatMap(f)] returns for a PENDING promise [s]
    is not resolved before [s] is.  [flatMap(f)] creates the promise of
    [fmap(f)] and then the promise of [join], which it returns; in every
    heap that a program reaches afterwards, by operations that return or
    throw but resolve neither of the two themselves, the returned promise
    is PENDING as long as [s] is PENDING. *)
Theorem X15_flatMap_waits fenv fuel f s c h :
  closed_heap h -> cells h !! s = Some c -> _state c = PENDING ->
  let x := length (cells h) in
  let r := S (length (cells h)) in
  exists h2,
    flatMap (run fenv fuel) f (VPromise s) h = Ret r h2 /\
    forall os h3,
      Forall (quiet_op (fun p => p <> x /\ p <> r) always always) os ->
      do_ops fenv fuel os h2 = Some h3 ->
      pending h3 s -> pending h3 r.
Proof.
  intros Hcl Hc Hs x r.
  set (c1 := push_failure (push_success c (CbFmap f x)) (CbFailure x)).
  set (h1 := update_cell (alloc h (fresh_cell None)) s c1).
  assert (fmap (run fenv fuel) f (VPromise s) h = Ret x h1) as Hf
      by (by apply fmap_pending).
  assert (length (cells h1) = r) as Hlen.
  { unfold h1. cbn. rewrite length_insert, length_app. cbn. lia. }
  pose proof (lookup_lt_Some _ _ _ Hc) as Hlt.
  assert (cells h1 !! x = Some (fresh_cell None)) as Hx.
  { unfold h1. cbn. rewrite list_lookup_insert_ne by (unfold x; lia).
    by rewrite lookup_app_r, Nat.sub_diag. }
  assert (closed_heap h1) as Hcl1.
  { apply (closed_subscribed h s c c1 Hcl Hc). unfold c1. cbn.
    specialize (Hcl s c Hc Hs). rewrite !Forall_app in Hcl. rewrite !Forall_app.
    destruct Hcl as (H1 & H2 & H3).
    assert (forall l, Forall (quiet_cb (fun q => q < length (cells h)) always
                                (fun e => e < length (frames h))) l ->
                      Forall (quiet_cb (fun q => q < S (length (cells h))) always
                                (fun e => e < length (frames h))) l) as Hw.
    { intros l Hl. eapply Forall_impl; [exact Hl|]. intros cb.
      apply quiet_cb_weaken; [|done]. intros q Hq. lia. }
    repeat split; auto.
    - apply Forall_singleton. cbn. split; [apply quiet_fn_always|]. unfold x. lia.
    - apply Forall_singleton. cbn. unfold x. lia. }
  destruct (observe_waits fenv fuel CbJoin CbFailure x (fresh_cell None) h1 Hcl1 Hx eq_refl)
    as (h2 & Hj & Hw2).
  rewrite Hlen in Hj, Hw2.
  exists h2. split.
  - unfold flatMap. by rewrite (bind_eq _ _ _ _ _ Hf).
  - intros os h3 Hos Hdo Hp.
    apply (Hw2 os h3); [|done|].
    + eapply Forall_impl; [exact Hos|]. intros o. apply quiet_op_weaken. tauto.
    + assert (waiting s x tt h1) as Hw1 by (by eapply waiting_subscribed).
      pose proof (waits_do_op fenv s x fuel (OpJoin (VPromise x)) h1 Logic.I Hw1) as Hwj.
      unfold wp in Hwj. cbn [do_op] in Hwj. unfold as_value, bind in Hwj.
      change (join (run fenv fuel) (VPromise x) h1)
        with (observe (run fenv fuel) CbJoin CbFailure (VPromise x) h1) in Hwj.
      rewrite Hj in Hwj. cbn in Hwj.
      assert (Forall (quiet_op (fun p => p <> x) always always) os) as Hos1.
      { eapply Forall_impl; [exact Hos|]. intros o. apply quiet_op_weaken. tauto. }
      destruct (waits_do_ops fenv s x fuel os h2 h3 Hos1 Hwj Hdo) as (_ & _ & H).
      by apply H.
Qed.

Lemma X15_witness :
  closed_heap pending_heap /\ cells pending_heap !! 0 = Some (fresh_cell None) /\
  _state (fresh_cell None) = PENDING /\
  exists h2, flatMap (run demo_fenv 2) (FUser 2) (VPromise 0) pending_heap = Ret 2 h2 /\
             pending h2 2.
Proof.
  split; [exact closed_pending_heap|]. split; [reflexivity|]. split; [reflexivity|].
  destruct (X15_flatMap_waits demo_fenv 2 (FUser 2) 0 (fresh_cell None) pending_heap
              closed_pending_heap eq_refl eq_refl) as (h2 & Hf & Hw).
  exists h2. split; [exact Hf|]. apply (Hw [] h2); [constructor|reflexivity|].
  vm_compute in Hf. injection Hf as <-. eexists. split; [reflexivity|reflexivity].
Defined.

(** ** Values that must be promises *)

(** X16.  [join] needs the data of its input to be a promise, and
    [continue$] needs [f] to return a promise, [null] or [undefined].  If
    the input is SUCCEEDED with a value that is not a promise, [join]
    throws a TypeError and the promise it has created stays PENDING.  If
    the input of [continue$(p, f)] is finished, [f] is called at once, once,
    with [p]: if it returns [null] or [undefined] the new promise is
    SUCCEEDED with [null]; if it returns another value that is not a
    promise, [continue$] throws a TypeError and the new promise stays
    PENDING. *)
Theorem X16_needs_promise fenv n s c h v :
  cells h !! s = Some c -> is_promise v = false ->
  (_state c = SUCCEEDED -> _data c = v ->
   join (run fenv (S n)) (VPromise s) h = Throw TypeError (alloc h (fresh_cell None))) /\
  (forall id,
     _state c <> PENDING -> fenv id [VPromise s] = AReturn v ->
     continue_ (run fenv (S (S n))) (VPromise s) (FUser id) h =
     if not_null v
     then Throw TypeError (logged (alloc h (fresh_cell None)) [EvCall id [VPromise s]])
     else Ret (length (cells h))
              (logged (alloc h (set_state (fresh_cell None) SUCCEEDED VNull VUndefined))
                      [EvCall id [VPromise s]])).
Proof.
  intros Hc Hv. pose proof (lookup_alloc_old h (fresh_cell None) _ _ Hc) as Hc1. split.
  - intros Hs Hd. unfold join. rewrite (bind_eq _ _ _ _ _ (promise_eq None h)).
    unfold bind at 1. cbn [as_promise ret]. unfold bind at 1.
    rewrite (registerSuccessListener_succeeded _ _ _ _ _ Hc1 Hs), Hd.
    unfold bind at 1. rewrite run_invoke. cbn [run_callback]. unfold bind at 1 2.
    rewrite first_arg_cons. by rewrite as_promise_other.
  - intros id Hs Hf. unfold continue_. rewrite (bind_eq _ _ _ _ _ (promise_eq None h)).
    unfold bind at 1. cbn [as_promise ret]. unfold bind at 1.
    rewrite (registerFinishListener_finished _ _ _ _ _ Hc1 Hs).
    unfold bind at 1. rewrite run_invoke. cbn [run_callback]. rewrite run_call.
    cbn [run_fn]. rewrite Hf. unfold bind at 1 2 3. rewrite log_eq. unfold ret at 1.
    destruct (not_null v) eqn:Hn.
    + unfold chain_, bind. by rewrite as_promise_other.
    + rewrite logged_alloc.
      change (length (cells h))
        with (length (cells (logged h [EvCall id [VPromise s]]))) at 1.
      by rewrite notifySuccess_fresh.
Qed.

Lemma X16_witness :
  cells resolved_heap !! 0 = Some resolved_cell /\ is_promise (VNum 5) = false /\
  join (run demo_fenv 1) (VPromise 0) resolved_heap =
  Throw TypeError (alloc resolved_heap (fresh_cell None)).
Proof.
  split; [reflexivity|]. split; [reflexivity|].
  destruct (X16_needs_promise demo_fenv 0 0 resolved_cell resolved_heap (VNum 5)
              eq_refl eq_refl) as (H & _).
  exact (H eq_refl eq_refl).
Defined.
